(** * A shallow embedding of [lib/bundle.py]

    The bundler inlines the definitions an entry file imports from the
    [lib] namespace into one text.  This development embeds its functions
    (module resolution, the symbol table, reference extraction, the symbol
    closure, the stable topological sort and the emitter) and proves
    properties of them.

    Conventions of the embedding.
    - A Python [str] is a Rocq [string]; its characters are the code points
      below 256.  The Unicode line separators U+2028 and U+2029 are therefore
      outside the model.
    - A Python [set] of names is a [gset string]; where the source iterates a
      set, the embedding takes the iteration order as a parameter [iter].
    - A Python [dict] is a [gmap]; only lookups and membership are ever made
      on the dictionaries of the source, so insertion order plays no role.
    - The parser ([ast.parse]), the file system and [ast.get_source_segment]
      belong to the Python runtime; they are taken from a [World] record and
      from position fields carried by the top-level nodes.  [read_text] of a
      [World] is the text as [Path.read_text] returns it; the text a file is
      stored with, and the translation of its line ends on reading, are in
      [Files] and [world_of].

    The class [Comb] of [lib/math/comb.py] is embedded in the module [Comb]
    further down. *)

From Stdlib Require Import ZArith Lia Ascii Factorial Znumtheory.
From stdpp Require Import gmap strings list fin_maps sorting pretty.

Local Open Scope Z_scope.
Set Warnings "-register-all,-clear-no-such-hyp".

(** ** Results and exceptions *)

Definition Path := list string.

(** The messages [BundleError] is raised with, one constructor per format
    string of the source, carrying the values the message is formatted from. *)
Inductive message :=
| ModuleNotFound (module : string) (file_path pkg_init : Path)
| ModuleParseFailure (module : string) (path : Path)
| EntryParseFailure (path : Path)
| SymbolNotFound (module name : string) (path : Path)
| ExtractFailure (module name : string) (path : Path)
| UnsupportedImportForm
| UnsupportedStarImport.

Inductive exn :=
| BundleError (m : message)
| OSError (path : Path)
| ValueError.

Inductive result (A : Type) :=
| Ok (a : A)
| Raise (e : exn).
Arguments Ok {A} a.
Arguments Raise {A} e.

Definition bind {A B} (r : result A) (k : A → result B) : result B :=
  match r with
  | Ok a => k a
  | Raise e => Raise e
  end.

Notation "'let!' x := r 'in' k" := (bind r (λ x, k))
  (at level 10, x pattern, r at level 100, k at level 200,
   format "'let!'  x  :=  r  'in'  '/' k").

(** ** Python string methods *)

Module Str.

Definition startswith (s p : string) : bool := String.prefix p s.

Fixpoint join (sep : string) (l : list string) : string :=
  match l with
  | [] => ""
  | [x] => x
  | x :: l' => x +:+ sep +:+ join sep l'
  end.

(** [str.split(sep)] for a separator of one character. *)
Fixpoint split (sep : ascii) (s : string) : list string :=
  match s with
  | "" => [""]
  | String c s' =>
      if decide (c = sep) then "" :: split sep s'
      else
        match split sep s' with
        | x :: l => String c x :: l
        | [] => [String c ""]
        end
  end.

(** Line boundaries of [str.splitlines] among the code points below 256:
    LF, VT, FF, CR, FS, GS, RS and NEL. *)
Definition is_linebreak (c : ascii) : bool :=
  match c with
  | "010" | "011" | "012" | "013" | "028" | "029" | "030" | "133" => true
  | _ => false
  end%char.

Fixpoint splitlines_go (keepends : bool) (cur : string) (s : string)
  : list string :=
  match s with
  | "" => if decide (cur = "") then [] else [String.rev cur]
  | String c s' =>
      if is_linebreak c then
        match c, s' with
        | "013"%char, String "010"%char s'' =>
            String.rev (if keepends then String "010" (String "013" cur) else cur)
              :: splitlines_go keepends "" s''
        | _, _ =>
            String.rev (if keepends then String c cur else cur)
              :: splitlines_go keepends "" s'
        end
      else splitlines_go keepends (String c cur) s'
  end.
Definition splitlines (keepends : bool) (s : string) : list string :=
  splitlines_go keepends "" s.

(** [str.isspace] on one character below 256. *)
Definition is_space (c : ascii) : bool :=
  match c with
  | "009" | "010" | "011" | "012" | "013"
  | "028" | "029" | "030" | "031" | " " | "133" | "160" => true
  | _ => false
  end%char.

Fixpoint lstrip_by (P : ascii → bool) (s : string) : string :=
  match s with
  | "" => ""
  | String c s' => if P c then lstrip_by P s' else s
  end.
Definition rstrip_by (P : ascii → bool) (s : string) : string :=
  String.rev (lstrip_by P (String.rev s)).

Definition is_nl (c : ascii) : bool := bool_decide (c = "010"%char).

(** [s.lstrip("\n")], [s.rstrip("\n")], [s.rstrip()] and [s.strip()]. *)
Definition lstrip_nl (s : string) : string := lstrip_by is_nl s.
Definition rstrip_nl (s : string) : string := rstrip_by is_nl s.
Definition rstrip (s : string) : string := rstrip_by is_space s.
Definition strip (s : string) : string := lstrip_by is_space (rstrip s).

(** [s.rfind(".")]: the index of the last dot. *)
Fixpoint rfind_dot_go (i : nat) (last : option nat) (s : string) : option nat :=
  match s with
  | "" => last
  | String c s' =>
      rfind_dot_go (S i) (if decide (c = "."%char) then Some i else last) s'
  end.
Definition rfind_dot (s : string) : option nat := rfind_dot_go 0 None s.

Definition nl : string := String "010" "".

End Str.

(** ** Paths ([pathlib]) *)

Module Pathlib.

(** [p.joinpath] applied to parts that hold no separator: the empty ones
    vanish, the others become components. *)
Definition joinpath (p : Path) (parts : list string) : Path :=
  p ++ filter (λ s, s ≠ "") parts.

(** [PurePath.suffix] of a final component. *)
Definition suffix (name : string) : string :=
  match Str.rfind_dot name with
  | Some i =>
      if bool_decide (0 < i < String.length name - 1)%nat
      then String.substring i (String.length name - i) name
      else ""
  | None => ""
  end.

(** [p.with_suffix(suf)]; an empty name raises [ValueError]. *)
Definition with_suffix (p : Path) (suf : string) : result Path :=
  match last p with
  | None => Raise ValueError
  | Some name =>
      if decide (name = "") then Raise ValueError
      else
        let old := suffix name in
        let stem :=
          String.substring 0 (String.length name - String.length old) name in
        Ok (removelast p ++ [stem +:+ suf])
  end.

End Pathlib.

(** ** The syntax tree ([ast]) *)

Inductive expr_context := Load | Store | Del.

(** Expressions.  Only [Name] nodes matter to the bundler; any other
    expression node (and the [comprehension], [keyword] and [arguments] nodes
    found below expressions) is kept as the list of its child nodes. *)
Inductive expr :=
| Name (id : string) (ctx : expr_context)
| ExprNode (children : list expr).

Record arg := { arg_name : string; annotation : option expr }.

(** The parser leaves no [None] in [defaults], nor as the annotation of an
    annotated assignment; the source tests for [None] there all the same, and
    the embedding keeps the optional types so that the tests can be written. *)

Record arguments := {
  posonlyargs : list arg;
  args : list arg;
  vararg : option arg;
  kwonlyargs : list arg;
  kw_defaults : list (option expr);
  kwarg : option arg;
  defaults : list (option expr)
}.

Record keyword := { kw_arg : option string; kw_value : expr }.

Record alias := { alias_name : string; alias_asname : option string }.

(** Statements.  [StmtNode] stands for every statement form the bundler does
    not look into, with its child expressions and nested statements.  The
    type parameter lists of Python 3.12 are not modelled. *)
Inductive stmt :=
| FunctionDef (name : string) (a : arguments) (body : list stmt)
    (decorator_list : list expr) (returns : option expr)
| AsyncFunctionDef (name : string) (a : arguments) (body : list stmt)
    (decorator_list : list expr) (returns : option expr)
| ClassDef (name : string) (bases : list expr) (keywords : list keyword)
    (body : list stmt) (decorator_list : list expr)
| Assign (targets : list expr) (value : expr)
| AnnAssign (target : expr) (ann : option expr) (value : option expr)
| Import (names : list alias)
| ImportFrom (module : option string) (names : list alias) (level : Z)
| StmtNode (exprs : list expr) (stmts : list stmt).

(** A top-level node of a parsed module: the statement, its line span, and
    the text [ast.get_source_segment] returns for it in the source it was
    parsed from ([None] when the span is not available). *)
Record node := {
  stmt_of : stmt;
  lineno : Z;
  end_lineno : option Z;
  segment : option string
}.

(** Any node the source hands to [_name_loads_in]. *)
Inductive ast_node :=
| NStmt (s : stmt)
| NExpr (e : expr)
| NKeyword (k : keyword).

Definition get_source_segment (source : string) (n : node) : option string :=
  segment n.

(** What the Python runtime provides: the file system and the parser. *)
Record World := {
  path_exists : Path → bool;
  read_text : Path → option string;
  ast_parse : string → option (list node)
}.

(** [Path.read_text(encoding="utf-8")] opens the file in text mode: in the
    text the bytes of the file decode to, every line end [CR LF] and every
    lone [CR] is replaced by [LF] before the program sees it. *)
Fixpoint universal_newlines (s : string) : string :=
  match s with
  | "" => ""
  | String c s' =>
      if decide (c = "013"%char) then
        String "010"
          match s' with
          | String c' s'' =>
              if decide (c' = "010"%char) then universal_newlines s''
              else universal_newlines s'
          | "" => ""
          end
      else String c (universal_newlines s')
  end.

(** The files as they are stored: the text the bytes of each file decode to
    ([None] for a file that cannot be read or decoded), and the parser. *)
Record Files := {
  file_exists : Path → bool;
  file_text : Path → option string;
  file_parse : string → option (list node)
}.

(** What the program sees of the stored files. *)
Definition world_of (F : Files) : World :=
  {| path_exists := file_exists F;
     read_text p := universal_newlines <$> file_text F p;
     ast_parse := file_parse F |}.

(** ** Records of the bundler *)

Record ImportedSymbol := {
  imp_module : string;
  imp_name : string;
  imp_asname : option string
}.

Record ModuleSource := {
  ms_module : string;
  ms_path : Path;
  ms_source : string;
  ms_tree : list node
}.

Record SymbolDef := {
  sd_name : string;
  sd_node : node;
  sd_source : string;
  sd_module : string;
  sd_lineno : Z
}.

Global Instance expr_context_eq_dec : EqDecision expr_context.
Proof. solve_decision. Defined.

(** ** Module loading *)

Definition _is_lib_module (module : option string) : bool :=
  match module with
  | None => false
  | Some m => bool_decide (m = "lib") || Str.startswith m "lib."
  end.

Definition _resolve_module_path (W : World) (module : string) (root : Path)
  : result Path :=
  let parts := Str.split "." module in
  let! file_path := Pathlib.with_suffix (Pathlib.joinpath root parts) ".py" in
  if path_exists W file_path then Ok file_path
  else
    let pkg_init := Pathlib.joinpath root (parts ++ ["__init__.py"]) in
    if path_exists W pkg_init then Ok pkg_init
    else Raise (BundleError (ModuleNotFound module file_path pkg_init)).

Definition _parse_module_source (W : World) (module : string) (root : Path)
  : result ModuleSource :=
  let! path := _resolve_module_path W module root in
  match read_text W path with
  | None => Raise (OSError path)
  | Some source =>
      match ast_parse W source with
      | None => Raise (BundleError (ModuleParseFailure module path))
      | Some tree =>
          Ok {| ms_module := module; ms_path := path;
                ms_source := source; ms_tree := tree |}
      end
  end.

(** The truth value of an optional string ([if seg:]). *)
Definition truthy (seg : option string) : option string :=
  match seg with
  | Some s => if decide (s = "") then None else Some s
  | None => None
  end.

Fixpoint _extract_top_level_import_lines_go (source : string) (body : list node)
  (future_imports other_imports : list string) : list string * list string :=
  match body with
  | [] => (future_imports, other_imports)
  | n :: body' =>
      match stmt_of n with
      | ImportFrom (Some "__future__") _ _ =>
          match truthy (get_source_segment source n) with
          | Some seg =>
              _extract_top_level_import_lines_go source body'
                (future_imports ++ [seg]) other_imports
          | None =>
              _extract_top_level_import_lines_go source body'
                future_imports other_imports
          end
      | Import _ | ImportFrom _ _ _ =>
          match truthy (get_source_segment source n) with
          | Some seg =>
              _extract_top_level_import_lines_go source body'
                future_imports (other_imports ++ [seg])
          | None =>
              _extract_top_level_import_lines_go source body'
                future_imports other_imports
          end
      | _ =>
          _extract_top_level_import_lines_go source body'
            future_imports other_imports
      end
  end.

Definition _extract_top_level_import_lines (md : ModuleSource)
  : list string * list string :=
  _extract_top_level_import_lines_go (ms_source md) (ms_tree md) [] [].

(** ** The symbol table *)

(** [table.setdefault(k, v)]. *)
Definition setdefault {V} (k : string) (v : V) (table : gmap string V)
  : gmap string V :=
  match table !! k with
  | Some _ => table
  | None => <[k := v]> table
  end.

Definition _build_symbol_table_step (table : gmap string node) (n : node)
  : gmap string node :=
  match stmt_of n with
  | FunctionDef name _ _ _ _
  | AsyncFunctionDef name _ _ _ _
  | ClassDef name _ _ _ _ => <[name := n]> table
  | Assign targets _ =>
      foldl (λ tbl t,
               match t with
               | Name id _ => setdefault id n tbl
               | _ => tbl
               end) table targets
  | AnnAssign (Name id _) _ _ => setdefault id n table
  | _ => table
  end.

Definition _build_symbol_table (md : ModuleSource) : gmap string node :=
  foldl _build_symbol_table_step ∅ (ms_tree md).

(** ** Reference extraction *)

Fixpoint expr_loads (e : expr) : gset string :=
  match e with
  | Name id Load => {[ id ]}
  | Name _ _ => ∅
  | ExprNode children => ⋃ (map expr_loads children)
  end.

Definition opt_loads (o : option expr) : gset string :=
  from_option expr_loads ∅ o.

Definition arg_loads (a : arg) : gset string := opt_loads (annotation a).

Definition arguments_loads (a : arguments) : gset string :=
  ⋃ (map arg_loads (posonlyargs a)) ∪ ⋃ (map arg_loads (args a))
  ∪ from_option arg_loads ∅ (vararg a)
  ∪ ⋃ (map arg_loads (kwonlyargs a)) ∪ ⋃ (map opt_loads (kw_defaults a))
  ∪ from_option arg_loads ∅ (kwarg a) ∪ ⋃ (map opt_loads (defaults a)).

Definition keyword_loads (k : keyword) : gset string :=
  expr_loads (kw_value k).

Fixpoint stmt_loads (s : stmt) : gset string :=
  match s with
  | FunctionDef _ a body decorator_list returns
  | AsyncFunctionDef _ a body decorator_list returns =>
      arguments_loads a ∪ ⋃ (map stmt_loads body)
      ∪ ⋃ (map expr_loads decorator_list) ∪ opt_loads returns
  | ClassDef _ bases keywords body decorator_list =>
      ⋃ (map expr_loads bases) ∪ ⋃ (map keyword_loads keywords)
      ∪ ⋃ (map stmt_loads body) ∪ ⋃ (map expr_loads decorator_list)
  | Assign targets value => ⋃ (map expr_loads targets) ∪ expr_loads value
  | AnnAssign target ann value =>
      expr_loads target ∪ opt_loads ann ∪ opt_loads value
  | Import _ | ImportFrom _ _ _ => ∅
  | StmtNode exprs stmts =>
      ⋃ (map expr_loads exprs) ∪ ⋃ (map stmt_loads stmts)
  end.

(** [_name_loads_in]: the identifiers of the [Name] nodes in [Load] context
    that [ast.walk] meets below (and at) the node. *)
Definition _name_loads_in (n : ast_node) : gset string :=
  match n with
  | NStmt s => stmt_loads s
  | NExpr e => expr_loads e
  | NKeyword k => keyword_loads k
  end.

(** [x is not None] filter used when collecting optional nodes. *)
Definition some_nodes (l : list (option expr)) : list ast_node :=
  omap (λ o, NExpr <$> o) l.

Definition arg_annotation_nodes (l : list arg) : list ast_node :=
  omap (λ a, NExpr <$> annotation a) l.

Definition opt_arg_annotation_nodes (o : option arg) : list ast_node :=
  match o with
  | Some a => match annotation a with Some e => [NExpr e] | None => [] end
  | None => []
  end.

Definition context_nodes_of (s : stmt) : list ast_node :=
  match s with
  | FunctionDef _ a _ decorator_list returns
  | AsyncFunctionDef _ a _ decorator_list returns =>
      (NExpr <$> decorator_list)
      ++ some_nodes (defaults a)
      ++ some_nodes (kw_defaults a)
      ++ arg_annotation_nodes (posonlyargs a ++ args a ++ kwonlyargs a)
      ++ opt_arg_annotation_nodes (vararg a)
      ++ opt_arg_annotation_nodes (kwarg a)
      ++ match returns with Some r => [NExpr r] | None => [] end
  | ClassDef _ bases keywords _ decorator_list =>
      (NExpr <$> decorator_list) ++ (NExpr <$> bases) ++ (NKeyword <$> keywords)
  | Assign _ value => [NExpr value]
  | AnnAssign _ ann value =>
      match ann with Some e => [NExpr e] | None => [] end
      ++ match value with Some v => [NExpr v] | None => [] end
  | _ => []
  end.

Definition _definition_time_deps (s : stmt) : gset string :=
  foldl (λ deps c, deps ∪ _name_loads_in c) ∅ (context_nodes_of s).

(** ** The stable topological sort *)

(** [f"{s.module}:{s.name}:{s.lineno}"]. *)
Definition sid_of (s : SymbolDef) : string :=
  sd_module s +:+ ":" +:+ sd_name s +:+ ":" +:+ pretty (sd_lineno s).

Record topo_index := {
  by_id : gmap string SymbolDef;
  name_to_first_id : gmap string string;
  order : list string
}.

Definition index_step (ix : topo_index) (s : SymbolDef) : topo_index :=
  let sid := sid_of s in
  {| by_id := <[sid := s]> (by_id ix);
     name_to_first_id := setdefault (sd_name s) sid (name_to_first_id ix);
     order := order ix ++ [sid] |}.

Definition build_index (symbols : list SymbolDef) : topo_index :=
  foldl index_step
    {| by_id := ∅; name_to_first_id := ∅; order := [] |} symbols.

Record graph := {
  deps : gmap string (gset string);
  indeg : gmap string Z
}.

(** [indeg[x]] and [deps[x]]: the source only looks up the nodes of [order],
    which are keys of both dictionaries from their creation on. *)
Definition indeg_at (m : gmap string Z) (x : string) : Z := default 0 (m !! x).
Definition deps_at (m : gmap string (gset string)) (x : string) : gset string :=
  default ∅ (m !! x).

(** The body of the loop over [dep_name]. *)
Definition add_dep (ix : topo_index) (sid : string) (g : graph)
  (dep_name : string) : graph :=
  match name_to_first_id ix !! dep_name with
  | None => g
  | Some dep_id =>
      if decide (dep_id = sid) then g
      else if decide (dep_id ∈ deps_at (deps g) sid) then g
      else {| deps := <[sid := deps_at (deps g) sid ∪ {[dep_id]}]> (deps g);
              indeg := <[sid := indeg_at (indeg g) sid + 1]> (indeg g) |}
  end.

Section with_iteration_order.

(** The order in which the runtime iterates a set of names. *)
Variable iter : gset string → list string.

(** The body of the loop over [sid]; [by_id] holds every [sid] of
    [order], so the lookup never fails. *)
Definition add_deps_of (ix : topo_index) (g : graph) (sid : string) : graph :=
  match by_id ix !! sid with
  | None => g
  | Some s =>
      foldl (add_dep ix sid) g
        (iter (_definition_time_deps (stmt_of (sd_node s))))
  end.

Definition build_graph (ix : topo_index) : graph :=
  foldl (add_deps_of ix)
    {| deps := list_to_map ((λ sid, (sid, ∅)) <$> order ix);
       indeg := list_to_map ((λ sid, (sid, 0)) <$> order ix) |}
    (order ix).

End with_iteration_order.

Record kahn := {
  k_deps : gmap string (gset string);
  k_indeg : gmap string Z;
  k_ready : list string;
  k_ready_set : gset string;
  k_out : list string
}.

(** The body of the loop over [other], for the node [sid] just emitted. *)
Definition release (sid : string) (st : kahn) (other : string) : kahn :=
  if decide (sid ∈ deps_at (k_deps st) other) then
    let deps' := <[other := deps_at (k_deps st) other ∖ {[sid]}]> (k_deps st) in
    let indeg' := <[other := indeg_at (k_indeg st) other - 1]> (k_indeg st) in
    if decide (indeg_at indeg' other = 0 ∧ (other ∉ k_ready_set st)
               ∧ (other ∉ k_out st))
    then {| k_deps := deps'; k_indeg := indeg';
            k_ready := k_ready st ++ [other];
            k_ready_set := k_ready_set st ∪ {[other]};
            k_out := k_out st |}
    else {| k_deps := deps'; k_indeg := indeg';
            k_ready := k_ready st; k_ready_set := k_ready_set st;
            k_out := k_out st |}
  else st.

(** One turn of [while ready:]; [None] when [ready] is empty. *)
Definition kahn_step (order : list string) (st : kahn) : option kahn :=
  match k_ready st with
  | [] => None
  | sid :: ready' =>
      Some (foldl (release sid)
              {| k_deps := k_deps st; k_indeg := k_indeg st;
                 k_ready := ready';
                 k_ready_set := k_ready_set st ∖ {[sid]};
                 k_out := k_out st ++ [sid] |}
              order)
  end.

Fixpoint kahn_loop (fuel : nat) (order : list string) (st : kahn) : kahn :=
  match fuel with
  | O => st
  | S fuel' =>
      match kahn_step order st with
      | None => st
      | Some st' => kahn_loop fuel' order st'
      end
  end.

Definition kahn_init (g : graph) (order : list string) : kahn :=
  let ready := filter (λ sid, indeg_at (indeg g) sid = 0) order in
  {| k_deps := deps g; k_indeg := indeg g; k_ready := ready;
     k_ready_set := list_to_set ready; k_out := [] |}.

(** The state the [while] loop ends in.  Every turn emits one node and no more
    than [length order] nodes are ever emitted ([kahn_run_ready] below), so
    that many turns are enough. *)
Definition kahn_run (iter : gset string → list string)
  (symbols : list SymbolDef) : kahn :=
  let ix := build_index symbols in
  kahn_loop (length (order ix)) (order ix)
    (kahn_init (build_graph iter ix) (order ix)).

(** The test [len(out) == len(order)]. *)
Definition sort_complete (iter : gset string → list string)
  (symbols : list SymbolDef) : bool :=
  bool_decide (length (k_out (kahn_run iter symbols)) = length symbols).

Definition _toposort_symbols (iter : gset string → list string)
  (symbols : list SymbolDef) : list SymbolDef :=
  match symbols with
  | [] => []
  | _ =>
      let ix := build_index symbols in
      let out := k_out (kahn_run iter symbols) in
      if decide (length out ≠ length (order ix)) then symbols
      else omap (λ sid, by_id ix !! sid) out
  end.

(** ** Symbol extraction and the imports of the entry file *)

Definition _extract_symbol_def (md : ModuleSource) (name : string) (n : node)
  : result SymbolDef :=
  match truthy (get_source_segment (ms_source md) n) with
  | None =>
      Raise (BundleError (ExtractFailure (ms_module md) name (ms_path md)))
  | Some seg =>
      Ok {| sd_name := name; sd_node := n; sd_source := seg;
            sd_module := ms_module md; sd_lineno := lineno n |}
  end.

(** [isinstance(node, ast.ImportFrom) and _is_lib_module(node.module)
    and node.level == 0]. *)
Definition is_lib_import_from (s : stmt) : bool :=
  match s with
  | ImportFrom module _ level => _is_lib_module module && bool_decide (level = 0)
  | _ => false
  end.

(** [isinstance(node, ast.ImportFrom) and node.module == "__future__"
    and node.level == 0]. *)
Definition is_future_import_from (s : stmt) : bool :=
  match s with
  | ImportFrom module _ level =>
      bool_decide (module = Some "__future__") && bool_decide (level = 0)
  | _ => false
  end.

Definition imported_of (module : option string) (a : alias) : ImportedSymbol :=
  {| imp_module := default "" module; imp_name := alias_name a;
     imp_asname := alias_asname a |}.

Fixpoint _parse_imported_symbols_go (body : list node)
  (imported : list ImportedSymbol) : result (list ImportedSymbol) :=
  match body with
  | [] => Ok imported
  | n :: body' =>
      if is_lib_import_from (stmt_of n) then
        match stmt_of n with
        | ImportFrom module names _ =>
            if existsb (λ a, bool_decide (alias_name a = "*")) names
            then Raise (BundleError UnsupportedStarImport)
            else _parse_imported_symbols_go body'
                   (imported ++ (imported_of module <$> names))
        | _ => _parse_imported_symbols_go body' imported
        end
      else _parse_imported_symbols_go body' imported
  end.

Definition _parse_imported_symbols (entry_tree : list node)
  : result (list ImportedSymbol) :=
  _parse_imported_symbols_go entry_tree [].

(** ** Text surgery on the entry file *)

(** [getattr(node, "end_lineno", None) or start]. *)
Definition end_or_start (n : node) : Z :=
  match end_lineno n with
  | Some e => if decide (e = 0) then lineno n else e
  | None => lineno n
  end.

Fixpoint _strip_scan (body : list node) (remove : list (Z * Z))
  : result (list (Z * Z)) :=
  match body with
  | [] => Ok remove
  | n :: body' =>
      if is_lib_import_from (stmt_of n) then
        _strip_scan body' (remove ++ [(lineno n, end_or_start n)])
      else if is_future_import_from (stmt_of n) then
        _strip_scan body' (remove ++ [(lineno n, end_or_start n)])
      else
        match stmt_of n with
        | Import names =>
            if existsb (λ a, _is_lib_module (Some (alias_name a))) names
            then Raise (BundleError UnsupportedImportForm)
            else _strip_scan body' remove
        | _ => _strip_scan body' remove
        end
  end.

(** [range(start, end + 1)] added to the set for every recorded span. *)
Definition lines_to_remove (remove : list (Z * Z)) : gset Z :=
  foldl (λ acc r, acc ∪ list_to_set (seqZ r.1 (r.2 + 1 - r.1))) ∅ remove.

(** [enumerate(lines, start=i)] filtered by [i not in to_remove]. *)
Fixpoint keep_lines (to_remove : gset Z) (i : Z) (lines : list string)
  : list string :=
  match lines with
  | [] => []
  | line :: lines' =>
      if decide (i ∈ to_remove) then keep_lines to_remove (i + 1) lines'
      else line :: keep_lines to_remove (i + 1) lines'
  end.

Definition _strip_lib_imports (entry_source : string) (entry_tree : list node)
  : result string :=
  let lines := Str.splitlines true entry_source in
  let! remove := _strip_scan entry_tree [] in
  let kept := keep_lines (lines_to_remove remove) 1 lines in
  Ok (Str.lstrip_nl (Str.join "" kept)).

Definition _comment_block (block : string) : list string :=
  (λ line, if decide (Str.strip line = "") then "#" else "# " +:+ line)
    <$> Str.splitlines false block.

Definition _push_region (lines : list string) (name : string) : list string :=
  lines ++ ["# region " +:+ name].

Definition _pop_region (lines : list string) : list string :=
  lines ++ ["# endregion"].

Fixpoint _dedup_keep_order_go (items : list string) (seen : gset string)
  (out : list string) : list string :=
  match items with
  | [] => out
  | it :: items' =>
      let key := Str.strip it in
      if decide (key = "") then _dedup_keep_order_go items' seen out
      else if decide (key ∈ seen) then _dedup_keep_order_go items' seen out
      else _dedup_keep_order_go items' (seen ∪ {[key]}) (out ++ [Str.rstrip it])
  end.

Definition _dedup_keep_order (items : list string) : list string :=
  _dedup_keep_order_go items ∅ [].

(** ** The symbol closure *)

Record loader := {
  module_cache : gmap string ModuleSource;
  module_imports_future : list string;
  module_imports_other : list string
}.

Definition get_module (W : World) (root : Path) (modname : string)
  (ld : loader) : result (ModuleSource * loader) :=
  match module_cache ld !! modname with
  | Some md => Ok (md, ld)
  | None =>
      let! md := _parse_module_source W modname root in
      let io := _extract_top_level_import_lines md in
      Ok (md, {| module_cache := <[modname := md]> (module_cache ld);
                 module_imports_future := module_imports_future ld ++ io.1;
                 module_imports_other := module_imports_other ld ++ io.2 |})
  end.

Record closure_state := {
  cs_loader : loader;
  symbol_cache : gmap (string * string) SymbolDef;
  included : list SymbolDef;
  included_names : gset string;
  aliases : list string;
  queue : list ImportedSymbol
}.

(** [sorted] on names: ascending in the order of their code points. *)
Definition sorted (l : list string) : list string :=
  merge_sort String.le l.

(** The loop over [dep] that follows an inclusion. *)
Definition enqueue_deps (module : string) (table : gmap string node)
  (names : gset string) (q : list ImportedSymbol) (deps : list string)
  : list ImportedSymbol :=
  foldl (λ q dep,
           if decide (dep ∈ names) then q
           else if decide (is_Some (table !! dep))
           then q ++ [{| imp_module := module; imp_name := dep;
                         imp_asname := None |}]
           else q) q deps.

(** [if item.asname and item.asname != item.name]. *)
Definition alias_line (item : ImportedSymbol) : list string :=
  match imp_asname item with
  | Some asname =>
      if decide (asname ≠ "" ∧ asname ≠ imp_name item)
      then [asname +:+ " = " +:+ imp_name item]
      else []
  | None => []
  end.

Section closure.

Variable iter : gset string → list string.
Variable W : World.
Variable root : Path.

(** The body of [while queue:] for the popped [item]; [st] holds the rest
    of the queue. *)
Definition closure_body (item : ImportedSymbol) (st : closure_state)
  : result closure_state :=
  let! ml := get_module W root (imp_module item) (cs_loader st) in
  let md := ml.1 in
  let table := _build_symbol_table md in
  match table !! imp_name item with
  | None =>
      Raise (BundleError
               (SymbolNotFound (imp_module item) (imp_name item) (ms_path md)))
  | Some n =>
      let key := (imp_module item, imp_name item) in
      let! sc :=
        match symbol_cache st !! key with
        | Some sym => Ok (sym, symbol_cache st)
        | None =>
            let! sym := _extract_symbol_def md (imp_name item) n in
            Ok (sym, <[key := sym]> (symbol_cache st))
        end in
      let sym := sc.1 in
      let cache := sc.2 in
      if decide (sd_name sym ∈ included_names st) then
        Ok {| cs_loader := ml.2; symbol_cache := cache;
              included := included st;
              included_names := included_names st;
              aliases := aliases st ++ alias_line item;
              queue := queue st |}
      else
        let names := included_names st ∪ {[sd_name sym]} in
        Ok {| cs_loader := ml.2; symbol_cache := cache;
              included := included st ++ [sym];
              included_names := names;
              aliases := aliases st ++ alias_line item;
              queue :=
                enqueue_deps (imp_module item) table names (queue st)
                  (sorted (iter (_name_loads_in (NStmt (stmt_of (sd_node sym)))))) |}
  end.

Definition pop_queue (st : closure_state) (q : list ImportedSymbol)
  : closure_state :=
  {| cs_loader := cs_loader st; symbol_cache := symbol_cache st;
     included := included st; included_names := included_names st;
     aliases := aliases st; queue := q |}.

(** [while queue:] run for at most [fuel] turns; [None] when the queue is
    not empty after that many turns. *)
Fixpoint closure_loop (fuel : nat) (st : closure_state)
  : option (result closure_state) :=
  match queue st with
  | [] => Some (Ok st)
  | item :: q =>
      match fuel with
      | O => None
      | S fuel' =>
          match closure_body item (pop_queue st q) with
          | Raise e => Some (Raise e)
          | Ok st' => closure_loop fuel' st'
          end
      end
  end.

Definition closure_init (imported : list ImportedSymbol) : closure_state :=
  {| cs_loader := {| module_cache := ∅; module_imports_future := [];
                     module_imports_other := [] |};
     symbol_cache := ∅; included := []; included_names := ∅;
     aliases := []; queue := imported |}.

(** The symbol table [get_module] and [_build_symbol_table] give for a
    module name (empty when the module cannot be loaded). *)
Definition module_table (modname : string) : gmap string node :=
  match _parse_module_source W modname root with
  | Ok md => _build_symbol_table md
  | Raise _ => ∅
  end.

(** A number of turns that is always enough ([closure_returns]). *)
Definition closure_fuel (imported : list ImportedSymbol) : nat :=
  let total :=
    sum_list_with (λ i, size (module_table (imp_module i))) imported in
  (length imported + total * total)%nat.

Definition closure (imported : list ImportedSymbol)
  : option (result closure_state) :=
  closure_loop (closure_fuel imported) (closure_init imported).

End closure.

(** ** The emitter and [bundle_file] *)

(** The loop over [sym] that opens one region per run of symbols of the same
    module; the state is [out] and [current_module]. *)
Definition emit_symbol (st : list string * option string) (sym : SymbolDef)
  : list string * option string :=
  let out := st.1 in
  let out :=
    if decide (Some (sd_module sym) ≠ st.2) then
      let out :=
        match st.2 with
        | Some _ => _pop_region out ++ [""]
        | None => out
        end in
      _push_region out (sd_module sym)
    else out in
  (out ++ [Str.rstrip (sd_source sym)] ++ [""], Some (sd_module sym)).

Definition emit_symbols (out : list string) (symbols : list SymbolDef)
  : list string :=
  let st := foldl emit_symbol (out, None) symbols in
  match st.2 with
  | Some _ => _pop_region st.1 ++ [""]
  | None => st.1
  end.

(** The first line of the entry file when it starts with the two
    characters of an interpreter directive, else the empty string. *)
Definition shebang_of (entry_source : string) : string :=
  match Str.splitlines true entry_source with
  | line :: _ => if Str.startswith line "#!" then Str.rstrip_nl line else ""
  | [] => ""
  end.

Definition segments_of (P : stmt → bool) (source : string) (tree : list node)
  : list string :=
  omap (λ n, if P (stmt_of n) then truthy (get_source_segment source n)
             else None) tree.

(** Everything [bundle_file] does after the closure loop and the sort;
    [included] is the sorted list. *)
Definition emit_with (included : list SymbolDef)
  (entry_source : string) (entry_tree : list node) (st : closure_state)
  : result string :=
  let entry_lib_imports := segments_of is_lib_import_from entry_source entry_tree in
  let entry_future_imports :=
    segments_of is_future_import_from entry_source entry_tree in
  let future_imports :=
    _dedup_keep_order
      (entry_future_imports ++ module_imports_future (cs_loader st)) in
  let other_imports := _dedup_keep_order (module_imports_other (cs_loader st)) in
  let shebang := shebang_of entry_source in
  let out := if decide (shebang = "") then [] else [shebang] in
  let out := out ++ mjoin (_comment_block <$> entry_lib_imports) in
  let out := out ++ [""] in
  let out :=
    if decide (future_imports = [] ∧ other_imports = []) then out
    else _pop_region (_push_region out "Imports" ++ future_imports
                        ++ other_imports) ++ [""] in
  let out := emit_symbols out included in
  let out :=
    if decide (aliases st = []) then out
    else _pop_region (_push_region out "Aliases" ++ aliases st) ++ [""] in
  let bundled_lib := Str.rstrip (Str.join Str.nl out) +:+ Str.nl in
  let! stripped_entry := _strip_lib_imports entry_source entry_tree in
  let stripped_entry :=
    if decide (shebang = "") then stripped_entry
    else
      match Str.splitlines true stripped_entry with
      | line :: rest =>
          if Str.startswith line "#!" then Str.lstrip_nl (Str.join "" rest)
          else stripped_entry
      | [] => stripped_entry
      end in
  let entry_body_lines := Str.splitlines false (Str.rstrip_nl stripped_entry) in
  Ok (bundled_lib
        +:+ Str.join Str.nl
              ([""; "# region main logic"] ++ entry_body_lines
                 ++ [""; "# endregion"; ""])).

(** Everything [bundle_file] does after the closure loop. *)
Definition emit (iter : gset string → list string)
  (entry_source : string) (entry_tree : list node) (st : closure_state)
  : result string :=
  emit_with (_toposort_symbols iter (included st)) entry_source entry_tree st.

(** [bundle_file]; [None] only if the closure loop were not to finish
    ([bundle_file_returns] shows that this never happens). *)
Definition bundle_file (iter : gset string → list string) (W : World)
  (entry_path root : Path) : option (result string) :=
  match read_text W entry_path with
  | None => Some (Raise (OSError entry_path))
  | Some entry_source =>
      match ast_parse W entry_source with
      | None => Some (Raise (BundleError (EntryParseFailure entry_path)))
      | Some entry_tree =>
          match _parse_imported_symbols entry_tree with
          | Raise e => Some (Raise e)
          | Ok [] => Some (Ok entry_source)
          | Ok imported =>
              match closure iter W root imported with
              | None => None
              | Some (Raise e) => Some (Raise e)
              | Some (Ok st) => Some (emit iter entry_source entry_tree st)
              end
          end
      end
  end.

(** * Vocabulary of the statements *)

(** ** Module names and paths *)

(** A component of a dotted module name: not empty and free of dots. *)
Fixpoint has_dot (s : string) : bool :=
  match s with
  | "" => false
  | String c s' => bool_decide (c = "."%char) || has_dot s'
  end.

Definition name_part (s : string) : Prop := s ≠ "" ∧ has_dot s = false.

(** The two candidate paths of the dotted name [ps.p] under [root]. *)
Definition direct_file (root : Path) (ps : list string) (p : string) : Path :=
  root ++ ps ++ [p +:+ ".py"].

Definition package_index (root : Path) (ps : list string) (p : string) : Path :=
  root ++ ps ++ [p; "__init__.py"].

(** Whether a name holds a colon; module names and symbol names, made of
    identifiers and dots, hold none. *)
Fixpoint has_colon (s : string) : bool :=
  match s with
  | "" => false
  | String c s' => bool_decide (c = ":"%char) || has_colon s'
  end.

(** ** The symbol table *)

(** Following the words of the specification: the names a top-level statement
    defines (a function, async function or class by its declared name, a plain
    assignment with a single simple target, an annotated assignment with a
    simple target), and the first top-level definition of a name. *)
Definition defined_name (n : node) : option string :=
  match stmt_of n with
  | FunctionDef name _ _ _ _
  | AsyncFunctionDef name _ _ _ _
  | ClassDef name _ _ _ _ => Some name
  | Assign [Name id _] _ => Some id
  | AnnAssign (Name id _) _ _ => Some id
  | _ => None
  end.

Definition first_definition (body : list node) (name : string) : option node :=
  head (filter (λ n, defined_name n = Some name) body).

(** What the code does: a definition statement of [name] ... *)
Definition is_def_of (name : string) (n : node) : Prop :=
  match stmt_of n with
  | FunctionDef nm _ _ _ _
  | AsyncFunctionDef nm _ _ _ _
  | ClassDef nm _ _ _ _ => nm = name
  | _ => False
  end.

(** ... and an assignment that has [name] among its simple targets. *)
Definition is_name (name : string) (t : expr) : Prop :=
  match t with
  | Name id _ => id = name
  | _ => False
  end.

Definition assigns (name : string) (n : node) : Prop :=
  match stmt_of n with
  | Assign targets _ => Exists (is_name name) targets
  | AnnAssign t _ _ => is_name name t
  | _ => False
  end.

Global Instance is_def_of_dec name n : Decision (is_def_of name n).
Proof. unfold is_def_of. destruct (stmt_of n); apply _. Defined.

Global Instance is_name_dec name t : Decision (is_name name t).
Proof. unfold is_name. destruct t; apply _. Defined.

Global Instance assigns_dec name n : Decision (assigns name n).
Proof. unfold assigns. destruct (stmt_of n); apply _. Defined.

(** ** Imports of the entry file *)

(** A top-level [import] statement that names a module of the library. *)
Definition is_whole_lib_import (n : node) : Prop :=
  match stmt_of n with
  | Import names => existsb (λ a, _is_lib_module (Some (alias_name a))) names = true
  | _ => False
  end.

(** ** The text of a file *)

(** The text holds a carriage return. *)
Fixpoint has_cr (s : string) : bool :=
  match s with
  | "" => false
  | String c s' => bool_decide (c = "013"%char) || has_cr s'
  end.

(** ** Loaded names *)

(** Following the words of the specification: a name is loaded in an
    expression when the expression holds, at any depth, a [Name] node of that
    identifier in [Load] context. *)
Inductive loaded_in (x : string) : expr → Prop :=
| loaded_name : loaded_in x (Name x Load)
| loaded_child children c :
    c ∈ children → loaded_in x c → loaded_in x (ExprNode children).

(** ** Definition-time positions *)

(** Following the words of the specification: the expressions of a statement
    that are evaluated when the statement defines its symbol. *)
Inductive function_position (a : arguments) (decorator_list : list expr)
  (returns : option expr) : expr → Prop :=
| pos_decorator e : e ∈ decorator_list → function_position a decorator_list returns e
| pos_default e : Some e ∈ defaults a → function_position a decorator_list returns e
| pos_kw_default e :
    Some e ∈ kw_defaults a → function_position a decorator_list returns e
| pos_annotation x e :
    x ∈ posonlyargs a ++ args a ++ kwonlyargs a → annotation x = Some e →
    function_position a decorator_list returns e
| pos_vararg x e :
    vararg a = Some x → annotation x = Some e →
    function_position a decorator_list returns e
| pos_kwarg x e :
    kwarg a = Some x → annotation x = Some e →
    function_position a decorator_list returns e
| pos_returns e : returns = Some e → function_position a decorator_list returns e.

Inductive definition_time_position : stmt → expr → Prop :=
| dt_function name a body ds r e :
    function_position a ds r e →
    definition_time_position (FunctionDef name a body ds r) e
| dt_async_function name a body ds r e :
    function_position a ds r e →
    definition_time_position (AsyncFunctionDef name a body ds r) e
| dt_class_decorator name bases kws body ds e :
    e ∈ ds → definition_time_position (ClassDef name bases kws body ds) e
| dt_class_base name bases kws body ds e :
    e ∈ bases → definition_time_position (ClassDef name bases kws body ds) e
| dt_class_keyword name bases kws body ds k :
    k ∈ kws →
    definition_time_position (ClassDef name bases kws body ds) (kw_value k)
| dt_assign_value targets v : definition_time_position (Assign targets v) v
| dt_ann_annotation t e v : definition_time_position (AnnAssign t (Some e) v) e
| dt_ann_value t a v : definition_time_position (AnnAssign t a (Some v)) v.

(** ** The topological sort *)

(** The iteration order of the runtime enumerates a set: every element once. *)
Definition iter_ok (iter : gset string → list string) : Prop :=
  ∀ X, iter X ≡ₚ elements X.

(** The first symbol of the list that bears a name. *)
Definition first_registered (symbols : list SymbolDef) (n : string)
  : option SymbolDef :=
  head (filter (λ s, sd_name s = n) symbols).

(** The node a dependency name stands for, as a set: empty when the name is
    not registered or resolves to the node itself. *)
Definition edge_target (ix : topo_index) (sid dep_name : string) : gset string :=
  match name_to_first_id ix !! dep_name with
  | Some dep_id => if decide (dep_id = sid) then ∅ else {[dep_id]}
  | None => ∅
  end.

(** In-degrees count the recorded dependencies. *)
Definition graph_ok (g : graph) : Prop :=
  ∀ x, indeg_at (indeg g) x = Z.of_nat (size (deps_at (deps g) x)).

(** The dependencies the construction records for a node. *)
Definition edges (iter : gset string → list string) (ix : topo_index)
  (sid : string) : gset string :=
  match by_id ix !! sid with
  | Some s =>
      ⋃ (edge_target ix sid <$> iter (_definition_time_deps (stmt_of (sd_node s))))
  | None => ∅
  end.

(** Adding the node a name stands for to the dependencies of [sid]. *)
Definition add_target (sid : string) (g : graph) (d : string) : graph :=
  if decide (d ∈ deps_at (deps g) sid) then g
  else {| deps := <[sid := deps_at (deps g) sid ∪ {[d]}]> (deps g);
          indeg := <[sid := indeg_at (indeg g) sid + 1]> (indeg g) |}.

(** What holds of the state before and after every turn of [while ready:],
    for the dependency sets [D0] the loop started with and the initial
    [ready] list [ready0]. *)
Record kahn_inv (order : list string) (D0 : string → gset string)
  (ready0 : list string) (st : kahn) : Prop := {
  ki_cover : ∀ x, D0 x ⊆ deps_at (k_deps st) x ∪ list_to_set (k_out st);
  ki_within : ∀ x, deps_at (k_deps st) x ⊆ D0 x;
  ki_count : ∀ x,
    indeg_at (k_indeg st) x = Z.of_nat (size (deps_at (k_deps st) x));
  ki_ready : ∀ x, x ∈ k_ready st → D0 x ⊆ list_to_set (k_out st);
  ki_out : ∀ i x,
    k_out st !! i = Some x → D0 x ⊆ list_to_set (take i (k_out st));
  ki_trace : ∃ A,
    k_out st ++ k_ready st = ready0 ++ A ∧ NoDup A
    ∧ ∀ a, a ∈ A →
           a ∈ order ∧ D0 a ≠ ∅ ∧ (a ∈ k_ready_set st ∨ a ∈ k_out st)
}.

(** ** The symbol closure *)

Definition included_state (item : ImportedSymbol) (ld : loader)
  (cache : gmap (string * string) SymbolDef) (st : closure_state)
  (sym : SymbolDef) (q : list ImportedSymbol) : closure_state :=
  {| cs_loader := ld; symbol_cache := cache;
     included := included st ++ [sym];
     included_names := included_names st ∪ {[sd_name sym]};
     aliases := aliases st ++ alias_line item;
     queue := q |}.

Definition skipped_state (item : ImportedSymbol) (ld : loader)
  (cache : gmap (string * string) SymbolDef) (st : closure_state)
  : closure_state :=
  {| cs_loader := ld; symbol_cache := cache;
     included := included st; included_names := included_names st;
     aliases := aliases st ++ alias_line item; queue := queue st |}.

(** The module cache only holds what loading the module gives. *)
Definition cache_ok (W : World) (root : Path) (ld : loader) : Prop :=
  ∀ m md, module_cache ld !! m = Some md → _parse_module_source W m root = Ok md.

(** What the loop over [dep] appends to the queue. *)
Definition wanted (table : gmap string node) (names : gset string)
  (dep : string) : Prop :=
  (dep ∉ names) ∧ is_Some (table !! dep).

Global Instance wanted_dec table names dep : Decision (wanted table names dep).
Proof. unfold wanted. apply _. Defined.

(** The (module, name) pairs the closure can come to ask for: the imports of
    the entry file, and every name loaded in the definition of a reachable
    symbol that the same module defines too. *)
Inductive reachable (W : World) (root : Path) (imported : list ImportedSymbol)
  : string * string → Prop :=
| reach_import item :
    item ∈ imported → reachable W root imported (imp_module item, imp_name item)
| reach_dep m n nd dep :
    reachable W root imported (m, n) →
    module_table W root m !! n = Some nd →
    dep ∈ stmt_loads (stmt_of nd) →
    is_Some (module_table W root m !! dep) →
    reachable W root imported (m, dep).

Record closure_inv (W : World) (root : Path) (imported : list ImportedSymbol)
  (st : closure_state) : Prop := {
  ci_queue : ∀ item,
    item ∈ queue st → reachable W root imported (imp_module item, imp_name item);
  ci_names : included_names st = list_to_set (sd_name <$> included st);
  ci_nodup : NoDup (sd_name <$> included st);
  ci_included : ∀ s,
    s ∈ included st →
    reachable W root imported (sd_module s, sd_name s)
    ∧ module_table W root (sd_module s) !! sd_name s = Some (sd_node s);
  ci_cache : cache_ok W root (cs_loader st);
  ci_symbols : ∀ m n sym,
    symbol_cache st !! (m, n) = Some sym →
    sd_name sym = n ∧ sd_module sym = m
    ∧ module_table W root m !! n = Some (sd_node sym);
  ci_pending : ∀ s dep,
    s ∈ included st → dep ∈ stmt_loads (stmt_of (sd_node s)) →
    is_Some (module_table W root (sd_module s) !! dep) →
    dep ∈ included_names st
    ∨ ∃ item, item ∈ queue st ∧ imp_module item = sd_module s
              ∧ imp_name item = dep
}.

(** The sum the fuel of the closure is computed from. *)
Definition table_total (W : World) (root : Path)
  (imported : list ImportedSymbol) : nat :=
  sum_list_with (λ i, size (module_table W root (imp_module i))) imported.

Definition potential (W : World) (root : Path)
  (imported : list ImportedSymbol) (st : closure_state) : nat :=
  (length (queue st)
   + (table_total W root imported - length (included st))
     * table_total W root imported)%nat.

(** Every name some imported module defines. *)
Definition all_names (W : World) (root : Path)
  (imported : list ImportedSymbol) : gset string :=
  ⋃ ((λ i, dom (module_table W root (imp_module i))) <$> imported).

(** ** The order of names *)

(** The order of Python on strings: by code points, a proper prefix first. *)
Fixpoint lex_lt (s t : string) : bool :=
  match s, t with
  | _, "" => false
  | "", String _ _ => true
  | String a s', String b t' =>
      if decide (a = b) then lex_lt s' t'
      else bool_decide (N_of_ascii a < N_of_ascii b)%N
  end.

(** The item the closure enqueues for a dependency. *)
Definition dep_item (module dep : string) : ImportedSymbol :=
  {| imp_module := module; imp_name := dep; imp_asname := None |}.

(** ** Iteration orders chosen call by call *)

(** The runtime fixes the order of a set when it builds the set, so two sets
    of the same elements may be iterated in different orders in one run.  A
    schedule gives the order of each iteration the program makes, by its rank
    among the iterations of its loop. *)
Definition schedule := nat → gset string → list string.

Definition schedule_ok (s : schedule) : Prop := ∀ k, iter_ok (s k).

(** [while queue:], the turn of rank [k] iterating its set in the order
    [s k]. *)
Fixpoint closure_loop_at (s : schedule) (W : World) (root : Path)
  (k fuel : nat) (st : closure_state) : option (result closure_state) :=
  match queue st with
  | [] => Some (Ok st)
  | item :: q =>
      match fuel with
      | O => None
      | S fuel' =>
          match closure_body (s k) W root item (pop_queue st q) with
          | Raise e => Some (Raise e)
          | Ok st' => closure_loop_at s W root (S k) fuel' st'
          end
      end
  end.

Definition closure_at (s : schedule) (W : World) (root : Path)
  (imported : list ImportedSymbol) : option (result closure_state) :=
  closure_loop_at s W root 0 (closure_fuel W root imported)
    (closure_init imported).

(** The loop over [sid] of the sort, the node of rank [k] iterating its
    dependencies in the order [s k]. *)
Fixpoint build_graph_from (s : schedule) (ix : topo_index) (k : nat)
  (g : graph) (l : list string) : graph :=
  match l with
  | [] => g
  | sid :: l' => build_graph_from s ix (S k) (add_deps_of (s k) ix g sid) l'
  end.

Definition build_graph_at (s : schedule) (ix : topo_index) : graph :=
  build_graph_from s ix 0
    {| deps := list_to_map ((λ sid, (sid, ∅)) <$> order ix);
       indeg := list_to_map ((λ sid, (sid, 0)) <$> order ix) |}
    (order ix).

Definition _toposort_symbols_at (s : schedule) (symbols : list SymbolDef)
  : list SymbolDef :=
  match symbols with
  | [] => []
  | _ =>
      let ix := build_index symbols in
      let out :=
        k_out (kahn_loop (length (order ix)) (order ix)
                 (kahn_init (build_graph_at s ix) (order ix))) in
      if decide (length out ≠ length (order ix)) then symbols
      else omap (λ sid, by_id ix !! sid) out
  end.

(** [bundle_file] in a run that follows the schedule [s1] in the closure loop
    and [s2] in the sort. *)
Definition bundle_file_at (s1 s2 : schedule) (W : World)
  (entry_path root : Path) : option (result string) :=
  match read_text W entry_path with
  | None => Some (Raise (OSError entry_path))
  | Some entry_source =>
      match ast_parse W entry_source with
      | None => Some (Raise (BundleError (EntryParseFailure entry_path)))
      | Some entry_tree =>
          match _parse_imported_symbols entry_tree with
          | Raise e => Some (Raise e)
          | Ok [] => Some (Ok entry_source)
          | Ok imported =>
              match closure_at s1 W root imported with
              | None => None
              | Some (Raise e) => Some (Raise e)
              | Some (Ok st) =>
                  Some (emit_with (_toposort_symbols_at s2 (included st))
                          entry_source entry_tree st)
              end
          end
      end
  end.

(** A schedule that changes the order from one iteration to the next. *)
Definition alternating : schedule :=
  λ k X, if Nat.even k then elements X else reverse (elements X).

(** * Example inputs *)

(** A parameter list without parameters, and nodes of the shapes the
    examples are made of. *)
Definition no_arguments : arguments :=
  {| posonlyargs := []; args := []; vararg := None; kwonlyargs := [];
     kw_defaults := []; kwarg := None; defaults := [] |}.

Definition def_at (name : string) (line : Z) (text : string) : node :=
  {| stmt_of := FunctionDef name no_arguments [StmtNode [] []] [] None;
     lineno := line; end_lineno := Some line; segment := Some text |}.

Definition import_from_at (module name : string) (line : Z) (text : string)
  : node :=
  {| stmt_of :=
       ImportFrom (Some module) [{| alias_name := name; alias_asname := None |}] 0;
     lineno := line; end_lineno := Some line; segment := Some text |}.

Definition call_at (f g : string) (line : Z) (text : string) : node :=
  {| stmt_of := StmtNode [ExprNode [Name f Load; ExprNode [Name g Load]]] [];
     lineno := line; end_lineno := Some line; segment := Some text |}.

Definition def_f_at (line : Z) : node :=
  {| stmt_of :=
       FunctionDef "f" no_arguments
         [StmtNode [ExprNode [Name "g" Load]] []] [] None;
     lineno := line; end_lineno := Some (line + 1);
     segment := Some "def f():
    return g()" |}.

(** A file system that holds [root/a/b/__init__.py] and nothing else. *)
Definition world_package_only : World :=
  {| path_exists p := bool_decide (p = ["root"; "a"; "b"; "__init__.py"]);
     read_text _ := None;
     ast_parse _ := None |}.

(** A module whose text defines the function [f] twice. *)
Definition module_f_twice : ModuleSource :=
  {| ms_module := "lib.m"; ms_path := ["lib"; "m.py"];
     ms_source := "def f(): return 1
def f(): return 2
";
     ms_tree := [def_at "f" 1 "def f(): return 1";
                 def_at "f" 2 "def f(): return 2"] |}.

(** An entry file without any import of the library. *)
Definition plain_text : string := "import os
print(os.getcwd())
".

Definition plain_tree : list node :=
  [ {| stmt_of := Import [{| alias_name := "os"; alias_asname := None |}];
       lineno := 1; end_lineno := Some 1; segment := Some "import os" |};
    {| stmt_of := StmtNode [ExprNode [Name "print" Load;
                                      ExprNode [Name "os" Load]]] [];
       lineno := 2; end_lineno := Some 2;
       segment := Some "print(os.getcwd())" |} ].

Definition world_plain : World :=
  {| path_exists p := bool_decide (p = ["main.py"]);
     read_text p := if decide (p = ["main.py"]) then Some plain_text else None;
     ast_parse s := if decide (s = plain_text) then Some plain_tree else None |}.

(** The same file stored with [LF] line ends, and with [CR LF] line ends. *)
Definition files_plain : Files :=
  {| file_exists p := bool_decide (p = ["main.py"]);
     file_text p := if decide (p = ["main.py"]) then Some plain_text else None;
     file_parse s := if decide (s = plain_text) then Some plain_tree else None |}.

Definition crlf_text : string :=
  "import os" +:+ String "013" (String "010" "")
  +:+ "print(os.getcwd())" +:+ String "013" (String "010" "").

Definition files_crlf : Files :=
  {| file_exists p := bool_decide (p = ["main.py"]);
     file_text p := if decide (p = ["main.py"]) then Some crlf_text else None;
     file_parse s := if decide (s = plain_text) then Some plain_tree else None |}.

(** A function definition with a name in each kind of position:
    [@deco def f(x: T = D()) -> R: return helper(x)]. *)
Definition positions_def : stmt :=
  FunctionDef "f"
    {| posonlyargs := [];
       args := [{| arg_name := "x"; annotation := Some (Name "T" Load) |}];
       vararg := None; kwonlyargs := []; kw_defaults := []; kwarg := None;
       defaults := [Some (ExprNode [Name "D" Load])] |}
    [StmtNode [ExprNode [Name "helper" Load; Name "x" Load]] []]
    [Name "deco" Load]
    (Some (Name "R" Load)).

(** An entry file whose only import is a whole-module import of the library. *)
Definition whole_import_text : string := "import lib.math.comb
print(lib.math.comb.Comb)
".

Definition whole_import_tree : list node :=
  [ {| stmt_of := Import [{| alias_name := "lib.math.comb"; alias_asname := None |}];
       lineno := 1; end_lineno := Some 1;
       segment := Some "import lib.math.comb" |};
    {| stmt_of := StmtNode [ExprNode [Name "print" Load;
                                      ExprNode [Name "lib" Load]]] [];
       lineno := 2; end_lineno := Some 2;
       segment := Some "print(lib.math.comb.Comb)" |} ].

Definition world_whole_import : World :=
  {| path_exists p := bool_decide (p = ["main.py"]);
     read_text p :=
       if decide (p = ["main.py"]) then Some whole_import_text else None;
     ast_parse s :=
       if decide (s = whole_import_text) then Some whole_import_tree else None |}.

(** The example of the specification: [foo] is decorated with an expression
    that loads the constant [BASE] of the same module, and was included
    first. *)
Definition sym_foo : SymbolDef :=
  {| sd_name := "foo";
     sd_node :=
       {| stmt_of :=
            FunctionDef "foo" no_arguments [StmtNode [] []]
              [ExprNode [Name "register" Load; Name "BASE" Load]] None;
          lineno := 3; end_lineno := Some 5;
          segment := Some "@register(BASE)
def foo():
    return 1" |};
     sd_source := "@register(BASE)
def foo():
    return 1";
     sd_module := "lib.helpers"; sd_lineno := 3 |}.

Definition sym_base : SymbolDef :=
  {| sd_name := "BASE";
     sd_node :=
       {| stmt_of := Assign [Name "BASE" Store] (ExprNode []);
          lineno := 1; end_lineno := Some 1; segment := Some "BASE = 10" |};
     sd_source := "BASE = 10";
     sd_module := "lib.helpers"; sd_lineno := 1 |}.

(** The example of the specification as a file system: [lib/helpers.py]
    defines [BASE], [register] and [foo], which is decorated with
    [register(BASE)]; the entry file imports [foo]. *)
Definition helpers_text : string := "BASE = 10

def register(x):
    return lambda f: f

@register(BASE)
def foo():
    return BASE
".

Definition helpers_tree : list node :=
  [ {| stmt_of := Assign [Name "BASE" Store] (ExprNode []);
       lineno := 1; end_lineno := Some 1; segment := Some "BASE = 10" |};
    {| stmt_of :=
         FunctionDef "register"
           {| posonlyargs := []; args := [{| arg_name := "x"; annotation := None |}];
              vararg := None; kwonlyargs := []; kw_defaults := [];
              kwarg := None; defaults := [] |}
           [StmtNode [ExprNode [ExprNode []; Name "f" Load]] []] [] None;
       lineno := 3; end_lineno := Some 4;
       segment := Some "def register(x):
    return lambda f: f" |};
    {| stmt_of :=
         FunctionDef "foo" no_arguments [StmtNode [Name "BASE" Load] []]
           [ExprNode [Name "register" Load; Name "BASE" Load]] None;
       lineno := 7; end_lineno := Some 8;
       segment := Some "def foo():
    return BASE" |} ].

Definition helpers_entry_text : string := "from lib.helpers import foo
print(foo())
".

Definition helpers_entry_tree : list node :=
  [ {| stmt_of :=
         ImportFrom (Some "lib.helpers")
           [{| alias_name := "foo"; alias_asname := None |}] 0;
       lineno := 1; end_lineno := Some 1;
       segment := Some "from lib.helpers import foo" |};
    {| stmt_of := StmtNode [ExprNode [Name "print" Load;
                                      ExprNode [Name "foo" Load]]] [];
       lineno := 2; end_lineno := Some 2; segment := Some "print(foo())" |} ].

(** The text [bundle_file] gives for that entry file, and its tree. *)
Definition helpers_bundled : string := "# from lib.helpers import foo

# region lib.helpers
BASE = 10

def register(x):
    return lambda f: f

def foo():
    return BASE

# endregion

# region main logic
print(foo())

# endregion
".

Definition helpers_bundled_tree : list node :=
  [ {| stmt_of := Assign [Name "BASE" Store] (ExprNode []);
       lineno := 4; end_lineno := Some 4; segment := Some "BASE = 10" |};
    {| stmt_of :=
         FunctionDef "register"
           {| posonlyargs := []; args := [{| arg_name := "x"; annotation := None |}];
              vararg := None; kwonlyargs := []; kw_defaults := [];
              kwarg := None; defaults := [] |}
           [StmtNode [ExprNode [ExprNode []; Name "f" Load]] []] [] None;
       lineno := 6; end_lineno := Some 7;
       segment := Some "def register(x):
    return lambda f: f" |};
    {| stmt_of :=
         FunctionDef "foo" no_arguments [StmtNode [Name "BASE" Load] []] [] None;
       lineno := 9; end_lineno := Some 10;
       segment := Some "def foo():
    return BASE" |};
    {| stmt_of := StmtNode [ExprNode [Name "print" Load;
                                      ExprNode [Name "foo" Load]]] [];
       lineno := 15; end_lineno := Some 15; segment := Some "print(foo())" |} ].

Definition world_helpers : World :=
  {| path_exists p :=
       bool_decide (p ∈ [["main.py"]; ["bundled.py"]; ["lib"; "helpers.py"]]);
     read_text p :=
       if decide (p = ["main.py"]) then Some helpers_entry_text
       else if decide (p = ["bundled.py"]) then Some helpers_bundled
       else if decide (p = ["lib"; "helpers.py"]) then Some helpers_text
       else None;
     ast_parse s :=
       if decide (s = helpers_entry_text) then Some helpers_entry_tree
       else if decide (s = helpers_bundled) then Some helpers_bundled_tree
       else if decide (s = helpers_text) then Some helpers_tree
       else None |}.

Definition helpers_imports : list ImportedSymbol :=
  [{| imp_module := "lib.helpers"; imp_name := "foo"; imp_asname := None |}].

(** The state the closure ends in on that example. *)
Definition helpers_closure : closure_state :=
  match closure elements world_helpers [] helpers_imports with
  | Some (Ok st) => st
  | _ => closure_init []
  end.

(** Two modules that each define [foo]; the entry file imports both. *)
Definition foo_a_text : string := "def foo():
    return 1
".

Definition foo_b_text : string := "def foo():
    return 2
".

Definition foo_a_tree : list node := [def_at "foo" 1 "def foo():
    return 1"].

Definition foo_b_tree : list node := [def_at "foo" 1 "def foo():
    return 2"].

Definition same_name_entry_text : string := "from lib.a import foo
from lib.b import foo as foo_b
print(foo(), foo_b())
".

Definition same_name_entry_tree : list node :=
  [ {| stmt_of :=
         ImportFrom (Some "lib.a") [{| alias_name := "foo"; alias_asname := None |}] 0;
       lineno := 1; end_lineno := Some 1;
       segment := Some "from lib.a import foo" |};
    {| stmt_of :=
         ImportFrom (Some "lib.b")
           [{| alias_name := "foo"; alias_asname := Some "foo_b" |}] 0;
       lineno := 2; end_lineno := Some 2;
       segment := Some "from lib.b import foo as foo_b" |};
    {| stmt_of := StmtNode [ExprNode [Name "print" Load;
                                      ExprNode [Name "foo" Load];
                                      ExprNode [Name "foo_b" Load]]] [];
       lineno := 3; end_lineno := Some 3;
       segment := Some "print(foo(), foo_b())" |} ].

Definition world_same_name : World :=
  {| path_exists p :=
       bool_decide (p ∈ [["main.py"]; ["lib"; "a.py"]; ["lib"; "b.py"]]);
     read_text p :=
       if decide (p = ["main.py"]) then Some same_name_entry_text
       else if decide (p = ["lib"; "a.py"]) then Some foo_a_text
       else if decide (p = ["lib"; "b.py"]) then Some foo_b_text
       else None;
     ast_parse s :=
       if decide (s = same_name_entry_text) then Some same_name_entry_tree
       else if decide (s = foo_a_text) then Some foo_a_tree
       else if decide (s = foo_b_text) then Some foo_b_tree
       else None |}.

Definition same_name_imports : list ImportedSymbol :=
  [{| imp_module := "lib.a"; imp_name := "foo"; imp_asname := None |};
   {| imp_module := "lib.b"; imp_name := "foo"; imp_asname := Some "foo_b" |}].

(** The state the closure ends in on that example. *)
Definition same_name_closure : closure_state :=
  match closure elements world_same_name [] same_name_imports with
  | Some (Ok st) => st
  | _ => closure_init []
  end.

(** A library module that itself imports from the library: [lib/a.py] starts
    with [from lib.b import g]. *)
Definition chain_entry_text : string := "from lib.a import f
print(f())
".

Definition chain_a_text : string := "from lib.b import g
def f():
    return g()
".

Definition chain_b_text : string := "def g():
    return 1
".

(** The output of the first run, and of the second. *)
Definition bundled_once : string := "# from lib.a import f

# region Imports
from lib.b import g
# endregion

# region lib.a
def f():
    return g()

# endregion

# region main logic
print(f())

# endregion
".

Definition bundled_twice : string := "# from lib.b import g

# region lib.b
def g():
    return 1

# endregion

# region main logic
# from lib.a import f

# region Imports
# endregion

# region lib.a
def f():
    return g()

# endregion

# region main logic
print(f())

# endregion

# endregion
".

Definition chain_entry_tree : list node :=
  [import_from_at "lib.a" "f" 1 "from lib.a import f";
   call_at "print" "f" 2 "print(f())"].

Definition chain_a_tree : list node :=
  [import_from_at "lib.b" "g" 1 "from lib.b import g"; def_f_at 2].

Definition chain_b_tree : list node :=
  [def_at "g" 1 "def g():
    return 1"].

(** The tree of the first output: the import of the [Imports] region is a
    top-level statement again. *)
Definition bundled_once_tree : list node :=
  [import_from_at "lib.b" "g" 4 "from lib.b import g"; def_f_at 8;
   call_at "print" "f" 14 "print(f())"].

Definition world_chain : World :=
  {| path_exists p :=
       bool_decide (p ∈ [["main.py"]; ["bundled.py"]; ["lib"; "a.py"];
                         ["lib"; "b.py"]]);
     read_text p :=
       if decide (p = ["main.py"]) then Some chain_entry_text
       else if decide (p = ["bundled.py"]) then Some bundled_once
       else if decide (p = ["lib"; "a.py"]) then Some chain_a_text
       else if decide (p = ["lib"; "b.py"]) then Some chain_b_text
       else None;
     ast_parse s :=
       if decide (s = chain_entry_text) then Some chain_entry_tree
       else if decide (s = bundled_once) then Some bundled_once_tree
       else if decide (s = chain_a_text) then Some chain_a_tree
       else if decide (s = chain_b_text) then Some chain_b_tree
       else None |}.

(** ** Text *)

(** Whether a string holds a character at which [str.splitlines] breaks. *)
Fixpoint has_linebreak (s : string) : bool :=
  match s with
  | "" => false
  | String c s' => Str.is_linebreak c || has_linebreak s'
  end.

(** ** Imports of the entry file: wildcard imports and line spans *)

(** A top-level from-import of the library that has the wildcard among its
    names. *)
Definition is_star_import (n : node) : Prop :=
  is_lib_import_from (stmt_of n) = true
  ∧ match stmt_of n with
    | ImportFrom _ names _ =>
        existsb (λ a, bool_decide (alias_name a = "*")) names = true
    | _ => False
    end.

(** The symbols a top-level statement imports from the library. *)
Definition imports_of (n : node) : list ImportedSymbol :=
  if is_lib_import_from (stmt_of n) then
    match stmt_of n with
    | ImportFrom module names _ => imported_of module <$> names
    | _ => []
    end
  else [].

(** The statements whose lines are taken out of the entry file. *)
Definition strippable (n : node) : bool :=
  is_lib_import_from (stmt_of n) || is_future_import_from (stmt_of n).

(** The line [i] lies in the span of a statement that is taken out. *)
Definition in_span (tree : list node) (i : Z) : Prop :=
  Exists (λ n, strippable n = true ∧ lineno n ≤ i ≤ end_or_start n) tree.

Global Instance in_span_dec tree i : Decision (in_span tree i).
Proof. unfold in_span. apply _. Defined.

(** The lines, numbered from [i] on, that lie in no such span. *)
Fixpoint surviving (tree : list node) (i : Z) (lines : list string)
  : list string :=
  match lines with
  | [] => []
  | line :: lines' =>
      if decide (in_span tree i) then surviving tree (i + 1) lines'
      else line :: surviving tree (i + 1) lines'
  end.

(** The spans [_strip_lib_imports] records, in the order of the statements. *)
Definition spans_of (tree : list node) : list (Z * Z) :=
  omap (λ n, if strippable n then Some (lineno n, end_or_start n) else None) tree.

(** The loader before any module is requested. *)
Definition empty_loader : loader :=
  {| module_cache := ∅; module_imports_future := [];
     module_imports_other := [] |}.

(** An entry file with a wildcard import of a module that does not exist. *)
Definition star_entry_text : string := "from lib.nowhere import *
print(1)
".

Definition star_entry_tree : list node :=
  [ {| stmt_of :=
         ImportFrom (Some "lib.nowhere")
           [{| alias_name := "*"; alias_asname := None |}] 0;
       lineno := 1; end_lineno := Some 1;
       segment := Some "from lib.nowhere import *" |};
    {| stmt_of := StmtNode [ExprNode [Name "print" Load]] [];
       lineno := 2; end_lineno := Some 2; segment := Some "print(1)" |} ].

Definition world_star : World :=
  {| path_exists p := bool_decide (p = ["main.py"]);
     read_text p := if decide (p = ["main.py"]) then Some star_entry_text else None;
     ast_parse s := if decide (s = star_entry_text) then Some star_entry_tree else None |}.

(** The loader after [lib.helpers] has been requested once. *)
Definition helpers_loader : loader :=
  match get_module world_helpers [] "lib.helpers" empty_loader with
  | Ok ml => ml.2
  | Raise _ => empty_loader
  end.

Definition helpers_module : ModuleSource :=
  {| ms_module := "lib.helpers"; ms_path := ["lib"; "helpers.py"];
     ms_source := helpers_text; ms_tree := helpers_tree |}.

(** ** The symbol closure: what becomes of the imports *)

(** What holds of the state at the head of every turn of [while queue:]
    about the items of the entry file, the queue and the alias lines. *)
Record closure_inv2 (W : World) (root : Path) (imported : list ImportedSymbol)
  (st : closure_state) : Prop := {
  c2_cache : cache_ok W root (cs_loader st);
  c2_names : included_names st = list_to_set (sd_name <$> included st);
  c2_symbols : ∀ m n sym,
    symbol_cache st !! (m, n) = Some sym → sd_name sym = n;
  c2_imported : ∀ item,
    item ∈ imported →
    item ∈ queue st
    ∨ (is_Some (module_table W root (imp_module item) !! imp_name item)
       ∧ imp_name item ∈ included_names st);
  c2_queue : ∀ item,
    item ∈ queue st →
    item ∈ imported
    ∨ (is_Some (module_cache (cs_loader st) !! imp_module item)
       ∧ is_Some (module_table W root (imp_module item) !! imp_name item));
  c2_aliases :
    aliases st ++ mjoin (alias_line <$> queue st)
    = mjoin (alias_line <$> imported)
}.

(** An import of a name that [lib/helpers.py] does not define. *)
Definition missing_imports : list ImportedSymbol :=
  [{| imp_module := "lib.helpers"; imp_name := "foo"; imp_asname := None |};
   {| imp_module := "lib.helpers"; imp_name := "bar"; imp_asname := None |}].

(** ** The regions of the emitted symbols *)

(** The maximal runs of consecutive symbols of one module, each with its
    module. *)
Fixpoint runs (symbols : list SymbolDef) : list (string * list SymbolDef) :=
  match symbols with
  | [] => []
  | s :: rest =>
      match runs rest with
      | (m, g) :: gs =>
          if decide (sd_module s = m) then (m, s :: g) :: gs
          else (sd_module s, [s]) :: (m, g) :: gs
      | [] => [(sd_module s, [s])]
      end
  end.

(** The lines of the symbols of a run: each source without its trailing
    white space, followed by an empty line. *)
Definition run_body (g : list SymbolDef) : list string :=
  mjoin ((λ s, [Str.rstrip (sd_source s); ""]) <$> g).

(** The lines of one region. *)
Definition region_of (r : string * list SymbolDef) : list string :=
  ["# region " +:+ r.1] ++ run_body r.2 ++ ["# endregion"; ""].

(** ** The order of the sorted symbols *)

(** No definition-time dependency of [s] names another symbol: every such
    name is either not registered or registered first by [s] itself. *)
Definition independent (symbols : list SymbolDef) (s : SymbolDef) : Prop :=
  set_Forall
    (λ n, match first_registered symbols n with
          | Some B => sid_of B = sid_of s
          | None => True
          end)
    (_definition_time_deps (stmt_of (sd_node s))).

Global Instance independent_dec symbols s : Decision (independent symbols s).
Proof.
  unfold independent. apply set_Forall_dec. intros n.
  destruct (first_registered symbols n); apply _.
Defined.

(** * A shallow embedding of [lib/math/comb.py]

    Python integers are unbounded and are embedded as [Z]; [%] and [//] are
    the floored operations, which [Z.modulo] and [Z.div] are for a divisor
    other than zero; a zero divisor raises.  A list index below zero counts
    from the end of the list. *)

Module Comb.

Inductive error :=
| ZeroDivisionError
| IndexError
| AssertionError.

Inductive outcome (A : Type) :=
| Val (a : A)
| Err (e : error).
Arguments Val {A} a.
Arguments Err {A} e.

Definition bind {A B} (r : outcome A) (k : A → outcome B) : outcome B :=
  match r with
  | Val a => k a
  | Err e => Err e
  end.

Notation "'let?' x := r 'in' k" := (bind r (λ x, k))
  (at level 10, x pattern, r at level 100, k at level 200,
   format "'let?'  x  :=  r  'in'  '/' k").

(** [a % b]. *)
Definition pymod (a b : Z) : outcome Z :=
  if decide (b = 0) then Err ZeroDivisionError else Val (a mod b).

(** [a // b]. *)
Definition pyfloordiv (a b : Z) : outcome Z :=
  if decide (b = 0) then Err ZeroDivisionError else Val (a / b).

(** The position a list index stands for. *)
Definition norm_index (l : list Z) (i : Z) : option nat :=
  let len := Z.of_nat (length l) in
  if decide (0 ≤ i < len) then Some (Z.to_nat i)
  else if decide (- len ≤ i < 0) then Some (Z.to_nat (len + i))
  else None.

(** [l[i]]. *)
Definition getitem (l : list Z) (i : Z) : outcome Z :=
  match norm_index l i with
  | Some k =>
      match l !! k with
      | Some v => Val v
      | None => Err IndexError
      end
  | None => Err IndexError
  end.

(** [l[i] = v]. *)
Definition setitem (l : list Z) (i : Z) (v : Z) : outcome (list Z) :=
  match norm_index l i with
  | Some k => Val (<[k := v]> l)
  | None => Err IndexError
  end.

(** [[1] * n]. *)
Definition ones (n : Z) : list Z := replicate (Z.to_nat n) 1.

(** [range(a, b)]. *)
Definition range (a b : Z) : list Z := seqZ a (b - a).

Record t := {
  _limit : Z;
  _mod : Z;
  _fac : list Z;
  _inv : list Z;
  _facinv : list Z
}.

(** A [for] loop whose body may raise. *)
Fixpoint for_each {S : Type} (body : S → Z → outcome S) (st : S) (l : list Z)
  : outcome S :=
  match l with
  | [] => Val st
  | i :: l' =>
      match body st i with
      | Val st' => for_each body st' l'
      | Err e => Err e
      end
  end.

(** The body of the loop of [__init__]. *)
Definition init_body (md : Z) (self : t) (i : Z) : outcome t :=
  let? a := getitem (_fac self) (i - 1) in
  let? v := pymod (a * i) md in
  let? fac := setitem (_fac self) i v in
  let? k := pymod md i in
  let? b := getitem (_inv self) k in
  let? q := pyfloordiv md i in
  let? w := pymod (md - b * q) md in
  let? inv := setitem (_inv self) i w in
  let? c := getitem (_facinv self) (i - 1) in
  let? d := getitem inv i in
  let? x := pymod (c * d) md in
  let? facinv := setitem (_facinv self) i x in
  Val {| _limit := _limit self; _mod := _mod self;
         _fac := fac; _inv := inv; _facinv := facinv |}.

Definition __init__ (limit md : Z) : outcome t :=
  for_each (init_body md)
    {| _limit := limit; _mod := md;
       _fac := ones (limit + 1); _inv := ones (limit + 1);
       _facinv := ones (limit + 1) |}
    (range 2 (limit + 1)).

Definition __call__ (self : t) (n r : Z) : outcome Z :=
  if decide (0 ≤ n ≤ _limit self) then
    if decide (n < r) then Val 0
    else
      let? a := getitem (_fac self) n in
      let? b := getitem (_facinv self) (n - r) in
      let? x := pymod (a * b) (_mod self) in
      let? d := getitem (_facinv self) r in
      pymod (x * d) (_mod self)
  else Err AssertionError.

End Comb.

(** ** Vocabulary for the tables *)

(** The number of ways to choose [r] of [n], by Pascal's rule. *)
Fixpoint binom (n r : nat) : nat :=
  match n, r with
  | _, O => 1
  | O, S _ => 0
  | S n', S r' => binom n' r' + binom n' r
  end%nat.

(** No number from 2 to [limit] divides the modulus; so it is for a prime
    modulus above [limit]. *)
Definition coprime_upto (limit md : Z) : Prop :=
  ∀ j, 2 ≤ j ≤ limit → md mod j ≠ 0.

(** What the table of factorials holds at [j]. *)
Definition fac_value (md : Z) (j : nat) : Z :=
  if decide (j < 2)%nat then 1 else Z.of_nat (fact j) mod md.

(** What holds of the tables when the entries up to [k] are computed. *)
Record tables_ok (limit md : Z) (k : nat) (self : Comb.t) : Prop := {
  to_limit : Comb._limit self = limit;
  to_mod : Comb._mod self = md;
  to_fac_length : length (Comb._fac self) = Z.to_nat (limit + 1);
  to_inv_length : length (Comb._inv self) = Z.to_nat (limit + 1);
  to_facinv_length : length (Comb._facinv self) = Z.to_nat (limit + 1);
  to_fac : ∀ j, (j ≤ k)%nat → Z.of_nat j ≤ limit →
    Comb._fac self !! j = Some (fac_value md j);
  to_inv : coprime_upto limit md →
    ∀ j, (1 ≤ j ≤ k)%nat → Z.of_nat j ≤ limit →
      ∃ v, Comb._inv self !! j = Some v ∧ (Z.of_nat j * v) mod md = 1 mod md;
  to_facinv : coprime_upto limit md →
    ∀ j, (j ≤ k)%nat → Z.of_nat j ≤ limit →
      ∃ v, Comb._facinv self !! j = Some v
           ∧ (v * Z.of_nat (fact j)) mod md = 1 mod md
}.

(** The tables for [limit = 5] and the modulus 7. *)
Definition comb_5_7 : Comb.t :=
  match Comb.__init__ 5 7 with
  | Comb.Val self => self
  | Comb.Err _ =>
      {| Comb._limit := 5; Comb._mod := 7; Comb._fac := [];
         Comb._inv := []; Comb._facinv := [] |}
  end.

(** ** The import lines of a module *)

(** [isinstance(node, ast.ImportFrom) and node.module == "__future__"]. *)
Definition is_future_stmt (s : stmt) : bool :=
  match s with
  | ImportFrom (Some "__future__") _ _ => true
  | _ => false
  end.

(** [isinstance(node, (ast.Import, ast.ImportFrom))]. *)
Definition is_import_stmt (s : stmt) : bool :=
  match s with
  | Import _ | ImportFrom _ _ _ => true
  | _ => false
  end.

(** * Properties *)

(** ** Module resolution *)

Lemma split_dot_free s : has_dot s = false → Str.split "." s = [s].
Proof.
  induction s as [|c s IH]; simpl; [done|].
  intros [Hc Hs]%orb_false_iff. apply bool_decide_eq_false in Hc.
  rewrite decide_False by done. by rewrite IH.
Qed.

Lemma split_dot_app x rest :
  has_dot x = false →
  Str.split "." (x +:+ "." +:+ rest) = x :: Str.split "." rest.
Proof.
  induction x as [|c x IH]; simpl; [done|].
  intros [Hc Hx]%orb_false_iff. apply bool_decide_eq_false in Hc.
  rewrite decide_False by done. by rewrite IH.
Qed.

Lemma split_join_dot parts :
  parts ≠ [] → Forall name_part parts →
  Str.split "." (Str.join "." parts) = parts.
Proof.
  induction parts as [|x parts IH]; [done|]. intros _ Hall.
  apply Forall_cons in Hall as [[_ Hx] Hall].
  destruct parts as [|y parts]; simpl.
  - by apply split_dot_free.
  - rewrite split_dot_app by done. f_equal. by apply IH.
Qed.

Lemma rfind_dot_go_free i o s :
  has_dot s = false → Str.rfind_dot_go i o s = o.
Proof.
  revert i o. induction s as [|c s IH]; intros i o; simpl; [done|].
  intros [Hc Hs]%orb_false_iff. apply bool_decide_eq_false in Hc.
  rewrite decide_False by done. by apply IH.
Qed.

Lemma substring_all s : String.substring 0 (String.length s) s = s.
Proof. induction s as [|c s IH]; simpl; by rewrite ?IH. Qed.

Lemma with_suffix_part (q : Path) p suf :
  name_part p → Pathlib.with_suffix (q ++ [p]) suf = Ok (q ++ [p +:+ suf]).
Proof.
  intros [Hne Hfree]. unfold Pathlib.with_suffix.
  rewrite last_snoc, decide_False by done.
  unfold Pathlib.suffix, Str.rfind_dot. rewrite rfind_dot_go_free by done.
  simpl. rewrite Nat.sub_0_r, substring_all.
  by rewrite removelast_last.
Qed.

Lemma joinpath_parts (root : Path) parts :
  Forall (λ s, s ≠ "") parts → Pathlib.joinpath root parts = root ++ parts.
Proof.
  intros Hall. unfold Pathlib.joinpath. f_equal.
  induction Hall as [|x l Hx _ IH]; [done|].
  rewrite filter_cons_True by done. by f_equal.
Qed.

Lemma name_parts_nonempty parts :
  Forall name_part parts → Forall (λ s, s ≠ "") parts.
Proof. intros H. eapply Forall_impl; [done|]. by intros s [??]. Qed.

Lemma resolve_module_path_eq W root ps p :
  Forall name_part (ps ++ [p]) →
  _resolve_module_path W (Str.join "." (ps ++ [p])) root =
    if path_exists W (direct_file root ps p) then Ok (direct_file root ps p)
    else if path_exists W (package_index root ps p)
         then Ok (package_index root ps p)
         else Raise (BundleError
                       (ModuleNotFound (Str.join "." (ps ++ [p]))
                          (direct_file root ps p) (package_index root ps p))).
Proof.
  intros Hall. unfold _resolve_module_path.
  rewrite split_join_dot by (done || by destruct ps).
  rewrite joinpath_parts by by apply name_parts_nonempty.
  assert (name_part p) as Hp.
  { apply Forall_app in Hall as [_ Hp]. by apply Forall_inv in Hp. }
  rewrite (assoc_L (++) root ps [p]), with_suffix_part by done. simpl.
  rewrite joinpath_parts.
  2:{ apply Forall_app; split; [by apply name_parts_nonempty|]. by repeat constructor. }
  unfold direct_file, package_index.
  by rewrite <-!(assoc_L (++)).
Qed.

(** C9.  For the dotted module name made of the components [ps] and [p],
    resolution under [root] raises if and only if neither the direct file
    [root/ps/p.py] nor the package index [root/ps/p/__init__.py] exists, and
    what it raises is then the module-not-found error carrying both candidate
    paths; when the direct file exists it is returned, and otherwise the
    package index is returned when that exists. *)
Theorem resolve_module_path_spec W root ps p :
  Forall name_part (ps ++ [p]) →
  let module := Str.join "." (ps ++ [p]) in
  let r := _resolve_module_path W module root in
  ((∃ e, r = Raise e) ↔
     path_exists W (direct_file root ps p) = false
     ∧ path_exists W (package_index root ps p) = false)
  ∧ (∀ e, r = Raise e →
       e = BundleError (ModuleNotFound module (direct_file root ps p)
                          (package_index root ps p)))
  ∧ (path_exists W (direct_file root ps p) = true →
       r = Ok (direct_file root ps p))
  ∧ (path_exists W (direct_file root ps p) = false →
       path_exists W (package_index root ps p) = true →
       r = Ok (package_index root ps p)).
Proof.
  intros Hall module r. subst module r.
  rewrite resolve_module_path_eq by done.
  destruct (path_exists W (direct_file root ps p)) eqn:Hd;
    destruct (path_exists W (package_index root ps p)) eqn:Hp;
    (split; [split|split; [|split]]);
    try done; try (by intros [e ?]); try (by intros [??]); try (by eexists);
    try (by intros e [= <-]).
Qed.

Lemma resolve_module_path_spec_witness :
  _resolve_module_path world_package_only "a.b" ["root"]
  = Ok ["root"; "a"; "b"; "__init__.py"].
Proof.
  assert (Forall name_part (["a"] ++ ["b"])) as Hparts.
  { repeat constructor; done. }
  destruct (resolve_module_path_spec world_package_only ["root"] ["a"] "b" Hparts)
    as (_ & _ & _ & Hpkg).
  apply Hpkg; reflexivity.
Defined.

(** ** The symbol table *)

Lemma setdefault_lookup {V} k (v : V) table k' :
  setdefault k v table !! k' =
    match table !! k' with
    | Some x => Some x
    | None => if decide (k = k') then Some v else None
    end.
Proof.
  unfold setdefault. destruct (table !! k) as [x|] eqn:Hk.
  - destruct (table !! k') eqn:Hk'; [done|]. case_decide; congruence.
  - rewrite lookup_insert. case_decide; subst; [by rewrite Hk|].
    by destruct (table !! k').
Qed.

Lemma assign_targets_lookup (n : node) targets table name :
  foldl (λ tbl t, match t with
                  | Name id _ => setdefault id n tbl
                  | _ => tbl
                  end) table targets !! name =
    match table !! name with
    | Some x => Some x
    | None => if decide (Exists (is_name name) targets) then Some n else None
    end.
Proof.
  revert table. induction targets as [|t targets IH]; intros table.
  - cbn [foldl]. destruct (table !! name); [done|]. rewrite decide_False; [done|].
    by intros ?%Exists_nil.
  - cbn [foldl]. rewrite IH. destruct t as [id ctx|cs].
    + rewrite setdefault_lookup. destruct (table !! name); [done|].
      destruct (decide (id = name)) as [->|Hid].
      * rewrite decide_True; [done|]. by left.
      * destruct (decide (Exists (is_name name) targets)) as [He|He].
        -- rewrite decide_True; [done|]. by right.
        -- rewrite decide_False; [done|]. by intros [?|?]%Exists_cons.
    + destruct (table !! name); [done|].
      destruct (decide (Exists (is_name name) targets)) as [He|He].
      * rewrite decide_True; [done|]. by right.
      * rewrite decide_False; [done|]. by intros [?|?]%Exists_cons.
Qed.

Lemma build_symbol_table_step_lookup table n name :
  _build_symbol_table_step table n !! name =
    if decide (is_def_of name n) then Some n
    else match table !! name with
         | Some x => Some x
         | None => if decide (assigns name n) then Some n else None
         end.
Proof.
  destruct (decide (is_def_of name n)) as [Hd|Hd];
  destruct (decide (assigns name n)) as [Ha|Ha];
  revert Hd Ha; unfold _build_symbol_table_step, is_def_of, assigns;
  destruct (stmt_of n) as [nm ????|nm ????|nm ????|targets v|t a v| | |];
    intros Hd Ha; try done; subst;
    rewrite ?lookup_insert_eq, ?lookup_insert_ne by done; try done;
    try (by destruct (table !! name)).
  all: try (rewrite assign_targets_lookup; destruct (table !! name); [done|];
            (by rewrite decide_True by done) || (by rewrite decide_False by done)).
  all: destruct t as [id ctx|cs]; simpl in *; subst;
       rewrite ?setdefault_lookup; destruct (table !! name); try done.
  all: (by rewrite decide_True by done) || (by rewrite decide_False by done).
Qed.

Lemma build_symbol_table_lookup_from table body name :
  foldl _build_symbol_table_step table body !! name =
    match last (filter (is_def_of name) body) with
    | Some n => Some n
    | None =>
        match table !! name with
        | Some x => Some x
        | None => head (filter (assigns name) body)
        end
    end.
Proof.
  revert table. induction body as [|n body IH]; intros table; simpl.
  - by destruct (table !! name).
  - rewrite IH, build_symbol_table_step_lookup.
    rewrite !filter_cons. destruct (decide (is_def_of name n)) as [Hd|Hd].
    + rewrite last_cons. by destruct (last (filter (is_def_of name) body)).
    + destruct (last (filter (is_def_of name) body)); [done|].
      destruct (table !! name); [done|].
      by destruct (decide (assigns name n)).
Qed.

(** C2 (as the code has it).  The symbol table maps a name to the LAST
    top-level function, async function or class definition of that name when
    the module has one; otherwise to the FIRST top-level assignment that has
    the name among its simple targets (plain or annotated); a name bound by
    neither is absent.  So a later assignment never replaces an entry, while a
    later definition statement replaces whatever was recorded before. *)
Theorem build_symbol_table_lookup md name :
  _build_symbol_table md !! name =
    match last (filter (is_def_of name) (ms_tree md)) with
    | Some n => Some n
    | None => head (filter (assigns name) (ms_tree md))
    end.
Proof.
  unfold _build_symbol_table. rewrite build_symbol_table_lookup_from.
  by rewrite lookup_empty.
Qed.

(** C2 (counterexample).  With two top-level definitions of [f], the table
    holds the second one, not the first. *)
Lemma build_symbol_table_not_first :
  first_definition (ms_tree module_f_twice) "f"
    = Some (def_at "f" 1 "def f(): return 1")
  ∧ _build_symbol_table module_f_twice !! "f"
    = Some (def_at "f" 2 "def f(): return 2")
  ∧ _build_symbol_table module_f_twice !! "f"
    ≠ first_definition (ms_tree module_f_twice) "f".
Proof. vm_compute. split; [done|]. split; [done|]. by intros [=]. Qed.

(** ** Definition-time dependencies *)

Lemma elem_of_foldl_loads (l : list ast_node) (acc : gset string) x :
  x ∈ foldl (λ deps c, deps ∪ _name_loads_in c) acc l
  ↔ x ∈ acc ∨ ∃ c, c ∈ l ∧ x ∈ _name_loads_in c.
Proof.
  revert acc. induction l as [|c l IH]; intros acc; simpl.
  - split; [by left|]. intros [?|(c & Hc & _)]; [done|]. by apply elem_of_nil in Hc.
  - rewrite IH, elem_of_union. split.
    + intros [[?|?]|(c' & ? & ?)]; [by left|right..].
      * exists c. split; [by left|done].
      * exists c'. split; [by right|done].
    + intros [?|(c' & [->|?]%elem_of_cons & ?)]; [by left; left|by left; right|].
      right. by exists c'.
Qed.

Lemma elem_of_some_nodes l c :
  c ∈ some_nodes l ↔ ∃ e, c = NExpr e ∧ Some e ∈ l.
Proof.
  unfold some_nodes. rewrite list_elem_of_omap. split.
  - intros ([e|] & Hin & Heq); simplify_eq/=. by exists e.
  - intros (e & -> & Hin). by exists (Some e).
Qed.

Lemma elem_of_arg_annotation_nodes l c :
  c ∈ arg_annotation_nodes l ↔ ∃ x e, c = NExpr e ∧ x ∈ l ∧ annotation x = Some e.
Proof.
  unfold arg_annotation_nodes. rewrite list_elem_of_omap. split.
  - intros (x & Hin & Heq). destruct (annotation x) as [e|] eqn:Ha; simplify_eq/=.
    by exists x, e.
  - intros (x & e & -> & Hin & Ha). exists x. by rewrite Ha.
Qed.

Lemma elem_of_opt_arg_annotation_nodes o c :
  c ∈ opt_arg_annotation_nodes o
  ↔ ∃ x e, c = NExpr e ∧ o = Some x ∧ annotation x = Some e.
Proof.
  unfold opt_arg_annotation_nodes. split.
  - destruct o as [x|]; [|by intros ?%elem_of_nil].
    destruct (annotation x) as [e|] eqn:Ha; [|by intros ?%elem_of_nil].
    intros ->%list_elem_of_singleton. by exists x, e.
  - intros (x & e & -> & -> & ->). by apply list_elem_of_singleton.
Qed.

Lemma function_context_nodes a ds r c :
  c ∈ (NExpr <$> ds) ++ some_nodes (defaults a) ++ some_nodes (kw_defaults a)
      ++ arg_annotation_nodes (posonlyargs a ++ args a ++ kwonlyargs a)
      ++ opt_arg_annotation_nodes (vararg a)
      ++ opt_arg_annotation_nodes (kwarg a)
      ++ match r with Some r => [NExpr r] | None => [] end
  ↔ ∃ e, c = NExpr e ∧ function_position a ds r e.
Proof.
  rewrite !elem_of_app, list_elem_of_fmap, !elem_of_some_nodes,
    elem_of_arg_annotation_nodes, !elem_of_opt_arg_annotation_nodes.
  split.
  - intros [(e & -> & ?)|[(e & -> & ?)|[(e & -> & ?)|[(x & e & -> & ? & ?)|
      [(x & e & -> & ? & ?)|[(x & e & -> & ? & ?)|Hr]]]]]];
      try (eexists; split; [done|]).
    + by apply pos_decorator.
    + by apply pos_default.
    + by apply pos_kw_default.
    + by eapply pos_annotation.
    + by eapply pos_vararg.
    + by eapply pos_kwarg.
    + destruct r as [e|]; [|by apply elem_of_nil in Hr].
      apply list_elem_of_singleton in Hr as ->. eexists; split; [done|].
      by apply pos_returns.
  - intros (e & -> & Hpos). destruct Hpos as [e|e|e|x e|x e|x e|e].
    + left. by exists e.
    + right; left. by exists e.
    + do 2 right; left. by exists e.
    + do 3 right; left. by exists x, e.
    + do 4 right; left. by exists x, e.
    + do 5 right; left. by exists x, e.
    + do 6 right. subst r. by apply list_elem_of_singleton.
Qed.

Lemma expr_loads_spec x : ∀ e, x ∈ expr_loads e ↔ loaded_in x e.
Proof.
  fix IH 1. intros [id ctx|children].
  - clear IH. destruct ctx; simpl.
    + rewrite elem_of_singleton. split; [intros ->; constructor|].
      by inversion 1.
    + split; [by intros ?%elem_of_empty|inversion 1].
    + split; [by intros ?%elem_of_empty|inversion 1].
  - assert (Forall (λ c, x ∈ expr_loads c ↔ loaded_in x c) children) as Hall.
    { induction children as [|c children IHc]; constructor;
        [apply IH|exact IHc]. }
    clear IH. rewrite Forall_forall in Hall. simpl. rewrite elem_of_union_list. split.
    + intros (X & HX & Hx). apply list_elem_of_In, in_map_iff in HX
        as (c & <- & Hc%list_elem_of_In).
      apply (loaded_child x children c); [done|]. by apply Hall.
    + inversion 1 as [|children' c Hc Hl]; subst.
      exists (expr_loads c). split; [|by apply Hall].
      apply list_elem_of_In, in_map_iff. exists c. split; [done|].
      by apply list_elem_of_In.
Qed.

Lemma definition_time_deps_positions s x :
  x ∈ _definition_time_deps s
  ↔ ∃ e, definition_time_position s e ∧ x ∈ expr_loads e.
Proof.
  unfold _definition_time_deps. rewrite elem_of_foldl_loads.
  split.
  - intros [?|(c & Hc & Hx)]; [set_solver|].
    destruct s as [nm a body ds r|nm a body ds r|nm bases kws body ds|
                   targets v|t ann v|names|m names lvl|es ss]; simpl in Hc.
    + apply function_context_nodes in Hc as (e & -> & Hp).
      exists e. split; [by constructor|done].
    + apply function_context_nodes in Hc as (e & -> & Hp).
      exists e. split; [by constructor|done].
    + rewrite !elem_of_app, !list_elem_of_fmap in Hc.
      destruct Hc as [(e & -> & ?)|[(e & -> & ?)|(k & -> & ?)]].
      * exists e. split; [by apply dt_class_decorator|done].
      * exists e. split; [by apply dt_class_base|done].
      * exists (kw_value k). split; [by apply dt_class_keyword|done].
    + apply list_elem_of_singleton in Hc as ->. exists v. split; [constructor|done].
    + destruct ann as [e|], v as [v|]; simpl in Hc;
        repeat (apply elem_of_cons in Hc as [->|Hc]);
        try (by apply elem_of_nil in Hc);
        eexists; (split; [constructor|done]).
    + by apply elem_of_nil in Hc.
    + by apply elem_of_nil in Hc.
    + by apply elem_of_nil in Hc.
  - intros (e & Hp & Hx). right. destruct Hp as
      [nm a body ds r e Hf|nm a body ds r e Hf|nm bases kws body ds e He|
       nm bases kws body ds e He|nm bases kws body ds k Hk|targets v|t e v|t a v];
      simpl.
    + exists (NExpr e). split; [|done]. apply function_context_nodes. by exists e.
    + exists (NExpr e). split; [|done]. apply function_context_nodes. by exists e.
    + exists (NExpr e). split; [|done].
      rewrite !elem_of_app, !list_elem_of_fmap. left. by exists e.
    + exists (NExpr e). split; [|done].
      rewrite !elem_of_app, !list_elem_of_fmap. right; left. by exists e.
    + exists (NKeyword k). split; [|done].
      rewrite !elem_of_app, !list_elem_of_fmap. right; right. by exists k.
    + exists (NExpr v). split; [|done]. by apply list_elem_of_singleton.
    + exists (NExpr e). split; [|done]. by left.
    + exists (NExpr v). split; [|done]. destruct a; [right|]; by left.
Qed.

(** C7.  A name is a definition-time dependency of a statement exactly when
    one of the expressions evaluated at definition time (for a function:
    decorators, parameter defaults, parameter and return annotations; for a
    class: decorators, bases and header keyword arguments; for an assignment:
    the right-hand side and, when annotated, the annotation) holds, at any
    depth, a [Name] node of that identifier in [Load] context.  The body of a
    function plays no part: the dependencies of a function definition are the
    same whatever its body is, and a name that no definition-time expression
    of the function loads is not among them, whatever the body loads. *)
Theorem definition_time_deps_spec :
  (∀ s x, x ∈ _definition_time_deps s
          ↔ ∃ e, definition_time_position s e ∧ loaded_in x e)
  ∧ (∀ name a body body' ds r,
       _definition_time_deps (FunctionDef name a body ds r)
       = _definition_time_deps (FunctionDef name a body' ds r)
       ∧ _definition_time_deps (AsyncFunctionDef name a body ds r)
         = _definition_time_deps (AsyncFunctionDef name a body' ds r))
  ∧ (∀ name a body ds r x,
       (∀ e, function_position a ds r e → ¬ loaded_in x e) →
       (x ∉ _definition_time_deps (FunctionDef name a body ds r))
       ∧ (x ∉ _definition_time_deps (AsyncFunctionDef name a body ds r))).
Proof.
  assert (∀ s x, x ∈ _definition_time_deps s
                 ↔ ∃ e, definition_time_position s e ∧ loaded_in x e) as Hspec.
  { intros s x. rewrite definition_time_deps_positions.
    split; intros (e & Hp & Hx); exists e; (split; [done|]);
      by apply expr_loads_spec. }
  split; [done|]. split; [done|].
  intros name a body ds r x Hnone.
  split; intros [e [Hp Hx]]%Hspec; inversion Hp; subst; by eapply Hnone.
Qed.

(** On [@deco def f(x: T = D()) -> R: return helper(x)] the dependencies are
    [deco], [D], [T] and [R]; [helper] and [x], loaded in the body, are not
    among them. *)
Lemma definition_time_deps_spec_witness :
  _definition_time_deps positions_def = list_to_set ["deco"; "D"; "T"; "R"]
  ∧ stmt_loads positions_def
    = list_to_set ["deco"; "D"; "T"; "R"; "helper"; "x"]
  ∧ ("helper" ∈ _definition_time_deps positions_def
     ↔ ∃ e, definition_time_position positions_def e ∧ loaded_in "helper" e)
  ∧ ("deco" ∈ _definition_time_deps positions_def
     ↔ ∃ e, definition_time_position positions_def e ∧ loaded_in "deco" e).
Proof.
  split; [vm_compute; reflexivity|]. split; [vm_compute; reflexivity|].
  split.
  - exact (proj1 definition_time_deps_spec positions_def "helper").
  - exact (proj1 definition_time_deps_spec positions_def "deco").
Defined.

(** ** The early return of [bundle_file] *)

Lemma parse_imported_symbols_go_none body imported :
  Forall (λ n, is_lib_import_from (stmt_of n) = false) body →
  _parse_imported_symbols_go body imported = Ok imported.
Proof.
  induction 1 as [|n body Hn _ IH]; simpl; [done|]. by rewrite Hn.
Qed.

Lemma bundle_file_no_imports iter W entry_path root entry_source entry_tree :
  read_text W entry_path = Some entry_source →
  ast_parse W entry_source = Some entry_tree →
  Forall (λ n, is_lib_import_from (stmt_of n) = false) entry_tree →
  bundle_file iter W entry_path root = Some (Ok entry_source).
Proof.
  intros Hread Hparse Hnone. unfold bundle_file, _parse_imported_symbols.
  by rewrite Hread, Hparse, parse_imported_symbols_go_none.
Qed.

Lemma universal_newlines_id text :
  universal_newlines text = text ↔ has_cr text = false.
Proof.
  induction text as [|c text IH]; [done|]. cbn [universal_newlines has_cr].
  destruct (decide (c = "013"%char)) as [->|Hc].
  - split; [|done]. by intros [=].
  - rewrite bool_decide_eq_false_2 by done. simpl. rewrite <-IH.
    split; [by intros [=]|by intros ->].
Qed.

(** C6 (as the code has it).  For an entry file that parses and has no
    top-level from-import of the library namespace, the result of
    [bundle_file] is the text of the file as the program reads it: the text
    the bytes of the file decode to, with every [CR LF] and every lone [CR]
    replaced by [LF].  That is the stored text itself exactly when the file
    holds no carriage return. *)
Theorem bundle_file_noop iter F entry_path root text entry_tree :
  file_text F entry_path = Some text →
  file_parse F (universal_newlines text) = Some entry_tree →
  Forall (λ n, is_lib_import_from (stmt_of n) = false) entry_tree →
  bundle_file iter (world_of F) entry_path root
  = Some (Ok (universal_newlines text))
  ∧ (universal_newlines text = text ↔ has_cr text = false).
Proof.
  intros Hread Hparse Hnone. split; [|apply universal_newlines_id].
  apply (bundle_file_no_imports _ _ _ _ _ entry_tree); [|done|done].
  simpl. by rewrite Hread.
Qed.

Lemma bundle_file_noop_witness :
  bundle_file elements (world_of files_plain) ["main.py"] []
  = Some (Ok (universal_newlines plain_text))
  ∧ (universal_newlines plain_text = plain_text ↔ has_cr plain_text = false).
Proof.
  apply (bundle_file_noop elements files_plain ["main.py"] [] plain_text
           plain_tree).
  - reflexivity.
  - reflexivity.
  - repeat constructor.
Defined.

(** C6 (counterexample).  The same program stored with [CR LF] line ends has
    no import of the library; the result of [bundle_file] has [LF] line ends
    and is not the stored text. *)
Lemma bundle_file_noop_crlf :
  file_text files_crlf ["main.py"] = Some crlf_text
  ∧ file_parse files_crlf (universal_newlines crlf_text) = Some plain_tree
  ∧ Forall (λ n, is_lib_import_from (stmt_of n) = false) plain_tree
  ∧ bundle_file elements (world_of files_crlf) ["main.py"] []
    = Some (Ok plain_text)
  ∧ plain_text ≠ crlf_text.
Proof.
  split; [reflexivity|]. split; [reflexivity|].
  split; [repeat constructor|]. split; [vm_compute; reflexivity|].
  apply String.eqb_neq. reflexivity.
Qed.

Lemma strip_scan_rejects body remove :
  Exists is_whole_lib_import body →
  _strip_scan body remove = Raise (BundleError UnsupportedImportForm).
Proof.
  intros Hex. revert remove.
  induction Hex as [n body Hn|n body _ IH]; intros remove; cbn [_strip_scan].
  - unfold is_whole_lib_import in Hn.
    destruct (stmt_of n); try done.
    cbn [is_lib_import_from is_future_import_from]. by rewrite Hn.
  - destruct (is_lib_import_from (stmt_of n)); [apply IH|].
    destruct (is_future_import_from (stmt_of n)); [apply IH|].
    destruct (stmt_of n); try apply IH.
    by destruct (existsb _ _).
Qed.

(** With a whole-module import of the library in the entry file,
    [bundle_file] raises as soon as the file also has a from-import of the
    library; it returns a text only through the early return, and that text
    is the entry file unchanged. *)
Lemma bundle_file_whole_import iter W entry_path root entry_source entry_tree r :
  read_text W entry_path = Some entry_source →
  ast_parse W entry_source = Some entry_tree →
  Exists is_whole_lib_import entry_tree →
  bundle_file iter W entry_path root = Some r →
  (_parse_imported_symbols entry_tree = Ok [] ∧ r = Ok entry_source)
  ∨ ∃ e, r = Raise e.
Proof.
  intros Hread Hparse Hex. unfold bundle_file. rewrite Hread, Hparse.
  destruct (_parse_imported_symbols entry_tree) as [[|i imported]|e].
  - intros [= <-]. by left.
  - destruct (closure iter W root (i :: imported)) as [[st|e]|]; [| |done].
    + unfold emit, emit_with, _strip_lib_imports. rewrite strip_scan_rejects by done.
      intros [= <-]. right. by eexists.
    + intros [= <-]. right. by eexists.
  - intros [= <-]. right. by eexists.
Qed.

(** C3 (what the code does).  On an entry file that holds [import lib.math.comb]
    and no from-import of the library, [bundle_file] returns the text
    unchanged: the test for the unsupported form sits in [_strip_lib_imports],
    which raises on this very tree, but the early return comes first. *)
Theorem bundle_file_whole_import_not_rejected :
  bundle_file elements world_whole_import ["main.py"] []
    = Some (Ok whole_import_text)
  ∧ _strip_lib_imports whole_import_text whole_import_tree
    = Raise (BundleError UnsupportedImportForm).
Proof. split; reflexivity. Qed.

(** ** The index of the topological sort *)

Lemma build_index_from ix symbols :
  let ix' := foldl index_step ix symbols in
  order ix' = order ix ++ (sid_of <$> symbols)
  ∧ (∀ n, name_to_first_id ix' !! n =
          match name_to_first_id ix !! n with
          | Some x => Some x
          | None => sid_of <$> head (filter (λ s, sd_name s = n) symbols)
          end)
  ∧ (∀ x, by_id ix' !! x =
          match last (filter (λ s, sid_of s = x) symbols) with
          | Some s => Some s
          | None => by_id ix !! x
          end).
Proof.
  revert ix. induction symbols as [|s symbols IH]; intros ix; simpl.
  - split; [by rewrite app_nil_r|]. split; intros n; [by destruct (_ !! n)|done].
  - destruct (IH (index_step ix s)) as (Ho & Hn & Hb). split; [|split].
    + rewrite Ho. simpl. by rewrite <-(assoc_L (++)).
    + intros n. rewrite Hn. simpl. rewrite setdefault_lookup, filter_cons.
      destruct (name_to_first_id ix !! n); [done|].
      destruct (decide (sd_name s = n)); [done|].
      by destruct (head _).
    + intros x. rewrite Hb. simpl. rewrite filter_cons.
      destruct (decide (sid_of s = x)) as [<-|Hne].
      * rewrite last_cons. destruct (last _); [done|]. by rewrite lookup_insert_eq.
      * destruct (last _); [done|]. by rewrite lookup_insert_ne.
Qed.

Lemma build_index_order symbols :
  order (build_index symbols) = sid_of <$> symbols.
Proof.
  unfold build_index.
  by destruct (build_index_from
                 {| by_id := ∅; name_to_first_id := ∅; order := [] |} symbols)
    as (-> & _).
Qed.

Lemma build_index_first symbols n :
  name_to_first_id (build_index symbols) !! n
  = sid_of <$> first_registered symbols n.
Proof.
  unfold build_index.
  destruct (build_index_from
              {| by_id := ∅; name_to_first_id := ∅; order := [] |} symbols)
    as (_ & Hn & _).
  by rewrite Hn.
Qed.

Lemma last_filter_sid symbols s :
  NoDup (sid_of <$> symbols) → s ∈ symbols →
  last (filter (λ s', sid_of s' = sid_of s) symbols) = Some s.
Proof.
  induction symbols as [|s' symbols IH]; [by intros _ ?%elem_of_nil|].
  rewrite fmap_cons, NoDup_cons. intros [Hnotin Hnd] Hs.
  rewrite filter_cons.
  destruct (decide (sid_of s ∈ sid_of <$> symbols)) as [Hin|Hout].
  - assert (sid_of s' ≠ sid_of s) as Hne by (intros Heq; by rewrite Heq in Hnotin).
    rewrite decide_False by done. apply IH; [done|].
    apply elem_of_cons in Hs as [->|?]; done.
  - apply elem_of_cons in Hs as [->|Hs].
    2:{ exfalso. apply Hout. by apply list_elem_of_fmap_2. }
    rewrite decide_True by done.
    assert (filter (λ s'', sid_of s'' = sid_of s') symbols = []) as ->; [|done].
    destruct (filter _ symbols) as [|y l] eqn:Hf; [done|].
    assert (y ∈ filter (λ s'', sid_of s'' = sid_of s') symbols) as Hy
      by (rewrite Hf; by left).
    apply list_elem_of_filter in Hy as [Hy1 Hy2].
    exfalso. apply Hnotin. rewrite <-Hy1. by apply list_elem_of_fmap_2.
Qed.

Lemma build_index_by_id symbols s :
  NoDup (sid_of <$> symbols) → s ∈ symbols →
  by_id (build_index symbols) !! sid_of s = Some s.
Proof.
  intros Hnd Hs. unfold build_index.
  destruct (build_index_from
              {| by_id := ∅; name_to_first_id := ∅; order := [] |} symbols)
    as (_ & _ & Hb).
  by rewrite Hb, last_filter_sid.
Qed.

(** ** The dependency graph *)

Lemma deps_at_insert m x X y :
  deps_at (<[x := X]> m) y = if decide (y = x) then X else deps_at m y.
Proof.
  unfold deps_at. rewrite lookup_insert.
  repeat case_decide; subst; done.
Qed.

Lemma indeg_at_insert m x (n : Z) y :
  indeg_at (<[x := n]> m) y = if decide (y = x) then n else indeg_at m y.
Proof.
  unfold indeg_at. rewrite lookup_insert.
  repeat case_decide; subst; done.
Qed.

Lemma constant_map_lookup {V} (l : list string) (v : V) x :
  (list_to_map ((λ sid, (sid, v)) <$> l) : gmap string V) !! x
  = if decide (x ∈ l) then Some v else None.
Proof.
  case_decide as Hx.
  - apply elem_of_list_to_map_1'.
    + by intros y (? & [= _ ->] & _)%list_elem_of_fmap.
    + apply list_elem_of_fmap. by exists x.
  - apply not_elem_of_list_to_map_1. rewrite <-list_fmap_compose.
    intros (y & -> & ?)%list_elem_of_fmap. done.
Qed.

Lemma add_dep_deps ix sid g dep_name x :
  deps_at (deps (add_dep ix sid g dep_name)) x =
    if decide (x = sid) then deps_at (deps g) sid ∪ edge_target ix sid dep_name
    else deps_at (deps g) x.
Proof.
  unfold add_dep, edge_target.
  destruct (name_to_first_id ix !! dep_name) as [d|].
  2:{ case_decide; subst; [set_solver|done]. }
  destruct (decide (d = sid)) as [->|Hd].
  { case_decide; subst; [set_solver|done]. }
  destruct (decide (d ∈ deps_at (deps g) sid)) as [Hin|Hout].
  { case_decide; subst; [set_solver|done]. }
  simpl. by rewrite deps_at_insert.
Qed.

Lemma add_dep_ok ix sid g dep_name :
  graph_ok g → graph_ok (add_dep ix sid g dep_name).
Proof.
  intros Hok. unfold add_dep.
  destruct (name_to_first_id ix !! dep_name) as [d|]; [|done].
  destruct (decide (d = sid)); [done|].
  destruct (decide (d ∈ deps_at (deps g) sid)) as [Hin|Hout]; [done|].
  intros x. simpl. rewrite deps_at_insert, indeg_at_insert.
  case_decide; subst; [|apply Hok].
  rewrite Hok, size_union by set_solver. rewrite size_singleton. lia.
Qed.

Lemma add_deps_fold_deps ix sid l g x :
  deps_at (deps (foldl (add_dep ix sid) g l)) x =
    if decide (x = sid) then deps_at (deps g) sid ∪ ⋃ (edge_target ix sid <$> l)
    else deps_at (deps g) x.
Proof.
  revert g. induction l as [|n l IH]; intros g; simpl.
  - case_decide; subst; [set_solver|done].
  - rewrite IH, !add_dep_deps. case_decide; subst; [|done].
    rewrite decide_True by done. set_solver.
Qed.

Lemma add_deps_fold_ok ix sid l g :
  graph_ok g → graph_ok (foldl (add_dep ix sid) g l).
Proof.
  revert g. induction l as [|n l IH]; intros g Hok; simpl; [done|].
  by apply IH, add_dep_ok.
Qed.

Lemma add_deps_of_deps iter ix g sid x :
  deps_at (deps (add_deps_of iter ix g sid)) x =
    if decide (x = sid) then deps_at (deps g) sid ∪ edges iter ix sid
    else deps_at (deps g) x.
Proof.
  unfold add_deps_of, edges. destruct (by_id ix !! sid) as [s|].
  - apply add_deps_fold_deps.
  - case_decide; subst; [set_solver|done].
Qed.

Lemma add_deps_of_ok iter ix g sid :
  graph_ok g → graph_ok (add_deps_of iter ix g sid).
Proof.
  intros Hok. unfold add_deps_of. destruct (by_id ix !! sid); [|done].
  by apply add_deps_fold_ok.
Qed.

Lemma build_graph_fold_deps iter ix l g x :
  deps_at (deps (foldl (add_deps_of iter ix) g l)) x =
    deps_at (deps g) x ∪ (if decide (x ∈ l) then edges iter ix x else ∅).
Proof.
  revert g. induction l as [|sid l IH]; intros g; cbn [foldl].
  - rewrite decide_False by (by intros ?%elem_of_nil). set_solver.
  - rewrite IH, add_deps_of_deps.
    destruct (decide (x = sid)) as [->|Hne].
    + rewrite (decide_True (P := sid ∈ sid :: l)) by (by left).
      case_decide; set_solver.
    + destruct (decide (x ∈ l)) as [Hin|Hout].
      * by rewrite decide_True by (by right).
      * rewrite decide_False; [done|]. by intros [?|?]%elem_of_cons.
Qed.

Lemma build_graph_fold_ok iter ix l g :
  graph_ok g → graph_ok (foldl (add_deps_of iter ix) g l).
Proof.
  revert g. induction l as [|n l IH]; intros g Hok; simpl; [done|].
  by apply IH, add_deps_of_ok.
Qed.

Lemma build_graph_deps iter ix x :
  deps_at (deps (build_graph iter ix)) x =
    if decide (x ∈ order ix) then edges iter ix x else ∅.
Proof.
  unfold build_graph. rewrite build_graph_fold_deps. simpl.
  unfold deps_at at 1. rewrite constant_map_lookup.
  repeat case_decide; set_solver.
Qed.

Lemma build_graph_ok iter ix : graph_ok (build_graph iter ix).
Proof.
  apply build_graph_fold_ok. intros x. simpl.
  unfold indeg_at, deps_at. rewrite !constant_map_lookup.
  case_decide; reflexivity.
Qed.

(** ** The loop of the topological sort *)

Lemma kahn_init_inv g order :
  graph_ok g →
  kahn_inv order (deps_at (deps g))
    (filter (λ sid, indeg_at (indeg g) sid = 0) order) (kahn_init g order).
Proof.
  intros Hok. split; simpl.
  - set_solver.
  - done.
  - apply Hok.
  - intros x [Hx _]%list_elem_of_filter. rewrite Hok in Hx.
    assert (size (deps_at (deps g) x) = 0%nat) as Hs by lia.
    apply size_empty_inv in Hs. set_solver.
  - intros i x Hi. by rewrite lookup_nil in Hi.
  - exists []. rewrite app_nil_r. split; [done|]. split; [constructor|].
    by intros a ?%elem_of_nil.
Qed.

Lemma release_out sid st other : k_out (release sid st other) = k_out st.
Proof. unfold release. by repeat case_decide. Qed.

Lemma release_inv order D0 ready0 sid st other :
  kahn_inv order D0 ready0 st → sid ∈ k_out st → other ∈ order →
  kahn_inv order D0 ready0 (release sid st other).
Proof.
  intros [Hcover Hwithin Hcount Hready Hout (A & HA & HndA & HAs)] Hsid Hother.
  unfold release. destruct (decide (sid ∈ deps_at (k_deps st) other)) as [Hin|];
    [|by split; eauto].
  set (deps' := <[other := deps_at (k_deps st) other ∖ {[sid]}]> (k_deps st)).
  set (indeg' := <[other := indeg_at (k_indeg st) other - 1]> (k_indeg st)).
  assert (∀ x, D0 x ⊆ deps_at deps' x ∪ list_to_set (k_out st)) as Hcover'.
  { intros x. unfold deps'. rewrite deps_at_insert. case_decide; subst; [|done].
    intros d Hd. specialize (Hcover other d Hd).
    destruct (decide (d = sid)) as [->|]; set_solver. }
  assert (∀ x, deps_at deps' x ⊆ D0 x) as Hwithin'.
  { intros x. unfold deps'. rewrite deps_at_insert. case_decide; subst; [|done].
    specialize (Hwithin other). set_solver. }
  assert (∀ x, indeg_at indeg' x = Z.of_nat (size (deps_at deps' x))) as Hcount'.
  { intros x. unfold deps', indeg'. rewrite deps_at_insert, indeg_at_insert.
    case_decide; subst; [|done].
    rewrite Hcount, size_difference by set_solver. rewrite size_singleton.
    assert (size (deps_at (k_deps st) other) ≠ 0%nat).
    { intros Hs%size_empty_inv. set_solver. }
    lia. }
  destruct (decide (indeg_at indeg' other = 0 ∧ (other ∉ k_ready_set st)
                    ∧ (other ∉ k_out st))) as [(Hzero & Hnr & Hno)|_].
  - split; simpl; try done.
    + intros x [Hx| ->%list_elem_of_singleton]%elem_of_app; [by apply Hready|].
      rewrite Hcount' in Hzero.
      assert (size (deps_at deps' other) = 0%nat) as Hs by lia.
      apply size_empty_inv in Hs. specialize (Hcover' other). set_solver.
    + exists (A ++ [other]). split; [by rewrite !(assoc_L (++)), HA|]. split.
      * apply NoDup_app. split; [done|]. split; [|apply NoDup_singleton].
        intros a Ha ->%list_elem_of_singleton.
        destruct (HAs _ Ha) as (_ & _ & [?|?]); done.
      * intros a [Ha| ->%list_elem_of_singleton]%elem_of_app.
        -- destruct (HAs _ Ha) as (? & ? & [?|?]); (split; [done|]);
             (split; [done|]); [left; set_solver|by right].
        -- split; [done|]. split; [|left; set_solver].
           specialize (Hwithin other). set_solver.
  - split; simpl; try done. by exists A.
Qed.

Lemma release_fold_inv order D0 ready0 sid l st :
  kahn_inv order D0 ready0 st → sid ∈ k_out st → (∀ o, o ∈ l → o ∈ order) →
  kahn_inv order D0 ready0 (foldl (release sid) st l)
  ∧ k_out (foldl (release sid) st l) = k_out st.
Proof.
  revert st. induction l as [|o l IH]; intros st Hinv Hsid Hl; simpl; [done|].
  destruct (IH (release sid st o)) as [Hinv' Hout'].
  - apply release_inv; [done..|]. apply Hl. by left.
  - by rewrite release_out.
  - intros o' ?. apply Hl. by right.
  - split; [done|]. by rewrite Hout', release_out.
Qed.

Lemma kahn_step_inv order D0 ready0 st st' :
  kahn_inv order D0 ready0 st → kahn_step order st = Some st' →
  kahn_inv order D0 ready0 st'
  ∧ length (k_out st') = S (length (k_out st)).
Proof.
  intros [Hcover Hwithin Hcount Hready Hout (A & HA & HndA & HAs)].
  unfold kahn_step. destruct (k_ready st) as [|sid ready'] eqn:Hr; [done|].
  intros [= <-].
  set (st1 := {| k_deps := k_deps st; k_indeg := k_indeg st; k_ready := ready';
                 k_ready_set := k_ready_set st ∖ {[sid]};
                 k_out := k_out st ++ [sid] |}).
  assert (kahn_inv order D0 ready0 st1) as Hinv1.
  { split; simpl.
    - intros x. specialize (Hcover x). rewrite list_to_set_app_L. set_solver.
    - done.
    - done.
    - intros x Hx. rewrite list_to_set_app_L.
      assert (D0 x ⊆ list_to_set (k_out st)) by (apply Hready; by right).
      set_solver.
    - intros i x Hi. destruct (decide (i < length (k_out st))%nat) as [Hlt|Hge].
      + rewrite lookup_app_l in Hi by done.
        rewrite take_app_le by lia. by apply Hout.
      + rewrite lookup_app_r in Hi by lia.
        apply list_lookup_singleton_Some in Hi as [Hi <-].
        assert (i = length (k_out st)) as -> by lia.
        rewrite take_app_length. apply Hready. by left.
    - exists A. split; [by rewrite <-(assoc_L (++))|]. split; [done|].
      intros a Ha. destruct (HAs _ Ha) as (? & ? & Hor).
      split; [done|]. split; [done|].
      destruct (decide (a = sid)) as [->|]; [right; set_solver|].
      destruct Hor; [left|right]; set_solver. }
  destruct (release_fold_inv order D0 ready0 sid order st1) as [Hinv' Hout'];
    [done| |done|].
  { simpl. set_solver. }
  split; [done|]. rewrite Hout'. simpl. rewrite length_app. simpl. lia.
Qed.

(** No more nodes are ever pending or emitted than [order] has entries. *)
Lemma kahn_inv_bound order D0 st :
  kahn_inv order D0 (filter (λ x, D0 x = ∅) order) st →
  (length (k_out st) + length (k_ready st) ≤ length order)%nat.
Proof.
  intros [_ _ _ _ _ (A & HA & HndA & HAs)].
  rewrite <-length_app, HA, length_app.
  assert (length A ≤ length (filter (λ x, ¬ D0 x = ∅) order))%nat.
  { apply submseteq_length, NoDup_submseteq; [done|].
    intros a Ha. apply list_elem_of_filter. destruct (HAs _ Ha) as (?&?&_). done. }
  pose proof (filter_app_complement (λ x, D0 x = ∅) order) as Hp.
  apply Permutation_length in Hp. rewrite length_app in Hp. lia.
Qed.

Lemma kahn_loop_inv order D0 ready0 fuel st :
  kahn_inv order D0 ready0 st →
  kahn_inv order D0 ready0 (kahn_loop fuel order st).
Proof.
  revert st. induction fuel as [|fuel IH]; intros st Hinv; simpl; [done|].
  destruct (kahn_step order st) as [st'|] eqn:Hstep; [|done].
  apply IH. by eapply kahn_step_inv.
Qed.

Lemma kahn_loop_ready order D0 fuel st :
  kahn_inv order D0 (filter (λ x, D0 x = ∅) order) st →
  (length order ≤ length (k_out st) + fuel)%nat →
  k_ready (kahn_loop fuel order st) = [].
Proof.
  revert st. induction fuel as [|fuel IH]; intros st Hinv Hfuel; simpl.
  - apply kahn_inv_bound in Hinv. apply length_zero_iff_nil. lia.
  - destruct (kahn_step order st) as [st'|] eqn:Hstep.
    + destruct (kahn_step_inv _ _ _ _ _ Hinv Hstep) as [Hinv' Hlen].
      apply IH; [done|lia].
    + unfold kahn_step in Hstep. by destruct (k_ready st).
Qed.

(** ** Correctness of the topological sort *)

Lemma ready_filter_eq g (order : list string) :
  graph_ok g →
  filter (λ sid, indeg_at (indeg g) sid = 0) order
  = filter (λ x, deps_at (deps g) x = ∅) order.
Proof.
  intros Hok. apply list_filter_iff. intros x. rewrite Hok. split.
  - intros Hz. apply leibniz_equiv, size_empty_inv. lia.
  - intros ->. by rewrite size_empty.
Qed.

Lemma kahn_run_inv iter symbols :
  let ix := build_index symbols in
  let g := build_graph iter ix in
  kahn_inv (order ix) (deps_at (deps g))
    (filter (λ x, deps_at (deps g) x = ∅) (order ix)) (kahn_run iter symbols).
Proof.
  intros ix g. unfold kahn_run. apply kahn_loop_inv.
  rewrite <-ready_filter_eq by apply build_graph_ok.
  apply kahn_init_inv, build_graph_ok.
Qed.

(** The [while] loop of the sort ends: after [length order] turns [ready] is
    empty, whatever the list of symbols is. *)
Lemma kahn_run_ready iter symbols : k_ready (kahn_run iter symbols) = [].
Proof.
  unfold kahn_run.
  apply (kahn_loop_ready _
           (deps_at (deps (build_graph iter (build_index symbols))))).
  - rewrite <-ready_filter_eq by apply build_graph_ok.
    apply kahn_init_inv, build_graph_ok.
  - simpl. lia.
Qed.

Lemma kahn_run_out_perm iter symbols :
  NoDup (sid_of <$> symbols) →
  length (k_out (kahn_run iter symbols)) = length symbols →
  k_out (kahn_run iter symbols) ≡ₚ sid_of <$> symbols.
Proof.
  intros Hnd Hlen. pose proof (kahn_run_inv iter symbols) as Hinv.
  pose proof (kahn_run_ready iter symbols) as Hready.
  simpl in Hinv. rewrite build_index_order in Hinv.
  destruct Hinv as [_ _ _ _ _ (A & HA & HndA & HAs)].
  rewrite Hready, app_nil_r in HA.
  apply submseteq_length_Permutation; [|by rewrite length_fmap, Hlen].
  apply NoDup_submseteq.
  - rewrite HA. apply NoDup_app. split; [by apply NoDup_filter|]. split; [|done].
    intros x [Hx _]%list_elem_of_filter Ha. by destruct (HAs _ Ha) as (_ & ? & _).
  - intros x. rewrite HA. intros [[_ ?]%list_elem_of_filter|Ha]%elem_of_app; [done|].
    by destruct (HAs _ Ha) as (? & _).
Qed.

Lemma omap_lookup_total {A B} (f : A → option B) (l : list A) i :
  (∀ x, x ∈ l → is_Some (f x)) → omap f l !! i = l !! i ≫= f.
Proof.
  revert i. induction l as [|x l IH]; intros i Hall; [done|].
  destruct (Hall x) as [y Hy]; [by left|]. simpl. rewrite Hy.
  destruct i as [|i]; simpl; [done|]. apply IH. intros z ?. apply Hall. by right.
Qed.

Lemma omap_by_id symbols :
  NoDup (sid_of <$> symbols) →
  omap (λ sid, by_id (build_index symbols) !! sid) (sid_of <$> symbols) = symbols.
Proof.
  intros Hnd.
  assert (∀ l : list SymbolDef, (∀ s, s ∈ l → s ∈ symbols) →
               omap (λ sid, by_id (build_index symbols) !! sid) (sid_of <$> l) = l)
    as Hgen.
  { induction l as [|s l IH]; intros Hl; [done|]. simpl.
    rewrite build_index_by_id by (done || apply Hl; by left). f_equal.
    apply IH. intros s' ?. apply Hl. by right. }
  by apply Hgen.
Qed.

Lemma edge_recorded iter symbols A B :
  iter_ok iter → NoDup (sid_of <$> symbols) →
  A ∈ symbols → sid_of A ≠ sid_of B →
  sd_name B ∈ _definition_time_deps (stmt_of (sd_node A)) →
  first_registered symbols (sd_name B) = Some B →
  sid_of B ∈ deps_at (deps (build_graph iter (build_index symbols))) (sid_of A).
Proof.
  intros Hiter Hnd HA Hne Hdep Hfirst.
  rewrite build_graph_deps, build_index_order.
  rewrite decide_True by (by apply list_elem_of_fmap_2).
  unfold edges. rewrite build_index_by_id by done.
  apply elem_of_union_list. exists {[sid_of B]}. split; [|set_solver].
  apply list_elem_of_fmap. exists (sd_name B). split.
  - unfold edge_target. rewrite build_index_first, Hfirst. simpl.
    by rewrite decide_False by done.
  - rewrite (Hiter _). by apply elem_of_elements.
Qed.

(** C4.  For symbols with pairwise distinct identifiers: the loop of the sort
    runs to its end; when it has emitted every node, the result is a
    rearrangement of the input in which, for all distinct symbols A and B such
    that A's definition-time dependencies hold B's name and B is the first
    symbol registered under that name, B stands strictly before A; and when it
    has not emitted every node, the result is the whole input list in its
    original order. *)
Theorem toposort_symbols_order iter symbols :
  iter_ok iter →
  NoDup (sid_of <$> symbols) →
  k_ready (kahn_run iter symbols) = []
  ∧ (sort_complete iter symbols = true →
       _toposort_symbols iter symbols ≡ₚ symbols
       ∧ ∀ A B, A ∈ symbols → B ∈ symbols → A ≠ B →
           sd_name B ∈ _definition_time_deps (stmt_of (sd_node A)) →
           first_registered symbols (sd_name B) = Some B →
           ∃ i j, _toposort_symbols iter symbols !! i = Some B
                  ∧ _toposort_symbols iter symbols !! j = Some A
                  ∧ (i < j)%nat)
  ∧ (sort_complete iter symbols = false →
       _toposort_symbols iter symbols = symbols).
Proof.
  intros Hiter Hnd. split; [apply kahn_run_ready|]. split.
  - intros Hlen%bool_decide_eq_true.
    assert (_toposort_symbols iter symbols
            = omap (λ sid, by_id (build_index symbols) !! sid)
                (k_out (kahn_run iter symbols))) as Hres.
    { unfold _toposort_symbols. destruct symbols as [|s symbols]; [|].
      - done.
      - rewrite build_index_order, length_fmap.
        by rewrite decide_False by (intros ?; done). }
    pose proof (kahn_run_out_perm iter symbols Hnd Hlen) as Hperm.
    assert (∀ x, x ∈ k_out (kahn_run iter symbols) →
                 ∃ s, s ∈ symbols ∧ x = sid_of s
                      ∧ by_id (build_index symbols) !! x = Some s) as Hout.
    { intros x Hx. rewrite Hperm in Hx.
      apply list_elem_of_fmap in Hx as (s & -> & Hs).
      exists s. by rewrite build_index_by_id. }
    split.
    + rewrite Hres, Hperm. by rewrite omap_by_id.
    + intros A B HA HB HAB Hdep Hfirst.
      assert (sid_of A ≠ sid_of B) as Hne.
      { intros Heq. apply HAB.
        apply list_elem_of_lookup in HA as [i Hi], HB as [j Hj].
        assert (i = j) as ->; [|congruence].
        apply (NoDup_lookup (sid_of <$> symbols) i j (sid_of A)); [done|..];
          rewrite list_lookup_fmap; [by rewrite Hi|by rewrite Hj, Heq]. }
      pose proof (edge_recorded iter symbols A B Hiter Hnd HA Hne Hdep Hfirst)
        as Hedge.
      assert (sid_of A ∈ k_out (kahn_run iter symbols)) as HAout.
      { rewrite Hperm. by apply list_elem_of_fmap_2. }
      apply list_elem_of_lookup in HAout as [j Hj].
      destruct (kahn_run_inv iter symbols) as [_ _ _ _ Hvalid _].
      specialize (Hvalid j (sid_of A) Hj (sid_of B) Hedge).
      apply elem_of_list_to_set, elem_of_take in Hvalid as (i & Hi & Hij).
      exists i, j. rewrite Hres, !omap_lookup_total.
      2,3: intros x Hx; destruct (Hout x Hx) as (s & _ & _ & ->); by eexists.
      rewrite Hi, Hj. simpl. by rewrite !build_index_by_id.
  - intros Hlen%bool_decide_eq_false. unfold _toposort_symbols.
    destruct symbols as [|s symbols]; [done|].
    rewrite build_index_order, length_fmap. by rewrite decide_True.
Qed.

Lemma iter_ok_elements : iter_ok elements.
Proof. intros X. reflexivity. Defined.

Lemma toposort_symbols_order_witness :
  ∃ i j, _toposort_symbols elements [sym_foo; sym_base] !! i = Some sym_base
         ∧ _toposort_symbols elements [sym_foo; sym_base] !! j = Some sym_foo
         ∧ (i < j)%nat.
Proof.
  assert (NoDup (sid_of <$> [sym_foo; sym_base])) as Hnd.
  { apply (bool_decide_unpack _). vm_compute. exact I. }
  destruct (toposort_symbols_order elements [sym_foo; sym_base]
              iter_ok_elements Hnd) as (_ & Hsorted & _).
  destruct Hsorted as [_ Hord]; [vm_compute; reflexivity|].
  apply (Hord sym_foo sym_base).
  - by left.
  - right; by left.
  - intros [=].
  - apply (bool_decide_unpack _). vm_compute. exact I.
  - vm_compute. reflexivity.
Defined.

(** ** The symbol closure: what a turn of the loop does *)

Lemma closure_body_Ok iter W root item st st' :
  closure_body iter W root item st = Ok st' →
  ∃ md ld' n sym cache',
    get_module W root (imp_module item) (cs_loader st) = Ok (md, ld')
    ∧ _build_symbol_table md !! imp_name item = Some n
    ∧ ((symbol_cache st !! (imp_module item, imp_name item) = Some sym
        ∧ cache' = symbol_cache st)
       ∨ (_extract_symbol_def md (imp_name item) n = Ok sym
          ∧ cache' = <[(imp_module item, imp_name item) := sym]> (symbol_cache st)))
    ∧ ((sd_name sym ∈ included_names st ∧ st' = skipped_state item ld' cache' st)
       ∨ ((sd_name sym ∉ included_names st)
          ∧ st' = included_state item ld' cache' st sym
                    (enqueue_deps (imp_module item) (_build_symbol_table md)
                       (included_names st ∪ {[sd_name sym]}) (queue st)
                       (sorted (iter (_name_loads_in
                                        (NStmt (stmt_of (sd_node sym))))))))).
Proof.
  unfold closure_body.
  destruct (get_module W root (imp_module item) (cs_loader st))
    as [[md ld']|e] eqn:Hget; simpl; [|done].
  destruct (_build_symbol_table md !! imp_name item) as [n|] eqn:Hn; [|done].
  destruct (symbol_cache st !! (imp_module item, imp_name item))
    as [sym|] eqn:Hc; simpl.
  - intros Hst. exists md, ld', n, sym, (symbol_cache st).
    split; [done|]. split; [done|]. split; [by left|].
    destruct (decide (sd_name sym ∈ included_names st)); simplify_eq; eauto.
  - destruct (_extract_symbol_def md (imp_name item) n) as [sym|e] eqn:He;
      simpl; [|done].
    intros Hst.
    exists md, ld', n, sym,
      (<[(imp_module item, imp_name item) := sym]> (symbol_cache st)).
    split; [done|]. split; [done|]. split; [by right|].
    destruct (decide (sd_name sym ∈ included_names st)); simplify_eq; eauto.
Qed.

Lemma parse_module_source_module W m root md :
  _parse_module_source W m root = Ok md → ms_module md = m.
Proof.
  unfold _parse_module_source.
  destruct (_resolve_module_path W m root) as [path|]; simpl; [|done].
  destruct (read_text W path); [|done].
  destruct (ast_parse W _); [|done]. by intros [= <-].
Qed.

Lemma extract_symbol_def_Ok md name n sym :
  _extract_symbol_def md name n = Ok sym →
  sd_name sym = name ∧ sd_node sym = n ∧ sd_module sym = ms_module md.
Proof.
  unfold _extract_symbol_def. destruct (truthy _); [|done]. by intros [= <-].
Qed.

Lemma get_module_Ok W root m ld md ld' :
  cache_ok W root ld → get_module W root m ld = Ok (md, ld') →
  _parse_module_source W m root = Ok md ∧ cache_ok W root ld'.
Proof.
  intros Hok. unfold get_module.
  destruct (module_cache ld !! m) as [md0|] eqn:Hm.
  - intros [= <- <-]. split; [by apply Hok|done].
  - destruct (_parse_module_source W m root) as [md0|] eqn:Hp; simpl; [|done].
    intros [= <- <-]. split; [done|]. intros m' md'. simpl.
    rewrite lookup_insert. case_decide; subst; [by intros [= <-]|by apply Hok].
Qed.

Lemma module_table_of W root m md :
  _parse_module_source W m root = Ok md →
  module_table W root m = _build_symbol_table md.
Proof. unfold module_table. by intros ->. Qed.

Lemma enqueue_deps_eq module table names q deps :
  enqueue_deps module table names q deps =
    q ++ ((λ dep, {| imp_module := module; imp_name := dep; imp_asname := None |})
            <$> filter (wanted table names) deps).
Proof.
  revert q. induction deps as [|d deps IH]; intros q; simpl.
  - by rewrite app_nil_r.
  - unfold enqueue_deps in *. rewrite IH, filter_cons.
    destruct (decide (d ∈ names)).
    + by rewrite decide_False by (by intros [??]).
    + destruct (decide (is_Some (table !! d))).
      * rewrite decide_True by done. by rewrite <-(assoc_L (++)).
      * by rewrite decide_False by (by intros [??]).
Qed.

Lemma sorted_perm l : sorted l ≡ₚ l.
Proof. apply merge_sort_Permutation. Qed.

Lemma sorted_iter_nodup iter X : iter_ok iter → NoDup (sorted (iter X)).
Proof. intros Hiter. rewrite sorted_perm, (Hiter X). apply NoDup_elements. Qed.

Lemma elem_of_sorted_iter iter X x :
  iter_ok iter → x ∈ sorted (iter X) ↔ x ∈ X.
Proof. intros Hiter. by rewrite sorted_perm, (Hiter X), elem_of_elements. Qed.

Lemma wanted_length (table : gmap string node) names deps :
  NoDup deps → (length (filter (wanted table names) deps) ≤ size table)%nat.
Proof.
  intros Hnd. rewrite <-(size_dom (D := gset string)).
  rewrite <-(size_list_to_set (C := gset string))
    by (by apply NoDup_filter).
  apply subseteq_size. intros d [[_ Hd] _]%elem_of_list_to_set%list_elem_of_filter.
  by apply elem_of_dom.
Qed.

(** ** The symbol closure: invariant and termination *)

Lemma closure_init_inv W root imported :
  closure_inv W root imported (closure_init imported).
Proof.
  split; simpl.
  - intros item ?. by constructor.
  - done.
  - constructor.
  - by intros s ?%elem_of_nil.
  - intros m md. simpl. by rewrite lookup_empty.
  - intros m n sym. by rewrite lookup_empty.
  - by intros s dep ?%elem_of_nil.
Qed.

(** What a turn of the loop knows about the symbol it has materialized. *)
Lemma closure_body_symbol W root imported st item md ld' n sym cache' :
  closure_inv W root imported st →
  get_module W root (imp_module item) (cs_loader st) = Ok (md, ld') →
  _build_symbol_table md !! imp_name item = Some n →
  (symbol_cache st !! (imp_module item, imp_name item) = Some sym
   ∧ cache' = symbol_cache st)
  ∨ (_extract_symbol_def md (imp_name item) n = Ok sym
     ∧ cache' = <[(imp_module item, imp_name item) := sym]> (symbol_cache st)) →
  _build_symbol_table md = module_table W root (imp_module item)
  ∧ cache_ok W root ld'
  ∧ sd_name sym = imp_name item ∧ sd_module sym = imp_module item
  ∧ module_table W root (imp_module item) !! imp_name item = Some (sd_node sym)
  ∧ ∀ m k sym', cache' !! (m, k) = Some sym' →
       sd_name sym' = k ∧ sd_module sym' = m
       ∧ module_table W root m !! k = Some (sd_node sym').
Proof.
  intros Hinv Hget Hn Hsym.
  destruct (get_module_Ok _ _ _ _ _ _ (ci_cache _ _ _ _ Hinv) Hget)
    as [Hparse Hcache].
  pose proof (module_table_of _ _ _ _ Hparse) as Htable.
  split; [done|]. split; [done|].
  destruct Hsym as [[Hc ->]|[He ->]].
  - destruct (ci_symbols _ _ _ _ Hinv _ _ _ Hc) as (? & ? & ?).
    repeat (split; [done|]). apply (ci_symbols _ _ _ _ Hinv).
  - apply extract_symbol_def_Ok in He as (Hname & Hnode & Hmod).
    rewrite (parse_module_source_module _ _ _ _ Hparse) in Hmod.
    assert (module_table W root (imp_module item) !! imp_name item
            = Some (sd_node sym)) as Hlook by (by rewrite Htable, Hnode).
    repeat (split; [done|]).
    intros m k sym'. rewrite lookup_insert. case_decide as Hk.
    + intros [= <-]. by simplify_eq.
    + apply (ci_symbols _ _ _ _ Hinv).
Qed.

Lemma closure_body_inv iter W root imported st item q st' :
  iter_ok iter → closure_inv W root imported st → queue st = item :: q →
  closure_body iter W root item (pop_queue st q) = Ok st' →
  closure_inv W root imported st'.
Proof.
  intros Hiter Hinv Hq Hbody.
  apply closure_body_Ok in Hbody
    as (md & ld' & n & sym & cache' & Hget & Hn & Hsym & Hst').
  simpl in *.
  destruct (closure_body_symbol W root imported st item md ld' n sym cache'
              Hinv Hget Hn Hsym)
    as (Htable & Hcache & Hname & Hmod & Hlook & Hsyms).
  destruct Hinv as [Hqueue Hnames Hnodup Hincl _ _ Hpend].
  assert (reachable W root imported (imp_module item, imp_name item)) as Hitem.
  { apply Hqueue. rewrite Hq. by left. }
  destruct Hst' as [[Hold ->]|[Hnew ->]]; split; simpl; try done.
  - intros item' ?. apply Hqueue. rewrite Hq. by right.
  - intros s dep Hs Hdep Htab.
    destruct (Hpend s dep Hs Hdep Htab) as [?|(item' & Hin & Hm & Hd)]; [by left|].
    rewrite Hq in Hin. apply elem_of_cons in Hin as [->|Hin].
    + left. by rewrite <-Hd, <-Hname.
    + right. by exists item'.
  - intros item'. rewrite enqueue_deps_eq.
    intros [Hin|Hin]%elem_of_app; [apply Hqueue; rewrite Hq; by right|].
    apply list_elem_of_fmap in Hin as (dep & -> & Hdep). simpl.
    apply list_elem_of_filter in Hdep as [[_ Htab] Hdep].
    apply (elem_of_sorted_iter iter _ _ Hiter) in Hdep. simpl in Hdep.
    eapply reach_dep; [done..|]. by rewrite <-Htable.
  - rewrite fmap_app, list_to_set_app_L, Hnames. simpl. set_solver.
  - rewrite fmap_app. apply NoDup_app. split; [done|].
    split; [|apply NoDup_singleton].
    intros x Hx ->%list_elem_of_singleton. apply Hnew.
    rewrite Hnames. by apply elem_of_list_to_set.
  - intros s [Hs| ->%list_elem_of_singleton]%elem_of_app; [by apply Hincl|].
    by rewrite Hname, Hmod.
  - intros s dep [Hs|Hs]%elem_of_app Hdep Htab.
    + destruct (Hpend s dep Hs Hdep Htab) as [?|(item' & Hin & Hm & Hd)];
        [left; set_solver|].
      rewrite Hq in Hin. apply elem_of_cons in Hin as [->|Hin].
      * left. rewrite <-Hd, <-Hname. set_solver.
      * right. exists item'. split; [|done].
        rewrite enqueue_deps_eq. apply elem_of_app. by left.
    + apply list_elem_of_singleton in Hs as ->.
      destruct (decide (dep ∈ included_names st ∪ {[sd_name sym]}));
        [by left|right].
      eexists {| imp_module := imp_module item; imp_name := dep;
                 imp_asname := None |}.
      split; [|by rewrite Hmod].
      rewrite enqueue_deps_eq. apply elem_of_app. right.
      apply list_elem_of_fmap. exists dep. split; [done|].
      apply list_elem_of_filter. split.
      * split; [done|]. by rewrite Htable, <-Hmod.
      * by apply (elem_of_sorted_iter iter _ _ Hiter).
Qed.

Lemma reachable_module W root imported p :
  reachable W root imported p →
  ∃ item, item ∈ imported ∧ imp_module item = p.1.
Proof. induction 1 as [item Hitem|m n nd dep _ IH _ _ _]; [by exists item|done]. Qed.

Lemma table_size_le W root imported m n :
  reachable W root imported (m, n) →
  (size (module_table W root m) ≤ table_total W root imported)%nat.
Proof.
  intros (item & Hitem & Hm)%reachable_module. simpl in Hm. subst m.
  apply (sum_list_with_in item
           (λ i, size (module_table W root (imp_module i))) imported Hitem).
Qed.

Lemma size_all_names W root imported :
  (size (all_names W root imported) ≤ table_total W root imported)%nat.
Proof.
  unfold all_names, table_total.
  induction imported as [|i imported IH].
  - apply Nat.eq_le_incl. reflexivity.
  - rewrite fmap_cons, union_list_cons. cbn [sum_list_with].
    rewrite size_union_alt, size_dom.
    assert (size (⋃ ((λ i0, dom (module_table W root (imp_module i0)))
                       <$> imported) ∖ dom (module_table W root (imp_module i)))
            ≤ size (⋃ ((λ i0, dom (module_table W root (imp_module i0)))
                         <$> imported) : gset string))%nat
      by (apply subseteq_size; set_solver).
    lia.
Qed.

Lemma included_bound W root imported st :
  closure_inv W root imported st →
  (length (included st) ≤ table_total W root imported)%nat.
Proof.
  intros Hinv. etrans; [|apply size_all_names].
  rewrite <-(length_fmap sd_name).
  rewrite <-(size_list_to_set (C := gset string)) by apply (ci_nodup _ _ _ _ Hinv).
  apply subseteq_size. intros x (s & -> & Hs)%elem_of_list_to_set%list_elem_of_fmap.
  destruct (ci_included _ _ _ _ Hinv s Hs) as [Hreach Hlook].
  apply reachable_module in Hreach as (item & Hitem & Hmod). simpl in Hmod.
  apply elem_of_union_list. exists (dom (module_table W root (imp_module item))).
  split.
  - apply list_elem_of_fmap. by exists item.
  - rewrite Hmod. apply elem_of_dom. by eexists.
Qed.

Lemma closure_body_potential iter W root imported st item q st' :
  iter_ok iter → closure_inv W root imported st → queue st = item :: q →
  closure_body iter W root item (pop_queue st q) = Ok st' →
  (potential W root imported st' < potential W root imported st)%nat.
Proof.
  intros Hiter Hinv Hq Hbody.
  pose proof (closure_body_inv _ _ _ _ _ _ _ _ Hiter Hinv Hq Hbody) as Hinv'.
  pose proof (included_bound _ _ _ _ Hinv') as Hbound.
  apply closure_body_Ok in Hbody
    as (md & ld' & n & sym & cache' & Hget & Hn & Hsym & Hst').
  simpl in *.
  destruct (closure_body_symbol W root imported st item md ld' n sym cache'
              Hinv Hget Hn Hsym) as (Htable & _).
  unfold potential. rewrite Hq.
  destruct Hst' as [[Hold ->]|[Hnew ->]]; simpl in *; [lia|].
  rewrite enqueue_deps_eq, !length_app, length_fmap in *. simpl in *.
  assert (length (filter (wanted (_build_symbol_table md)
                            (included_names st ∪ {[sd_name sym]}))
                    (sorted (iter (stmt_loads (stmt_of (sd_node sym))))))
          ≤ table_total W root imported)%nat as Hk.
  { etrans; [apply wanted_length, sorted_iter_nodup, Hiter|].
    rewrite Htable. apply (table_size_le _ _ _ _ (imp_name item)).
    apply (ci_queue _ _ _ _ Hinv). rewrite Hq. by left. }
  nia.
Qed.

Lemma closure_loop_terminates iter W root imported fuel st :
  iter_ok iter → closure_inv W root imported st →
  (potential W root imported st ≤ fuel)%nat →
  ∃ r, closure_loop iter W root fuel st = Some r
       ∧ ∀ st', r = Ok st' → closure_inv W root imported st' ∧ queue st' = [].
Proof.
  intros Hiter. revert st. induction fuel as [|fuel IH]; intros st Hinv Hfuel.
  - unfold potential in Hfuel. destruct (queue st) as [|item q] eqn:Hq.
    + exists (Ok st). simpl. rewrite Hq. split; [done|]. by intros st' [= <-].
    + simpl in Hfuel. by apply Nat.nle_succ_0 in Hfuel.
  - simpl. destruct (queue st) as [|item q] eqn:Hq.
    + exists (Ok st). split; [done|]. by intros st' [= <-].
    + destruct (closure_body iter W root item (pop_queue st q))
        as [st1|e] eqn:Hbody.
      * apply IH.
        -- by eapply closure_body_inv.
        -- pose proof (closure_body_potential _ _ _ _ _ _ _ _
                         Hiter Hinv Hq Hbody). lia.
      * exists (Raise e). split; [done|]. by intros st' [=].
Qed.

Lemma closure_returns iter W root imported :
  iter_ok iter →
  ∃ r, closure iter W root imported = Some r
       ∧ ∀ st, r = Ok st → closure_inv W root imported st ∧ queue st = [].
Proof.
  intros Hiter. apply closure_loop_terminates; [done|apply closure_init_inv|].
  unfold potential, closure_fuel, table_total. simpl. lia.
Qed.

Lemma enqueue_deps_absent module table names q deps item :
  item ∈ enqueue_deps module table names q deps →
  item ∈ q
  ∨ ((imp_name item ∉ names) ∧ is_Some (table !! imp_name item)
     ∧ imp_module item = module ∧ imp_name item ∈ deps).
Proof.
  rewrite enqueue_deps_eq. intros [?|Hin]%elem_of_app; [by left|right].
  apply list_elem_of_fmap in Hin as (dep & -> & Hdep). simpl.
  by apply list_elem_of_filter in Hdep as [[??] ?].
Qed.

(** C8.  The closure loop ends on every input: run for the number of turns
    [closure_fuel] computes, it has either raised or emptied the queue.  The
    number of symbols it includes is at most the number of distinct reachable
    (module, name) pairs; and the loop over the loads of a newly included
    definition appends to the queue only names that are absent from the
    included set and defined by the module's table. *)
Theorem closure_terminates iter W root imported :
  iter_ok iter →
  (∃ r, closure iter W root imported = Some r
        ∧ ∀ st, r = Ok st →
            queue st = []
            ∧ ∀ L : list (string * string),
                (∀ p, reachable W root imported p → p ∈ L) →
                (length (included st) ≤ length L)%nat)
  ∧ (∀ module table names q deps item,
       item ∈ enqueue_deps module table names q deps →
       item ∈ q
       ∨ ((imp_name item ∉ names) ∧ is_Some (table !! imp_name item)
          ∧ imp_module item = module ∧ imp_name item ∈ deps)).
Proof.
  intros Hiter. split; [|apply enqueue_deps_absent].
  destruct (closure_returns iter W root imported Hiter) as (r & Hr & Hfinal).
  exists r. split; [done|]. intros st Hst.
  destruct (Hfinal st Hst) as [Hinv Hq]. split; [done|]. intros L HL.
  rewrite <-(length_fmap (λ s, (sd_module s, sd_name s))).
  apply submseteq_length, NoDup_submseteq.
  - apply (NoDup_fmap_1 snd). rewrite <-list_fmap_compose.
    apply (ci_nodup _ _ _ _ Hinv).
  - intros p (s & -> & Hs)%list_elem_of_fmap. apply HL.
    by apply (ci_included _ _ _ _ Hinv).
Qed.

(** The sort only rearranges its input. *)
Lemma toposort_symbols_perm iter symbols :
  NoDup (sid_of <$> symbols) → _toposort_symbols iter symbols ≡ₚ symbols.
Proof.
  intros Hnd. unfold _toposort_symbols. destruct symbols as [|s symbols]; [done|].
  rewrite build_index_order, length_fmap. case_decide as Hlen; [done|].
  rewrite (kahn_run_out_perm iter _ Hnd Hlen). by rewrite omap_by_id.
Qed.

(** C1 (as the code has it).  The closure deduplicates by bare name: in the
    included list of a closure that ends without an error no two symbols bear
    the same name, and every name loaded inside an included definition that
    the table of that definition's module defines is the name of an included
    symbol.  When the identifiers [module:name:line] of the included symbols
    are pairwise distinct, the sort returns a rearrangement of the included
    list, so both facts hold of the final list as well. *)
Theorem closure_included_names iter W root imported st :
  iter_ok iter →
  closure iter W root imported = Some (Ok st) →
  NoDup (sid_of <$> included st) →
  let final := _toposort_symbols iter (included st) in
  final ≡ₚ included st
  ∧ NoDup (sd_name <$> final)
  ∧ ∀ s dep,
      s ∈ final →
      dep ∈ _name_loads_in (NStmt (stmt_of (sd_node s))) →
      is_Some (module_table W root (sd_module s) !! dep) →
      dep ∈ sd_name <$> final.
Proof.
  intros Hiter Hclosure Hsid final.
  destruct (closure_returns iter W root imported Hiter) as (r & Hr & Hfinal).
  rewrite Hclosure in Hr. injection Hr as <-.
  destruct (Hfinal st eq_refl) as [Hinv Hq].
  assert (final ≡ₚ included st) as Hperm by by apply toposort_symbols_perm.
  split; [done|]. split.
  - rewrite Hperm. apply (ci_nodup _ _ _ _ Hinv).
  - intros s dep Hs Hdep Htab. rewrite Hperm in Hs |- *.
    destruct (ci_pending _ _ _ _ Hinv s dep Hs Hdep Htab)
      as [Hin|(item & Hitem & _)].
    + rewrite (ci_names _ _ _ _ Hinv) in Hin. by apply elem_of_list_to_set in Hin.
    + rewrite Hq in Hitem. by apply elem_of_nil in Hitem.
Qed.

Lemma closure_terminates_witness :
  ∃ r, closure elements world_helpers [] helpers_imports = Some r
       ∧ ∀ st, r = Ok st →
           queue st = []
           ∧ ∀ L : list (string * string),
               (∀ p, reachable world_helpers [] helpers_imports p → p ∈ L) →
               (length (included st) ≤ length L)%nat.
Proof.
  exact (proj1 (closure_terminates elements world_helpers [] helpers_imports
                  iter_ok_elements)).
Defined.

Lemma closure_included_names_witness :
  sd_name <$> _toposort_symbols elements (included helpers_closure)
  = ["BASE"; "register"; "foo"]
  ∧ NoDup (sd_name <$> _toposort_symbols elements (included helpers_closure)).
Proof.
  split; [vm_compute; reflexivity|].
  assert (closure elements world_helpers [] helpers_imports
          = Some (Ok helpers_closure)) as Hclosure by (vm_compute; reflexivity).
  assert (NoDup (sid_of <$> included helpers_closure)) as Hsid.
  { apply (bool_decide_unpack _). vm_compute. exact I. }
  exact (proj1 (proj2 (closure_included_names elements world_helpers []
                         helpers_imports helpers_closure iter_ok_elements
                         Hclosure Hsid))).
Defined.

(** C1 (counterexample).  Both [lib.a] and [lib.b] define [foo] and the entry
    file imports both; the closure includes the [foo] of [lib.a] only, and the
    [foo] of [lib.b] is in neither the included list nor the final list. *)
Lemma closure_same_name_dropped :
  _parse_imported_symbols same_name_entry_tree = Ok same_name_imports
  ∧ is_Some (module_table world_same_name [] "lib.a" !! "foo")
  ∧ is_Some (module_table world_same_name [] "lib.b" !! "foo")
  ∧ closure elements world_same_name [] same_name_imports
    = Some (Ok same_name_closure)
  ∧ (λ s, (sd_module s, sd_name s)) <$> included same_name_closure
    = [("lib.a", "foo")]
  ∧ (λ s, (sd_module s, sd_name s))
      <$> _toposort_symbols elements (included same_name_closure)
    = [("lib.a", "foo")]
  ∧ (("lib.b", "foo")
       ∉ (λ s, (sd_module s, sd_name s))
           <$> _toposort_symbols elements (included same_name_closure))
  ∧ aliases same_name_closure = ["foo_b = foo"].
Proof.
  split; [reflexivity|]. split; [by eexists|]. split; [by eexists|].
  split; [vm_compute; reflexivity|].
  split; [reflexivity|]. split; [reflexivity|]. split; [|reflexivity].
  assert ((λ s, (sd_module s, sd_name s))
            <$> _toposort_symbols elements (included same_name_closure)
          = [("lib.a", "foo")]) as -> by reflexivity.
  by intros [[=]|?%elem_of_nil]%elem_of_cons.
Qed.

(** ** Independence of the iteration order of sets *)

Lemma sorted_iter_eq iter1 iter2 X :
  iter_ok iter1 → iter_ok iter2 → sorted (iter1 X) = sorted (iter2 X).
Proof.
  intros H1 H2. apply (Sorted_unique String.le).
  - apply Sorted_merge_sort; apply _.
  - apply Sorted_merge_sort; apply _.
  - by rewrite !sorted_perm, (H1 X), (H2 X).
Qed.

Lemma closure_body_iter iter1 iter2 W root item st :
  iter_ok iter1 → iter_ok iter2 →
  closure_body iter1 W root item st = closure_body iter2 W root item st.
Proof.
  intros H1 H2. unfold closure_body.
  destruct (get_module _ _ _ _) as [ml|]; simpl; [|done].
  destruct (_ !! imp_name item); [|done].
  destruct (match symbol_cache st !! _ with Some _ => _ | None => _ end);
    simpl; [|done].
  case_decide; [done|]. by rewrite (sorted_iter_eq iter1 iter2).
Qed.

Lemma closure_loop_iter iter1 iter2 W root fuel st :
  iter_ok iter1 → iter_ok iter2 →
  closure_loop iter1 W root fuel st = closure_loop iter2 W root fuel st.
Proof.
  intros H1 H2. revert st. induction fuel as [|fuel IH]; intros st; simpl; [done|].
  destruct (queue st) as [|item q]; [done|].
  rewrite (closure_body_iter iter1 iter2) by done.
  destruct (closure_body iter2 W root item (pop_queue st q)); [apply IH|done].
Qed.

Lemma add_dep_target ix sid g dep_name :
  add_dep ix sid g dep_name =
    match name_to_first_id ix !! dep_name with
    | Some d => if decide (d = sid) then g else add_target sid g d
    | None => g
    end.
Proof. done. Qed.

Lemma add_target_in sid g d :
  d ∈ deps_at (deps g) sid → add_target sid g d = g.
Proof. intros Hd. unfold add_target. by rewrite decide_True. Qed.

Lemma add_target_notin sid g d :
  d ∉ deps_at (deps g) sid →
  add_target sid g d =
    {| deps := <[sid := deps_at (deps g) sid ∪ {[d]}]> (deps g);
       indeg := <[sid := indeg_at (indeg g) sid + 1]> (indeg g) |}.
Proof. intros Hd. unfold add_target. by rewrite decide_False. Qed.

Lemma deps_at_add_target sid g d :
  deps_at (deps (add_target sid g d)) sid = deps_at (deps g) sid ∪ {[d]}.
Proof.
  destruct (decide (d ∈ deps_at (deps g) sid)) as [Hd|Hd].
  - rewrite add_target_in by done. set_solver.
  - rewrite add_target_notin by done. simpl.
    by rewrite deps_at_insert, decide_True.
Qed.

Lemma add_target_comm sid g d1 d2 :
  add_target sid (add_target sid g d1) d2
  = add_target sid (add_target sid g d2) d1.
Proof.
  destruct (decide (d1 = d2)) as [->|Hne]; [done|].
  destruct (decide (d1 ∈ deps_at (deps g) sid)) as [H1|H1];
    destruct (decide (d2 ∈ deps_at (deps g) sid)) as [H2|H2].
  - by rewrite (add_target_in sid g d1), (add_target_in sid g d2),
      (add_target_in sid g d1).
  - rewrite (add_target_in sid g d1) by done.
    rewrite (add_target_in sid (add_target sid g d2) d1); [done|].
    rewrite deps_at_add_target. set_solver.
  - rewrite (add_target_in sid g d2) by done.
    rewrite (add_target_in sid (add_target sid g d1) d2); [done|].
    rewrite deps_at_add_target. set_solver.
  - rewrite (add_target_notin sid (add_target sid g d1) d2)
      by (rewrite deps_at_add_target; set_solver).
    rewrite (add_target_notin sid (add_target sid g d2) d1)
      by (rewrite deps_at_add_target; set_solver).
    rewrite !deps_at_add_target.
    rewrite (add_target_notin sid g d1), (add_target_notin sid g d2) by done.
    simpl. rewrite !indeg_at_insert, !decide_True by done.
    rewrite !insert_insert_eq. f_equal. f_equal. set_solver.
Qed.

Lemma add_dep_comm ix sid g a b :
  add_dep ix sid (add_dep ix sid g a) b = add_dep ix sid (add_dep ix sid g b) a.
Proof.
  rewrite !add_dep_target.
  destruct (name_to_first_id ix !! a) as [da|], (name_to_first_id ix !! b) as [db|];
    try done.
  destruct (decide (da = sid)), (decide (db = sid)); try done.
  apply add_target_comm.
Qed.

Lemma add_dep_fold_perm ix sid l1 l2 g :
  l1 ≡ₚ l2 → foldl (add_dep ix sid) g l1 = foldl (add_dep ix sid) g l2.
Proof.
  intros Hp. revert g.
  induction Hp as [|x l1 l2 _ IH|x y l|l1 l2 l3 _ IH1 _ IH2]; intros g; simpl.
  - done.
  - apply IH.
  - by rewrite add_dep_comm.
  - by rewrite IH1.
Qed.

Lemma build_graph_iter iter1 iter2 ix :
  iter_ok iter1 → iter_ok iter2 → build_graph iter1 ix = build_graph iter2 ix.
Proof.
  intros H1 H2. unfold build_graph.
  generalize {| deps := list_to_map ((λ sid, (sid, ∅)) <$> order ix);
                indeg := list_to_map ((λ sid, (sid, 0)) <$> order ix) |}.
  induction (order ix) as [|sid l IH]; intros g; simpl; [done|].
  rewrite IH. f_equal. unfold add_deps_of. destruct (by_id ix !! sid); [|done].
  apply add_dep_fold_perm. by rewrite (H1 _), (H2 _).
Qed.

Lemma toposort_symbols_iter iter1 iter2 symbols :
  iter_ok iter1 → iter_ok iter2 →
  _toposort_symbols iter1 symbols = _toposort_symbols iter2 symbols.
Proof.
  intros H1 H2. unfold _toposort_symbols, kahn_run.
  by rewrite (build_graph_iter iter1 iter2).
Qed.

Lemma add_deps_of_iter iter1 iter2 ix g sid :
  iter_ok iter1 → iter_ok iter2 →
  add_deps_of iter1 ix g sid = add_deps_of iter2 ix g sid.
Proof.
  intros H1 H2. unfold add_deps_of. destruct (by_id ix !! sid); [|done].
  apply add_dep_fold_perm. by rewrite (H1 _), (H2 _).
Qed.

Lemma closure_loop_at_iter s iter W root k fuel st :
  (∀ k item st,
     closure_body (s k) W root item st = closure_body iter W root item st) →
  closure_loop_at s W root k fuel st = closure_loop iter W root fuel st.
Proof.
  intros Hs. revert k st. induction fuel as [|fuel IH]; intros k st; simpl;
    [done|].
  destruct (queue st) as [|item q]; [done|]. rewrite Hs.
  destruct (closure_body iter W root item (pop_queue st q)); [apply IH|done].
Qed.

Lemma build_graph_from_iter s iter ix k g l :
  (∀ k g sid, add_deps_of (s k) ix g sid = add_deps_of iter ix g sid) →
  build_graph_from s ix k g l = foldl (add_deps_of iter ix) g l.
Proof.
  intros Hs. revert k g. induction l as [|sid l IH]; intros k g; simpl; [done|].
  by rewrite Hs, IH.
Qed.

Lemma bundle_file_at_iter s1 s2 iter W entry_path root :
  (∀ k item st,
     closure_body (s1 k) W root item st = closure_body iter W root item st) →
  (∀ ix k g sid, add_deps_of (s2 k) ix g sid = add_deps_of iter ix g sid) →
  bundle_file_at s1 s2 W entry_path root = bundle_file iter W entry_path root.
Proof.
  intros Hs1 Hs2. unfold bundle_file_at, bundle_file.
  destruct (read_text W entry_path) as [src|]; [|done].
  destruct (ast_parse W src) as [tree|]; [|done].
  destruct (_parse_imported_symbols tree) as [[|i imported]|]; [done| |done].
  unfold closure_at, closure. rewrite (closure_loop_at_iter s1 iter) by done.
  destruct (closure_loop iter W root _ _) as [[st|]|]; [|done..].
  unfold emit. do 2 f_equal.
  unfold _toposort_symbols_at, _toposort_symbols, kahn_run, build_graph_at,
    build_graph.
  destruct (included st); [done|].
  by rewrite (build_graph_from_iter s2 iter) by done.
Qed.

Lemma lex_lt_le s t : String.le s t → s ≠ t → lex_lt s t = true.
Proof.
  unfold String.le, String.leb. revert t.
  induction s as [|a s IH]; intros [|b t]; simpl; try done.
  unfold Ascii.compare.
  destruct (decide (a = b)) as [->|Hab].
  - rewrite N.compare_refl. intros Hle Hne. apply IH; [done|congruence].
  - destruct (N.compare_spec (N_of_ascii a) (N_of_ascii b)) as [Heq|Hlt|Hgt].
    + destruct Hab. by rewrite <-(ascii_N_embedding a), Heq, ascii_N_embedding.
    + intros _ _. by apply bool_decide_eq_true.
    + done.
Qed.

Lemma StronglySorted_strict (l : list string) :
  Sorted String.le l → NoDup l → StronglySorted (λ a b, lex_lt a b = true) l.
Proof.
  intros Hs%Sorted_StronglySorted; [|apply _].
  induction Hs as [|a l Hl IH Ha]; intros Hnd; constructor.
  - apply IH. by apply NoDup_cons in Hnd as [_ ?].
  - apply NoDup_cons in Hnd as [Hnot _].
    rewrite Forall_forall in Ha |- *. intros b Hb.
    apply (lex_lt_le a b (Ha b Hb)). by intros ->.
Qed.

Lemma StronglySorted_filter {A} (R : relation A) (P : A → Prop)
    `{!∀ x, Decision (P x)} (l : list A) :
  StronglySorted R l → StronglySorted R (filter P l).
Proof.
  induction 1 as [|a l Hl IH Ha]; [constructor|].
  rewrite filter_cons. destruct (decide (P a)); [|done].
  constructor; [done|]. rewrite Forall_forall in Ha |- *.
  intros b [_ Hb]%list_elem_of_filter. by apply Ha.
Qed.

(** What a turn of the closure loop appends to the queue. *)
Lemma closure_body_enqueues iter W root item st st' :
  iter_ok iter →
  closure_body iter W root item st = Ok st' →
  (included st' = included st ∧ queue st' = queue st)
  ∨ ∃ sym md ld' names,
      included st' = included st ++ [sym]
      ∧ get_module W root (imp_module item) (cs_loader st) = Ok (md, ld')
      ∧ queue st' = queue st ++ (dep_item (imp_module item) <$> names)
      ∧ StronglySorted (λ a b, lex_lt a b = true) names
      ∧ ∀ dep,
          dep ∈ names
          ↔ dep ∈ _name_loads_in (NStmt (stmt_of (sd_node sym)))
            ∧ (dep ∉ included_names st')
            ∧ is_Some (_build_symbol_table md !! dep).
Proof.
  intros Hiter Hbody.
  apply closure_body_Ok in Hbody
    as (md & ld' & n & sym & cache' & Hget & Hn & Hsym & [[_ ->]|[_ ->]]).
  { by left. }
  right. simpl.
  exists sym, md, ld',
    (filter (wanted (_build_symbol_table md)
               (included_names st ∪ {[sd_name sym]}))
       (sorted (iter (_name_loads_in (NStmt (stmt_of (sd_node sym))))))).
  split; [done|]. split; [done|]. split; [apply enqueue_deps_eq|]. split.
  - apply StronglySorted_filter, StronglySorted_strict.
    + apply Sorted_merge_sort; apply _.
    + by apply sorted_iter_nodup.
  - intros dep. rewrite list_elem_of_filter, elem_of_sorted_iter by done.
    unfold wanted. tauto.
Qed.

(** C10.  The result of [bundle_file] does not depend on the orders in which
    the runtime iterates sets, chosen anew at every iteration: two runs that
    follow any two pairs of schedules give the same result on the same entry
    path, root and file system, and a run in which every iteration follows
    one order [iter] is [bundle_file iter].  In particular a turn of the
    closure loop that includes a symbol appends to the queue the items of
    exactly the names that the definition loads, that are not yet included
    and that the table of the module defines, in strictly ascending order of
    their code points; a turn that includes nothing appends nothing. *)
Theorem bundle_file_deterministic W entry_path root :
  (∀ s1 s2 t1 t2,
     schedule_ok s1 → schedule_ok s2 → schedule_ok t1 → schedule_ok t2 →
     bundle_file_at s1 s2 W entry_path root
     = bundle_file_at t1 t2 W entry_path root)
  ∧ (∀ iter,
       bundle_file_at (λ _, iter) (λ _, iter) W entry_path root
       = bundle_file iter W entry_path root)
  ∧ (∀ iter item st st',
       iter_ok iter →
       closure_body iter W root item st = Ok st' →
       (included st' = included st ∧ queue st' = queue st)
       ∨ ∃ sym md ld' names,
           included st' = included st ++ [sym]
           ∧ get_module W root (imp_module item) (cs_loader st) = Ok (md, ld')
           ∧ queue st' = queue st ++ (dep_item (imp_module item) <$> names)
           ∧ StronglySorted (λ a b, lex_lt a b = true) names
           ∧ ∀ dep,
               dep ∈ names
               ↔ dep ∈ _name_loads_in (NStmt (stmt_of (sd_node sym)))
                 ∧ (dep ∉ included_names st')
                 ∧ is_Some (_build_symbol_table md !! dep)).
Proof.
  assert (∀ s1 s2, schedule_ok s1 → schedule_ok s2 →
            bundle_file_at s1 s2 W entry_path root
            = bundle_file elements W entry_path root) as Hany.
  { intros s1 s2 H1 H2. apply bundle_file_at_iter.
    - intros k item st. by apply closure_body_iter; [apply H1|apply iter_ok_elements].
    - intros ix k g sid.
      by apply add_deps_of_iter; [apply H2|apply iter_ok_elements]. }
  split; [intros s1 s2 t1 t2 ????; by rewrite !Hany|].
  split; [intros iter; by apply bundle_file_at_iter|].
  intros iter item st st'. apply closure_body_enqueues.
Qed.

Lemma iter_ok_reverse : iter_ok (λ X, reverse (elements X)).
Proof. intros X. apply reverse_Permutation. Defined.

Lemma alternating_ok : schedule_ok alternating.
Proof.
  intros k X. unfold alternating.
  destruct (Nat.even k); [done|apply reverse_Permutation].
Defined.

Lemma bundle_file_deterministic_witness :
  bundle_file_at (λ _, elements) (λ _, elements) world_helpers ["main.py"] []
  = bundle_file_at alternating alternating world_helpers ["main.py"] []
  ∧ bundle_file_at alternating alternating world_helpers ["main.py"] []
    = Some (Ok helpers_bundled)
  ∧ match closure_body (λ X, reverse (elements X)) world_helpers []
            (dep_item "lib.helpers" "foo")
            (pop_queue (closure_init helpers_imports) []) with
    | Ok st => queue st
    | Raise _ => []
    end
    = [dep_item "lib.helpers" "BASE"; dep_item "lib.helpers" "register"].
Proof.
  split; [|split; vm_compute; reflexivity].
  apply (proj1 (bundle_file_deterministic world_helpers ["main.py"] [])).
  - intros k. exact iter_ok_elements.
  - intros k. exact iter_ok_elements.
  - exact alternating_ok.
  - exact alternating_ok.
Defined.

(** ** Bundling the bundled output *)

(** C5 (what the code does).  [lib/a.py] starts with [from lib.b import g].
    The first run copies that line into the [Imports] region of its output;
    read back as an entry file, the output has a top-level from-import of the
    library, so the second run bundles again and returns another text.  The
    copy is systematic ([closure_keeps_lib_imports] below). *)
Lemma bundle_file_twice_differs :
  bundle_file elements world_chain ["main.py"] [] = Some (Ok bundled_once)
  ∧ read_text world_chain ["bundled.py"] = Some bundled_once
  ∧ ast_parse world_chain bundled_once = Some bundled_once_tree
  ∧ bundle_file elements world_chain ["bundled.py"] [] = Some (Ok bundled_twice)
  ∧ bundled_twice ≠ bundled_once.
Proof.
  split; [vm_compute; reflexivity|]. split; [reflexivity|].
  split; [reflexivity|]. split; [vm_compute; reflexivity|].
  apply String.eqb_neq. reflexivity.
Qed.

(** [bundle_file] always returns or raises: the closure loop never runs out
    of turns. *)
Lemma bundle_file_returns iter W entry_path root :
  iter_ok iter → ∃ r, bundle_file iter W entry_path root = Some r.
Proof.
  intros Hiter. unfold bundle_file.
  destruct (read_text W entry_path) as [src|]; [|by eexists].
  destruct (ast_parse W src) as [tree|]; [|by eexists].
  destruct (_parse_imported_symbols tree) as [[|i imported]|]; [by eexists| |by eexists].
  destruct (closure_returns iter W root (i :: imported) Hiter) as (r & -> & _).
  destruct r; by eexists.
Qed.

(** ** Identifiers of symbols *)

Lemma append_cons c a b : String c a +:+ b = String c (a +:+ b).
Proof. reflexivity. Qed.

Lemma append_nil b : "" +:+ b = b.
Proof. reflexivity. Qed.

Lemma colon_split a a' b b' :
  has_colon a = false → has_colon a' = false →
  a +:+ ":" +:+ b = a' +:+ ":" +:+ b' → a = a' ∧ b = b'.
Proof.
  revert a'. induction a as [|c a IH]; intros [|c' a'];
    rewrite ?append_cons, ?append_nil; simpl.
  - by intros _ _ [= ->].
  - intros _ [Hc _]%orb_false_iff [= <- _]. by apply bool_decide_eq_false in Hc.
  - intros [Hc _]%orb_false_iff _ [= -> _]. by apply bool_decide_eq_false in Hc.
  - intros [_ Ha]%orb_false_iff [_ Ha']%orb_false_iff [= -> Heq].
    destruct (IH a' Ha Ha' Heq) as [-> ->]. done.
Qed.

Lemma sid_of_nodup (symbols : list SymbolDef) :
  Forall (λ s, has_colon (sd_module s) = false ∧ has_colon (sd_name s) = false)
    symbols →
  NoDup (sd_name <$> symbols) → NoDup (sid_of <$> symbols).
Proof.
  intros Hfree Hnd. apply NoDup_fmap_2_strong; [|by eapply NoDup_fmap_1].
  intros s1 s2 H1 H2 Hsid.
  rewrite Forall_forall in Hfree.
  destruct (Hfree s1 H1) as [Hm1 Hn1], (Hfree s2 H2) as [Hm2 Hn2].
  unfold sid_of in Hsid.
  apply colon_split in Hsid as [_ Hsid]; [|done..].
  apply colon_split in Hsid as [Hname _]; [|done..].
  apply list_elem_of_lookup in H1 as [i Hi], H2 as [j Hj].
  assert (i = j) as ->; [|congruence].
  apply (NoDup_lookup (sd_name <$> symbols) i j (sd_name s1)); [done|..];
    rewrite list_lookup_fmap; [by rewrite Hi|by rewrite Hj, Hname].
Qed.

(** ** Strings: reversal, stripping and lines *)

Lemma append_nil_r s : s +:+ "" = s.
Proof. induction s as [|c s IH]; [done|]. by rewrite append_cons, IH. Qed.

Lemma append_assoc s t u : (s +:+ t) +:+ u = s +:+ t +:+ u.
Proof. induction s as [|c s IH]; [done|]. by rewrite !append_cons, IH. Qed.

Lemma rev_app_append s t u :
  String.rev_app s (t +:+ u) = String.rev_app s t +:+ u.
Proof.
  revert t. induction s as [|c s IH]; intros t; simpl; [done|].
  by rewrite <-IH.
Qed.

Lemma rev_cons c s : String.rev (String c s) = String.rev s +:+ String c "".
Proof.
  unfold String.rev. simpl.
  by rewrite <-(rev_app_append s "" (String c "")).
Qed.

Lemma rev_app_rev_app s t u :
  String.rev_app (String.rev_app s t) u = String.rev_app t (s +:+ u).
Proof.
  revert t. induction s as [|c s IH]; intros t; simpl; [done|].
  by rewrite IH.
Qed.

Lemma rev_involutive s : String.rev (String.rev s) = s.
Proof. unfold String.rev. by rewrite rev_app_rev_app, append_nil_r. Qed.

Lemma lstrip_by_idemp P s :
  Str.lstrip_by P (Str.lstrip_by P s) = Str.lstrip_by P s.
Proof.
  induction s as [|c s IH]; simpl; [done|].
  destruct (P c) eqn:Hc; [done|]. simpl. by rewrite Hc.
Qed.

Lemma rstrip_by_idemp P s :
  Str.rstrip_by P (Str.rstrip_by P s) = Str.rstrip_by P s.
Proof.
  unfold Str.rstrip_by. by rewrite rev_involutive, lstrip_by_idemp.
Qed.

Lemma strip_rstrip s : Str.strip (Str.rstrip s) = Str.strip s.
Proof. unfold Str.strip, Str.rstrip. by rewrite rstrip_by_idemp. Qed.

Lemma join_empty_cons x l : Str.join "" (x :: l) = x +:+ Str.join "" l.
Proof. destruct l; simpl; [by rewrite append_nil_r|done]. Qed.

Lemma splitlines_go_cons k cur c s' :
  Str.splitlines_go k cur (String c s') =
    if Str.is_linebreak c then
      match s' with
      | String c' s'' =>
          if decide (c = "013"%char ∧ c' = "010"%char)
          then String.rev (if k then String "010" (String "013" cur) else cur)
                 :: Str.splitlines_go k "" s''
          else String.rev (if k then String c cur else cur)
                 :: Str.splitlines_go k "" s'
      | "" => [String.rev (if k then String c cur else cur)]
      end
    else Str.splitlines_go k (String c cur) s'.
Proof.
  destruct c as [[] [] [] [] [] [] [] []]; try reflexivity;
    destruct s' as [|c' s'']; try reflexivity.
  destruct c' as [[] [] [] [] [] [] [] []]; reflexivity.
Qed.

Lemma splitlines_go_join n s cur :
  (String.length s ≤ n)%nat →
  Str.join "" (Str.splitlines_go true cur s) = String.rev cur +:+ s.
Proof.
  revert s cur. induction n as [|n IH]; intros s cur Hlen.
  - destruct s; [|simpl in Hlen; lia]. simpl.
    destruct (decide (cur = "")) as [->|]; simpl; by rewrite ?append_nil_r.
  - destruct s as [|c s']; simpl in Hlen.
    { simpl. destruct (decide (cur = "")) as [->|]; simpl; by rewrite ?append_nil_r. }
    rewrite splitlines_go_cons. destruct (Str.is_linebreak c).
    + destruct s' as [|c' s'']; simpl in Hlen.
      * simpl. by rewrite rev_cons.
      * destruct (decide (c = "013"%char ∧ c' = "010"%char)) as [[-> ->]|_].
        -- rewrite join_empty_cons, IH by lia.
           rewrite !rev_cons, !append_assoc. reflexivity.
        -- rewrite join_empty_cons, IH by (simpl; lia).
           rewrite rev_cons, append_assoc. reflexivity.
    + rewrite IH by lia. rewrite rev_cons, append_assoc. reflexivity.
Qed.

(** Joining the lines [splitlines(keepends=True)] gives back the text. *)
Lemma splitlines_join s : Str.join "" (Str.splitlines true s) = s.
Proof. unfold Str.splitlines. by rewrite (splitlines_go_join (String.length s)). Qed.

Lemma has_linebreak_rev_app s t :
  has_linebreak (String.rev_app s t) = has_linebreak s || has_linebreak t.
Proof.
  revert t. induction s as [|c s IH]; intros t; simpl; [done|].
  rewrite IH. simpl. by destruct (Str.is_linebreak c), (has_linebreak s).
Qed.

Lemma has_linebreak_rev s : has_linebreak (String.rev s) = has_linebreak s.
Proof. unfold String.rev. rewrite has_linebreak_rev_app. simpl. apply orb_false_r. Qed.

Lemma splitlines_go_no_linebreak n s cur :
  (String.length s ≤ n)%nat → has_linebreak cur = false →
  Forall (λ line, has_linebreak line = false) (Str.splitlines_go false cur s).
Proof.
  revert s cur. induction n as [|n IH]; intros s cur Hlen Hcur.
  - destruct s; [|simpl in Hlen; lia]. simpl.
    destruct (decide (cur = "")); repeat constructor.
    by rewrite has_linebreak_rev.
  - destruct s as [|c s']; simpl in Hlen.
    { simpl. destruct (decide (cur = "")); repeat constructor.
      by rewrite has_linebreak_rev. }
    rewrite splitlines_go_cons. destruct (Str.is_linebreak c) eqn:Hc.
    + destruct s' as [|c' s'']; simpl in Hlen.
      * repeat constructor. by rewrite has_linebreak_rev.
      * destruct (decide (c = "013"%char ∧ c' = "010"%char)) as [[-> ->]|_];
          (constructor; [by rewrite has_linebreak_rev|]);
          apply IH; simpl; (lia || done).
    + apply IH; [lia|]. simpl. by rewrite Hc.
Qed.

(** X1.  Every line of a commented block is a comment of one line: it starts with
    the comment sign and holds no line break. *)
Lemma comment_block_lines block :
  Forall (λ line, Str.startswith line "#" = true ∧ has_linebreak line = false)
    (_comment_block block)
  ∧ length (_comment_block block) = length (Str.splitlines false block).
Proof.
  split; [|apply length_fmap].
  unfold _comment_block. apply Forall_fmap.
  eapply Forall_impl;
    [apply (splitlines_go_no_linebreak (String.length block)); done|].
  intros line Hline. simpl. by destruct (decide (Str.strip line = "")).
Qed.

Lemma dedup_keep_order_go items seen out :
  ∃ new,
    _dedup_keep_order_go items seen out = out ++ new
    ∧ new `sublist_of` (Str.rstrip <$> items)
    ∧ NoDup (Str.strip <$> new)
    ∧ (∀ o, o ∈ new → Str.strip o ≠ "" ∧ Str.strip o ∉ seen)
    ∧ (∀ it, it ∈ items → Str.strip it ≠ "" →
             Str.strip it ∈ seen ∨ Str.strip it ∈ Str.strip <$> new).
Proof.
  revert seen out. induction items as [|it items IH]; intros seen out; simpl.
  - exists []. rewrite app_nil_r. split; [done|]. split; [done|].
    split; [constructor|]. split; [by intros o ?%elem_of_nil|].
    by intros it ?%elem_of_nil.
  - destruct (decide (Str.strip it = "")) as [Hblank|Hkey];
      [|destruct (decide (Str.strip it ∈ seen)) as [Hseen|Hfresh]].
    + destruct (IH seen out) as (new & -> & Hsub & Hnd & Hnew & Hall).
      exists new. split; [done|]. split; [by apply sublist_cons|].
      split; [done|]. split; [done|].
      intros it' [->|Hin]%elem_of_cons ?; [done|by apply Hall].
    + destruct (IH seen out) as (new & -> & Hsub & Hnd & Hnew & Hall).
      exists new. split; [done|]. split; [by apply sublist_cons|].
      split; [done|]. split; [done|].
      intros it' [->|Hin]%elem_of_cons ?; [by left|by apply Hall].
    + destruct (IH (seen ∪ {[Str.strip it]}) (out ++ [Str.rstrip it]))
        as (new & -> & Hsub & Hnd & Hnew & Hall).
      exists (Str.rstrip it :: new). split; [by rewrite <-(assoc_L (++))|].
      split; [by apply sublist_skip|]. split; [|split].
      * rewrite fmap_cons, strip_rstrip. apply NoDup_cons. split; [|done].
        intros (o & Ho & Hin)%list_elem_of_fmap.
        destruct (Hnew o Hin) as [_ Hnot]. set_solver.
      * intros o [->|Hin]%elem_of_cons.
        -- by rewrite strip_rstrip.
        -- destruct (Hnew o Hin) as [? Hnot]. split; [done|set_solver].
      * intros it' [->|Hin]%elem_of_cons Hne.
        -- right. rewrite fmap_cons, strip_rstrip. by left.
        -- destruct (Hall it' Hin Hne) as [[?|Heq%elem_of_singleton]%elem_of_union|?].
           ++ by left.
           ++ right. rewrite fmap_cons, strip_rstrip, Heq. by left.
           ++ right. rewrite fmap_cons. by right.
Qed.

(** X2.  The deduplication keeps the order of its input, drops blank entries,
    leaves no two entries with the same stripped text, and loses no stripped
    text that the input has. *)
Lemma dedup_keep_order_spec items :
  _dedup_keep_order items `sublist_of` (Str.rstrip <$> items)
  ∧ NoDup (Str.strip <$> _dedup_keep_order items)
  ∧ Forall (λ o, Str.strip o ≠ "") (_dedup_keep_order items)
  ∧ ∀ it, it ∈ items → Str.strip it ≠ "" →
          Str.strip it ∈ Str.strip <$> _dedup_keep_order items.
Proof.
  unfold _dedup_keep_order.
  destruct (dedup_keep_order_go items ∅ []) as (new & -> & Hsub & Hnd & Hnew & Hall).
  simpl. split; [done|]. split; [done|]. split.
  - apply Forall_forall. intros o Ho. by apply Hnew.
  - intros it Hin Hne. destruct (Hall it Hin Hne) as [?|?]; [set_solver|done].
Qed.

(** ** The imports of the entry file *)

Lemma parse_imported_symbols_go_spec body imported :
  (Exists is_star_import body →
   _parse_imported_symbols_go body imported
   = Raise (BundleError UnsupportedStarImport))
  ∧ (¬ Exists is_star_import body →
     _parse_imported_symbols_go body imported
     = Ok (imported ++ mjoin (imports_of <$> body))).
Proof.
  revert imported. induction body as [|n body IH]; intros imported.
  { split; [by intros ?%Exists_nil|]. intros _. simpl. by rewrite app_nil_r. }
  rewrite fmap_cons. cbn [_parse_imported_symbols_go mjoin list_join].
  destruct (is_lib_import_from (stmt_of n)) eqn:Hlib.
  - destruct (stmt_of n) as [| | | | | |module names level|] eqn:Hs; try done.
    assert (imports_of n = imported_of module <$> names) as ->
      by (unfold imports_of; by rewrite Hs, Hlib).
    destruct (existsb _ names) eqn:Hstar.
    + split; [done|]. intros Hno. exfalso. apply Hno. left.
      unfold is_star_import. by rewrite Hs, Hlib.
    + split.
      * intros [[_ Hn]|Hex]%Exists_cons; [by rewrite Hs, Hstar in Hn|].
        by apply IH.
      * intros Hno. rewrite (proj2 (IH _)); [by rewrite (assoc_L (++))|].
        intros Hex. apply Hno. by right.
  - assert (imports_of n = []) as -> by (unfold imports_of; by rewrite Hlib).
    split.
    + intros [[Hn _]|Hex]%Exists_cons; [by rewrite Hlib in Hn|]. by apply IH.
    + intros Hno. rewrite (proj2 (IH _)); [done|].
      intros Hex. apply Hno. by right.
Qed.

(** X3.  The imports of an entry file: a wildcard import of the library makes
    [_parse_imported_symbols] raise; without one, it returns the names of the
    top-level from-imports of the library, statement by statement, in source
    order. *)
Lemma parse_imported_symbols_spec tree :
  (Exists is_star_import tree →
   _parse_imported_symbols tree = Raise (BundleError UnsupportedStarImport))
  ∧ (¬ Exists is_star_import tree →
     _parse_imported_symbols tree = Ok (mjoin (imports_of <$> tree))).
Proof. apply (parse_imported_symbols_go_spec tree []). Qed.

(** X4.  A wildcard import of the library is rejected before any module is
    looked up: whatever the file system holds, [bundle_file] raises the
    unsupported-import error. *)
Lemma bundle_file_star_import iter W entry_path root entry_source entry_tree :
  read_text W entry_path = Some entry_source →
  ast_parse W entry_source = Some entry_tree →
  Exists is_star_import entry_tree →
  bundle_file iter W entry_path root
  = Some (Raise (BundleError UnsupportedStarImport)).
Proof.
  intros Hread Hparse Hstar. unfold bundle_file. rewrite Hread, Hparse.
  unfold _parse_imported_symbols.
  by rewrite (proj1 (parse_imported_symbols_go_spec entry_tree []) Hstar).
Qed.

Lemma bundle_file_star_import_witness :
  bundle_file elements world_star ["main.py"] []
  = Some (Raise (BundleError UnsupportedStarImport)).
Proof.
  apply (bundle_file_star_import elements world_star ["main.py"] []
           star_entry_text star_entry_tree).
  - reflexivity.
  - reflexivity.
  - left. split; reflexivity.
Defined.

(** ** Taking the imports out of the entry file *)

Lemma strip_scan_spans body remove :
  ¬ Exists is_whole_lib_import body →
  _strip_scan body remove = Ok (remove ++ spans_of body).
Proof.
  revert remove. induction body as [|n body IH]; intros remove Hno.
  { simpl. by rewrite app_nil_r. }
  assert (¬ Exists is_whole_lib_import body) as Hrest
    by (intros ?; apply Hno; by right).
  assert (¬ is_whole_lib_import n) as Hn by (intros ?; apply Hno; by left).
  cbn [_strip_scan]. unfold spans_of. cbn [omap list_omap]. unfold strippable at 1.
  destruct (is_lib_import_from (stmt_of n)) eqn:Hlib; simpl.
  { rewrite IH by done. by rewrite <-(assoc_L (++)). }
  destruct (is_future_import_from (stmt_of n)) eqn:Hfut; simpl.
  { rewrite IH by done. by rewrite <-(assoc_L (++)). }
  unfold is_whole_lib_import in Hn.
  destruct (stmt_of n); try (by apply IH).
  destruct (existsb _ _); [done|]. by apply IH.
Qed.

Lemma elem_of_lines_to_remove remove i :
  i ∈ lines_to_remove remove ↔ ∃ r, r ∈ remove ∧ r.1 ≤ i ≤ r.2.
Proof.
  unfold lines_to_remove.
  assert (∀ acc : gset Z,
            i ∈ foldl (λ acc r, acc ∪ list_to_set (seqZ r.1 (r.2 + 1 - r.1)))
                  acc remove
            ↔ i ∈ acc ∨ ∃ r, r ∈ remove ∧ r.1 ≤ i ≤ r.2) as Hgen.
  { induction remove as [|r remove IH]; intros acc; simpl.
    - split; [by left|]. intros [?|(r & ?%elem_of_nil & _)]; done.
    - rewrite IH, elem_of_union, elem_of_list_to_set, elem_of_seqZ. split.
      + intros [[?|?]|(r' & ? & ?)]; [by left| |].
        * right. exists r. split; [by left|lia].
        * right. exists r'. split; [by right|done].
      + intros [?|(r' & [->|?]%elem_of_cons & ?)]; [by left; left| |].
        * left. right. lia.
        * right. by exists r'. }
  rewrite Hgen. set_solver.
Qed.

Lemma in_span_spans tree i :
  i ∈ lines_to_remove (spans_of tree) ↔ in_span tree i.
Proof.
  rewrite elem_of_lines_to_remove. unfold in_span, spans_of.
  rewrite Exists_exists. split.
  - intros (r & (n & Hn & Hr)%list_elem_of_omap & Hi).
    destruct (strippable n) eqn:Hs; [|done]. injection Hr as <-.
    by exists n.
  - intros (n & Hn & Hs & Hi).
    exists (lineno n, end_or_start n). split; [|done].
    apply list_elem_of_omap. exists n. by rewrite Hs.
Qed.

Lemma keep_lines_surviving tree i lines :
  keep_lines (lines_to_remove (spans_of tree)) i lines = surviving tree i lines.
Proof.
  revert i. induction lines as [|line lines IH]; intros i; simpl; [done|].
  rewrite IH. destruct (decide (in_span tree i)) as [Hin|Hout].
  - by rewrite decide_True by by apply in_span_spans.
  - by rewrite decide_False by by rewrite in_span_spans.
Qed.

Lemma strip_lib_imports_ok entry_source entry_tree :
  ¬ Exists is_whole_lib_import entry_tree →
  _strip_lib_imports entry_source entry_tree
  = Ok (Str.lstrip_nl
          (Str.join "" (surviving entry_tree 1
                          (Str.splitlines true entry_source)))).
Proof.
  intros Hno. unfold _strip_lib_imports. rewrite strip_scan_spans by done.
  simpl. by rewrite keep_lines_surviving.
Qed.

(** X5.  The stripped entry file: a whole-module import of the library makes
    [_strip_lib_imports] raise; without one, it returns the lines of the entry
    file that lie in the span of no library from-import and no [__future__]
    import, joined and without leading newlines. *)
Lemma strip_lib_imports_spec entry_source entry_tree :
  (Exists is_whole_lib_import entry_tree →
   _strip_lib_imports entry_source entry_tree
   = Raise (BundleError UnsupportedImportForm))
  ∧ (¬ Exists is_whole_lib_import entry_tree →
     _strip_lib_imports entry_source entry_tree
     = Ok (Str.lstrip_nl
             (Str.join "" (surviving entry_tree 1
                             (Str.splitlines true entry_source))))).
Proof.
  split; [|apply strip_lib_imports_ok].
  intros Hex. unfold _strip_lib_imports. by rewrite strip_scan_rejects.
Qed.

Lemma surviving_all tree i lines :
  Forall (λ n, strippable n = false) tree → surviving tree i lines = lines.
Proof.
  intros Hnone. revert i. induction lines as [|line lines IH]; intros i; simpl;
    [done|].
  rewrite decide_False; [by rewrite IH|].
  unfold in_span. rewrite Exists_exists. intros (n & Hn & Hs & _).
  rewrite Forall_forall in Hnone. by rewrite (Hnone n Hn) in Hs.
Qed.

(** X6.  An entry file without any statement to take out comes back as it is, but
    for its leading newlines. *)
Lemma strip_lib_imports_nothing entry_source entry_tree :
  Forall (λ n, strippable n = false) entry_tree →
  ¬ Exists is_whole_lib_import entry_tree →
  _strip_lib_imports entry_source entry_tree = Ok (Str.lstrip_nl entry_source).
Proof.
  intros Hnone Hno.
  rewrite strip_lib_imports_ok by done.
  by rewrite surviving_all, splitlines_join.
Qed.

Lemma strip_lib_imports_nothing_witness :
  _strip_lib_imports plain_text plain_tree = Ok (Str.lstrip_nl plain_text).
Proof.
  apply strip_lib_imports_nothing.
  - repeat constructor.
  - by intros [Hn|[Hn|Hn%Exists_nil]%Exists_cons]%Exists_cons.
Defined.

(** ** The module cache *)

(** X7.  A module requested a second time comes from the cache: the same record is
    returned and the loader, with the import lines it has collected, is left
    as it is; and a request for a module already in the cache changes
    nothing. *)
Lemma get_module_again W root m ld md ld' :
  get_module W root m ld = Ok (md, ld') →
  get_module W root m ld' = Ok (md, ld')
  ∧ (is_Some (module_cache ld !! m) → ld' = ld)
  ∧ (module_cache ld !! m = None →
     module_imports_future ld'
     = module_imports_future ld ++ (_extract_top_level_import_lines md).1
     ∧ module_imports_other ld'
       = module_imports_other ld ++ (_extract_top_level_import_lines md).2).
Proof.
  unfold get_module. destruct (module_cache ld !! m) as [md0|] eqn:Hm.
  - intros [= <- <-]. rewrite Hm. split; [done|]. split; [done|]. done.
  - destruct (_parse_module_source W m root) as [md0|]; simpl; [|done].
    intros [= <- <-]. simpl. rewrite lookup_insert_eq.
    split; [done|]. split; [by intros [??]|done].
Qed.

Lemma get_module_again_witness :
  get_module world_helpers [] "lib.helpers" helpers_loader
  = Ok (helpers_module, helpers_loader).
Proof.
  apply (proj1 (get_module_again world_helpers [] "lib.helpers" empty_loader
                  helpers_module helpers_loader eq_refl)).
Defined.

(** ** The symbol closure: imports, aliases and errors *)

Lemma closure_init_inv2 W root imported :
  closure_inv2 W root imported (closure_init imported).
Proof.
  split; simpl.
  - intros m md. simpl. by rewrite lookup_empty.
  - done.
  - intros m n sym. by rewrite lookup_empty.
  - intros item ?. by left.
  - intros item ?. by left.
  - done.
Qed.

Lemma get_module_cache W root m ld md ld' :
  get_module W root m ld = Ok (md, ld') →
  is_Some (module_cache ld' !! m)
  ∧ ∀ m', is_Some (module_cache ld !! m') → is_Some (module_cache ld' !! m').
Proof.
  unfold get_module. destruct (module_cache ld !! m) as [md0|] eqn:Hm.
  - intros [= <- <-]. by rewrite Hm.
  - destruct (_parse_module_source W m root) as [md0|]; simpl; [|done].
    intros [= <- <-]. simpl. rewrite lookup_insert_eq. split; [done|].
    intros m' Hm'. rewrite lookup_insert. by case_decide.
Qed.

Lemma alias_line_deps module (deps : list string) :
  mjoin (alias_line
           <$> ((λ dep, {| imp_module := module; imp_name := dep;
                           imp_asname := None |}) <$> deps)) = [].
Proof. induction deps as [|d deps IH]; [done|]. by rewrite !fmap_cons. Qed.

Lemma mjoin_fmap_app {A B} (f : A → list B) (l k : list A) :
  mjoin (f <$> (l ++ k)) = mjoin (f <$> l) ++ mjoin (f <$> k).
Proof.
  induction l as [|x l IH]; [done|].
  rewrite <-app_comm_cons, !fmap_cons. simpl. by rewrite IH, (assoc_L (++)).
Qed.

Lemma closure_body_inv2 iter W root imported st item q st' :
  closure_inv2 W root imported st → queue st = item :: q →
  closure_body iter W root item (pop_queue st q) = Ok st' →
  closure_inv2 W root imported st'.
Proof.
  intros [Hcache Hnames Hsyms Himp Hqueue Halias] Hq Hbody.
  apply closure_body_Ok in Hbody
    as (md & ld' & n & sym & cache' & Hget & Hn & Hsym & Hst').
  simpl in *.
  destruct (get_module_Ok _ _ _ _ _ _ Hcache Hget) as [Hparse Hcache'].
  destruct (get_module_cache _ _ _ _ _ _ Hget) as [Hloaded Hgrow].
  pose proof (module_table_of _ _ _ _ Hparse) as Htable.
  assert (sd_name sym = imp_name item) as Hname.
  { destruct Hsym as [[Hc _]|[He _]]; [by eapply Hsyms|].
    by apply extract_symbol_def_Ok in He as (? & _). }
  assert (∀ m k sym', cache' !! (m, k) = Some sym' → sd_name sym' = k) as Hsyms'.
  { destruct Hsym as [[_ ->]|[_ ->]]; [done|].
    intros m k sym'. rewrite lookup_insert. case_decide as Hk; [|apply Hsyms].
    intros [= <-]. by simplify_eq. }
  assert (is_Some (module_table W root (imp_module item) !! imp_name item))
    as Hdefined by (rewrite Htable, Hn; by eexists).
  rewrite Hq in Halias. rewrite fmap_cons in Halias. simpl in Halias.
  destruct Hst' as [[Hold ->]|[Hnew ->]]; split; simpl; try done.
  - intros item' Hin. destruct (Himp item' Hin) as [Hqu|?]; [|by right].
    rewrite Hq in Hqu. apply elem_of_cons in Hqu as [->|?]; [|by left].
    right. split; [done|]. by rewrite <-Hname.
  - intros item' Hin. destruct (Hqueue item') as [?|[??]];
      [rewrite Hq; by right|by left|right; auto].
  - by rewrite <-(assoc_L (++)).
  - rewrite fmap_app, list_to_set_app_L, Hnames. simpl. set_solver.
  - intros item' Hin. destruct (Himp item' Hin) as [Hqu|[??]].
    + rewrite Hq in Hqu. apply elem_of_cons in Hqu as [->|?].
      * right. split; [done|]. rewrite <-Hname. set_solver.
      * left. rewrite enqueue_deps_eq. apply elem_of_app. by left.
    + right. split; [done|]. set_solver.
  - intros item'. rewrite enqueue_deps_eq. intros [Hin|Hin]%elem_of_app.
    + destruct (Hqueue item') as [?|[??]];
        [rewrite Hq; by right|by left|right; auto].
    + apply list_elem_of_fmap in Hin as (dep & -> & Hdep). simpl.
      apply list_elem_of_filter in Hdep as [[_ Htab] _].
      right. split; [done|]. by rewrite Htable.
  - rewrite enqueue_deps_eq, mjoin_fmap_app, alias_line_deps, app_nil_r.
    by rewrite <-(assoc_L (++)).
Qed.

(** Where a run of the loop ends: with an empty queue, or in the turn that
    raises. *)
Lemma closure_loop_end iter W root imported fuel st r :
  closure_inv2 W root imported st →
  closure_loop iter W root fuel st = Some r →
  match r with
  | Ok st' => closure_inv2 W root imported st' ∧ queue st' = []
  | Raise e =>
      ∃ st1 item q,
        closure_inv2 W root imported st1 ∧ queue st1 = item :: q
        ∧ closure_body iter W root item (pop_queue st1 q) = Raise e
  end.
Proof.
  revert st. induction fuel as [|fuel IH]; intros st Hinv; simpl.
  - destruct (queue st) eqn:Hq; [|done]. by intros [= <-].
  - destruct (queue st) as [|item q] eqn:Hq; [by intros [= <-]|].
    destruct (closure_body iter W root item (pop_queue st q)) as [st1|e] eqn:Hb.
    + apply IH. by eapply closure_body_inv2.
    + intros [= <-]. by exists st, item, q.
Qed.

Lemma closure_body_Raise iter W root item st e :
  closure_body iter W root item st = Raise e →
  (module_cache (cs_loader st) !! imp_module item = None
   ∧ _parse_module_source W (imp_module item) root = Raise e)
  ∨ (∃ md ld',
       get_module W root (imp_module item) (cs_loader st) = Ok (md, ld')
       ∧ ((_build_symbol_table md !! imp_name item = None
           ∧ e = BundleError (SymbolNotFound (imp_module item) (imp_name item)
                                (ms_path md)))
          ∨ e = BundleError (ExtractFailure (ms_module md) (imp_name item)
                               (ms_path md)))).
Proof.
  unfold closure_body.
  destruct (get_module W root (imp_module item) (cs_loader st))
    as [[md ld']|e'] eqn:Hget; simpl.
  - intros Hbody. right. exists md, ld'. split; [done|].
    destruct (_build_symbol_table md !! imp_name item) as [n|]; [|left].
    + right. destruct (symbol_cache st !! _); simpl in Hbody.
      * by destruct (decide _).
      * unfold _extract_symbol_def in Hbody. destruct (truthy _); simpl in Hbody.
        -- by destruct (decide _).
        -- by injection Hbody as <-.
    + split; [done|]. by injection Hbody as <-.
  - intros [= <-]. left. unfold get_module in Hget.
    destruct (module_cache (cs_loader st) !! imp_module item); [done|].
    split; [done|].
    destruct (_parse_module_source _ _ _); simpl in Hget; [done|].
    by injection Hget as ->.
Qed.

Lemma parse_module_source_Raise W m root e :
  _parse_module_source W m root = Raise e →
  (∀ m' n p, e ≠ BundleError (SymbolNotFound m' n p))
  ∧ (∀ m' f p, e = BundleError (ModuleNotFound m' f p) →
       m' = m ∧ path_exists W f = false ∧ path_exists W p = false).
Proof.
  unfold _parse_module_source, _resolve_module_path.
  destruct (Pathlib.with_suffix _ _) as [file_path|e0] eqn:Hw; simpl.
  2:{ intros [= <-]. unfold Pathlib.with_suffix in Hw.
      destruct (last _); [|by injection Hw as <-].
      destruct (decide _); [by injection Hw as <-|done]. }
  destruct (path_exists W file_path) eqn:Hf; simpl.
  { destruct (read_text W file_path); [|by intros [= <-]].
    destruct (ast_parse W _); [done|]. by intros [= <-]. }
  destruct (path_exists W (Pathlib.joinpath _ _)) eqn:Hp; simpl.
  { destruct (read_text W _); [|by intros [= <-]].
    destruct (ast_parse W _); [done|]. by intros [= <-]. }
  intros [= <-]. split; [done|]. by intros m' f p [= <- <- <-].
Qed.

(** X8.  When the closure ends without an error, every name the entry file
    imports is defined by the table of its module and is the name of an
    included symbol. *)
Lemma closure_imports_included iter W root imported st :
  closure iter W root imported = Some (Ok st) →
  ∀ item, item ∈ imported →
    is_Some (module_table W root (imp_module item) !! imp_name item)
    ∧ imp_name item ∈ sd_name <$> included st.
Proof.
  intros Hclosure item Hitem.
  destruct (closure_loop_end _ _ _ _ _ _ _ (closure_init_inv2 W root imported)
              Hclosure) as [Hinv Hq].
  destruct (c2_imported _ _ _ _ Hinv item Hitem) as [Hin|[Hdef Hname]].
  - rewrite Hq in Hin. by apply elem_of_nil in Hin.
  - split; [done|]. rewrite (c2_names _ _ _ _ Hinv) in Hname.
    by apply elem_of_list_to_set in Hname.
Qed.

(** X9.  When the closure ends without an error, the alias lines are those of the
    imports of the entry file, in their order: an import [x as y] with [y]
    other than [x] gives the line [y = x], and nothing else gives a line. *)
Lemma closure_aliases iter W root imported st :
  closure iter W root imported = Some (Ok st) →
  aliases st = mjoin (alias_line <$> imported)
  ∧ ∀ item y, item ∈ imported → imp_asname item = Some y →
      y ≠ "" → y ≠ imp_name item →
      y +:+ " = " +:+ imp_name item ∈ aliases st.
Proof.
  intros Hclosure.
  destruct (closure_loop_end _ _ _ _ _ _ _ (closure_init_inv2 W root imported)
              Hclosure) as [Hinv Hq].
  pose proof (c2_aliases _ _ _ _ Hinv) as Halias.
  rewrite Hq in Halias. simpl in Halias. rewrite app_nil_r in Halias.
  split; [done|]. intros item y Hitem Hy Hne1 Hne2. rewrite Halias.
  apply list_elem_of_join. exists (alias_line item). split.
  - unfold alias_line. rewrite Hy, decide_True by done. by left.
  - by apply list_elem_of_fmap_2.
Qed.

(** X10.  The errors the closure reports are about the entry file's own imports:
    a missing symbol is a name the entry file imports and the module's table
    does not define; a missing module is a module the entry file names, and
    neither of the two paths reported exists. *)
Lemma closure_error_sound iter W root imported e :
  closure iter W root imported = Some (Raise e) →
  (∀ m n p, e = BundleError (SymbolNotFound m n p) →
     (∃ item, item ∈ imported ∧ imp_module item = m ∧ imp_name item = n)
     ∧ module_table W root m !! n = None)
  ∧ (∀ m f p, e = BundleError (ModuleNotFound m f p) →
       (∃ item, item ∈ imported ∧ imp_module item = m)
       ∧ path_exists W f = false ∧ path_exists W p = false).
Proof.
  intros Hclosure.
  destruct (closure_loop_end _ _ _ _ _ _ _ (closure_init_inv2 W root imported)
              Hclosure) as (st1 & item & q & Hinv & Hq & Hbody).
  assert (item ∈ queue st1) as Hitem by (rewrite Hq; by left).
  apply closure_body_Raise in Hbody
    as [[Hnone Hparse]|(md & ld' & Hget & Hcase)]; simpl in *.
  - destruct (parse_module_source_Raise _ _ _ _ Hparse) as [Hnot Hmod].
    split; [intros m n p ->; by destruct (Hnot m n p)|].
    intros m f p ->. destruct (Hmod m f p eq_refl) as (-> & ? & ?).
    split; [|done]. exists item. split; [|done].
    destruct (c2_queue _ _ _ _ Hinv item Hitem) as [?|[[? Hc] _]]; [done|].
    by rewrite Hnone in Hc.
  - destruct (get_module_Ok _ _ _ _ _ _ (c2_cache _ _ _ _ Hinv) Hget)
      as [Hparse _].
    pose proof (module_table_of _ _ _ _ Hparse) as Htable.
    destruct Hcase as [[Hnone ->]| ->]; [|by split].
    split; [|done]. intros m n p [= <- <- <-].
    rewrite Htable. split; [|done]. exists item. split; [|done].
    destruct (c2_queue _ _ _ _ Hinv item Hitem) as [?|[_ [? Hdef]]]; [done|].
    by rewrite Htable, Hnone in Hdef.
Qed.

Lemma closure_imports_included_witness :
  is_Some (module_table world_helpers [] "lib.helpers" !! "foo")
  ∧ "foo" ∈ sd_name <$> included helpers_closure.
Proof.
  assert (closure elements world_helpers [] helpers_imports
          = Some (Ok helpers_closure)) as Hclosure by (vm_compute; reflexivity).
  assert (helpers_imports
          = [{| imp_module := "lib.helpers"; imp_name := "foo";
                imp_asname := None |}]) as Himports by reflexivity.
  apply (closure_imports_included elements world_helpers [] helpers_imports
           helpers_closure Hclosure
           {| imp_module := "lib.helpers"; imp_name := "foo";
              imp_asname := None |}).
  rewrite Himports. by left.
Defined.

Lemma closure_aliases_witness :
  aliases same_name_closure = mjoin (alias_line <$> same_name_imports).
Proof.
  assert (closure elements world_same_name [] same_name_imports
          = Some (Ok same_name_closure)) as Hclosure by (vm_compute; reflexivity).
  exact (proj1 (closure_aliases elements world_same_name [] same_name_imports
                  same_name_closure Hclosure)).
Defined.

Lemma closure_error_sound_witness :
  (∃ item, item ∈ missing_imports ∧ imp_module item = "lib.helpers"
           ∧ imp_name item = "bar")
  ∧ module_table world_helpers [] "lib.helpers" !! "bar" = None.
Proof.
  assert (closure elements world_helpers [] missing_imports
          = Some (Raise (BundleError (SymbolNotFound "lib.helpers" "bar"
                                        ["lib"; "helpers.py"]))))
    as Hclosure by (vm_compute; reflexivity).
  exact (proj1 (closure_error_sound elements world_helpers [] missing_imports
                  _ Hclosure)
           "lib.helpers" "bar" ["lib"; "helpers.py"] eq_refl).
Defined.

(** ** The regions of the emitted symbols *)

Lemma runs_cons s rest :
  runs (s :: rest)
  = match runs rest with
    | (m, g) :: gs =>
        if decide (sd_module s = m) then (m, s :: g) :: gs
        else (sd_module s, [s]) :: (m, g) :: gs
    | [] => [(sd_module s, [s])]
    end.
Proof. done. Qed.

Lemma run_body_cons s g :
  run_body (s :: g) = [Str.rstrip (sd_source s); ""] ++ run_body g.
Proof. done. Qed.

Lemma emit_symbol_some out m s :
  emit_symbol (out, Some m) s
  = (if decide (sd_module s = m)
     then out ++ [Str.rstrip (sd_source s); ""]
     else out ++ ["# endregion"; ""; "# region " +:+ sd_module s;
                  Str.rstrip (sd_source s); ""],
     Some (sd_module s)).
Proof.
  unfold emit_symbol, _push_region, _pop_region. cbn [fst snd]. f_equal.
  destruct (decide (sd_module s = m)) as [->|Hne].
  - by rewrite decide_False by (by intros ?).
  - rewrite decide_True by congruence. by rewrite <-!(assoc_L (++)).
Qed.

Lemma emit_symbol_none out s :
  emit_symbol (out, None) s
  = (out ++ ["# region " +:+ sd_module s; Str.rstrip (sd_source s); ""],
     Some (sd_module s)).
Proof.
  unfold emit_symbol, _push_region. cbn [fst snd]. f_equal.
  rewrite decide_True by done. by rewrite <-!(assoc_L (++)).
Qed.

Lemma emit_symbols_from symbols out m :
  ∃ m',
    (foldl emit_symbol (out, Some m) symbols).2 = Some m'
    ∧ _pop_region (foldl emit_symbol (out, Some m) symbols).1 ++ [""]
      = out ++ match runs symbols with
               | (m', g) :: gs =>
                   if decide (m' = m)
                   then run_body g ++ ["# endregion"; ""]
                          ++ mjoin (region_of <$> gs)
                   else ["# endregion"; ""]
                          ++ mjoin (region_of <$> (m', g) :: gs)
               | [] => ["# endregion"; ""]
               end.
Proof.
  revert out m. induction symbols as [|s rest IH]; intros out m.
  { exists m. split; [done|]. simpl. unfold _pop_region.
    by rewrite <-(assoc_L (++)). }
  cbn [foldl]. rewrite runs_cons, emit_symbol_some.
  destruct (IH (if decide (sd_module s = m)
                then out ++ [Str.rstrip (sd_source s); ""]
                else out ++ ["# endregion"; ""; "# region " +:+ sd_module s;
                             Str.rstrip (sd_source s); ""]) (sd_module s))
    as (m' & Hm' & ->).
  exists m'. split; [done|].
  destruct (decide (sd_module s = m)) as [<-|Hne];
    rewrite <-!(assoc_L (++)); f_equal;
    (destruct (runs rest) as [|[m1 g] gs];
     [|destruct (decide (m1 = sd_module s)) as [->|Hne2]]);
    repeat first [rewrite decide_True by done | rewrite decide_False by done
                 | progress cbn iota beta];
    rewrite ?fmap_cons; unfold region_of; rewrite ?run_body_cons; simpl;
    by rewrite <-?(assoc_L (++)).
Qed.

Lemma runs_spec symbols :
  mjoin (snd <$> runs symbols) = symbols
  ∧ Forall (λ r, r.2 ≠ [] ∧ Forall (λ s, sd_module s = r.1) r.2) (runs symbols)
  ∧ ∀ i r r', runs symbols !! i = Some r → runs symbols !! S i = Some r' →
              r.1 ≠ r'.1.
Proof.
  induction symbols as [|s rest (Hjoin & Hall & Hadj)]; [by repeat split|].
  rewrite runs_cons. destruct (runs rest) as [|[m g] gs] eqn:Hr.
  - simpl in Hjoin. subst rest. split; [done|]. split; [by repeat constructor|].
    by intros [|i] r r'.
  - rewrite fmap_cons in Hjoin. simpl in Hjoin.
    apply Forall_cons in Hall as [[Hg Hm] Hgs]. simpl in Hg, Hm.
    destruct (decide (sd_module s = m)) as [<-|Hne].
    + split; [by rewrite fmap_cons; simpl; rewrite Hjoin|]. split.
      * constructor; [|done]. simpl. split; [done|]. by constructor.
      * intros [|i] r r' Hi Hi'.
        -- injection Hi as <-. simpl. by apply (Hadj 0%nat (sd_module s, g) r').
        -- by apply (Hadj (S i)).
    + split; [by rewrite !fmap_cons; simpl; rewrite Hjoin|]. split.
      * constructor; [by repeat constructor|]. by constructor.
      * intros [|i] r r' Hi Hi'.
        -- injection Hi as <-. by injection Hi' as <-.
        -- by apply (Hadj i).
Qed.

(** X11.  The symbols are emitted as one region for each maximal run of
    consecutive symbols of one module: the region line naming the module, the
    sources of the run each followed by an empty line, and the closing line;
    the runs are not empty, adjacent runs are of different modules and
    together they are the list of symbols. *)
Lemma emit_symbols_regions out symbols :
  emit_symbols out symbols = out ++ mjoin (region_of <$> runs symbols)
  ∧ mjoin (snd <$> runs symbols) = symbols
  ∧ Forall (λ r, r.2 ≠ [] ∧ Forall (λ s, sd_module s = r.1) r.2) (runs symbols)
  ∧ ∀ i r r', runs symbols !! i = Some r → runs symbols !! S i = Some r' →
              r.1 ≠ r'.1.
Proof.
  split; [|apply runs_spec].
  destruct symbols as [|s rest]; [by rewrite app_nil_r|].
  unfold emit_symbols. cbn [foldl]. rewrite runs_cons, emit_symbol_none.
  destruct (emit_symbols_from rest
              (out ++ ["# region " +:+ sd_module s;
                       Str.rstrip (sd_source s); ""]) (sd_module s))
    as (m' & Hm' & Heq).
  rewrite Hm', Heq. rewrite <-!(assoc_L (++)). f_equal.
  destruct (runs rest) as [|[m g] gs]; [done|].
  destruct (decide (m = sd_module s)) as [->|Hne];
    repeat first [rewrite decide_True by done | rewrite decide_False by done
                 | progress cbn iota beta];
    rewrite ?fmap_cons; unfold region_of; rewrite ?run_body_cons; simpl;
    by rewrite <-?(assoc_L (++)).
Qed.

(** ** The order of the sorted symbols *)

Lemma filter_fmap_iff {A B} (f : A → B) (P : B → Prop) (Q : A → Prop)
    `{!∀ x, Decision (P x)} `{!∀ x, Decision (Q x)} (l : list A) :
  (∀ x, x ∈ l → P (f x) ↔ Q x) → filter P (f <$> l) = f <$> filter Q l.
Proof.
  induction l as [|x l IH]; intros Hiff; [done|].
  rewrite fmap_cons, !filter_cons.
  rewrite IH by (intros y ?; apply Hiff; by right).
  destruct (decide (Q x)) as [HQ|HQ].
  - rewrite decide_True; [done|]. apply Hiff; [by left|done].
  - rewrite decide_False; [done|]. intros HP. apply HQ, Hiff; [by left|done].
Qed.

Lemma omap_by_id_sub symbols (l : list SymbolDef) :
  NoDup (sid_of <$> symbols) → (∀ s, s ∈ l → s ∈ symbols) →
  omap (λ sid, by_id (build_index symbols) !! sid) (sid_of <$> l) = l.
Proof.
  intros Hnd. induction l as [|s l IH]; intros Hl; [done|]. simpl.
  rewrite build_index_by_id by (done || apply Hl; by left). f_equal.
  apply IH. intros s' ?. apply Hl. by right.
Qed.

Lemma independent_deps iter symbols s :
  iter_ok iter → NoDup (sid_of <$> symbols) → s ∈ symbols →
  deps_at (deps (build_graph iter (build_index symbols))) (sid_of s) = ∅
  ↔ independent symbols s.
Proof.
  intros Hiter Hnd Hs.
  rewrite build_graph_deps, build_index_order.
  rewrite decide_True by (by apply list_elem_of_fmap_2).
  unfold edges. rewrite build_index_by_id by done.
  unfold independent, set_Forall. split.
  - intros Hempty n Hn.
    assert (edge_target (build_index symbols) (sid_of s) n ⊆ ∅) as Hsub.
    { rewrite <-Hempty. intros x Hx. apply elem_of_union_list.
      eexists. split; [|exact Hx]. apply list_elem_of_fmap.
      exists n. split; [done|]. rewrite (Hiter _). by apply elem_of_elements. }
    unfold edge_target in Hsub. rewrite build_index_first in Hsub.
    destruct (first_registered symbols n) as [B|]; [|done]. simpl in Hsub.
    destruct (decide (sid_of B = sid_of s)); [done|]. set_solver.
  - intros Hind. apply leibniz_equiv, elem_of_equiv_empty. intros x Hx.
    apply elem_of_union_list in Hx as (X & HX & Hx).
    apply list_elem_of_fmap in HX as (n & -> & Hn).
    rewrite (Hiter _) in Hn. apply elem_of_elements in Hn.
    specialize (Hind n Hn). unfold edge_target in Hx.
    rewrite build_index_first in Hx.
    destruct (first_registered symbols n) as [B|]; simpl in Hx; [|set_solver].
    rewrite decide_True in Hx by done. set_solver.
Qed.

Lemma kahn_run_out iter symbols :
  iter_ok iter → NoDup (sid_of <$> symbols) →
  ∃ A, k_out (kahn_run iter symbols)
       = (sid_of <$> filter (independent symbols) symbols) ++ A
       ∧ ∀ a, a ∈ A → ∃ s, s ∈ symbols ∧ a = sid_of s ∧ ¬ independent symbols s.
Proof.
  intros Hiter Hnd.
  pose proof (kahn_run_inv iter symbols) as Hinv.
  pose proof (kahn_run_ready iter symbols) as Hready.
  simpl in Hinv. rewrite build_index_order in Hinv.
  destruct Hinv as [_ _ _ _ _ (A & HA & _ & HAs)].
  rewrite Hready, app_nil_r in HA. exists A. split.
  - rewrite HA. f_equal. apply filter_fmap_iff.
    intros s Hs. by apply independent_deps.
  - intros a Ha. destruct (HAs a Ha) as (Hin & Hdeps & _).
    apply list_elem_of_fmap in Hin as (s & -> & Hs).
    exists s. split; [done|]. split; [done|].
    intros Hind. by apply Hdeps, independent_deps.
Qed.

(** X12.  For symbols with pairwise distinct identifiers: when the sort emits every
    node, its result starts with the symbols none of whose definition-time
    dependencies names another symbol, in their input order, and the symbols
    that have such a dependency follow; and when no symbol has such a
    dependency, the result is the input list. *)
Lemma toposort_symbols_stable iter symbols :
  iter_ok iter →
  NoDup (sid_of <$> symbols) →
  (sort_complete iter symbols = true →
   ∃ rest,
     _toposort_symbols iter symbols
     = filter (independent symbols) symbols ++ rest
     ∧ Forall (λ s, s ∈ symbols ∧ ¬ independent symbols s) rest)
  ∧ (Forall (independent symbols) symbols →
     _toposort_symbols iter symbols = symbols).
Proof.
  intros Hiter Hnd.
  destruct (kahn_run_out iter symbols Hiter Hnd) as (A & Hout & HA).
  assert (length (k_out (kahn_run iter symbols)) = length symbols →
          _toposort_symbols iter symbols
          = omap (λ sid, by_id (build_index symbols) !! sid)
              (k_out (kahn_run iter symbols))) as Hres.
  { intros Hlen. unfold _toposort_symbols. destruct symbols as [|s symbols]; [done|].
    rewrite build_index_order, length_fmap.
    by rewrite decide_False by (intros ?; done). }
  split.
  - intros Hlen%bool_decide_eq_true. rewrite Hres, Hout, omap_app by done.
    rewrite omap_by_id_sub
      by (done || by intros s [_ ?]%list_elem_of_filter).
    eexists. split; [done|]. apply Forall_forall. intros s Hs.
    apply list_elem_of_omap in Hs as (a & Ha & Hs).
    destruct (HA a Ha) as (s' & Hs' & -> & Hdep).
    rewrite build_index_by_id in Hs by done. by injection Hs as <-.
  - intros Hall.
    assert (A = []) as ->.
    { destruct A as [|a A]; [done|].
      destruct (HA a) as (s & Hs & _ & Hdep); [by left|].
      rewrite Forall_forall in Hall. by destruct (Hdep (Hall s Hs)). }
    assert (∀ l : list SymbolDef,
              Forall (independent symbols) l
              → filter (independent symbols) l = l) as Hfilter.
    { induction 1 as [|s l Hs Hl IH]; [done|].
      rewrite filter_cons, decide_True by done. by rewrite IH. }
    specialize (Hfilter symbols Hall).
    rewrite Hfilter, app_nil_r in Hout.
    rewrite Hres by (by rewrite Hout, length_fmap).
    rewrite Hout. by apply omap_by_id.
Qed.

Lemma toposort_symbols_stable_witness :
  ∃ rest,
    _toposort_symbols elements [sym_foo; sym_base]
    = filter (independent [sym_foo; sym_base]) [sym_foo; sym_base] ++ rest
    ∧ Forall (λ s, s ∈ [sym_foo; sym_base]
                   ∧ ¬ independent [sym_foo; sym_base] s) rest.
Proof.
  assert (NoDup (sid_of <$> [sym_foo; sym_base])) as Hnd.
  { apply (bool_decide_unpack _). vm_compute. exact I. }
  apply (proj1 (toposort_symbols_stable elements [sym_foo; sym_base]
                  iter_ok_elements Hnd)).
  vm_compute. reflexivity.
Defined.

(** * The tables of [Comb] *)

Lemma binom_gt n r : (n < r)%nat → binom n r = 0%nat.
Proof.
  revert r. induction n as [|n IH]; intros [|r] Hlt; simpl; try lia.
  rewrite !IH by lia. done.
Qed.

Lemma binom_diag n : binom n n = 1%nat.
Proof.
  induction n as [|n IH]; [done|]. simpl.
  rewrite IH, binom_gt by lia. done.
Qed.

Lemma binom_fact n r :
  (r ≤ n)%nat → (binom n r * fact r * fact (n - r) = fact n)%nat.
Proof.
  revert r. induction n as [|n IH]; intros r Hle.
  { assert (r = 0%nat) as -> by lia. done. }
  destruct r as [|r].
  { cbn [binom]. rewrite Nat.sub_0_r. simpl fact at 1. lia. }
  destruct (decide (r = n)) as [->|Hne].
  { rewrite binom_diag, Nat.sub_diag. simpl fact at 2. lia. }
  cbn [binom].
  pose proof (IH r ltac:(lia)) as H1.
  pose proof (IH (S r) ltac:(lia)) as H2.
  replace (S n - S r)%nat with (n - r)%nat by lia.
  replace (n - r)%nat with (S (n - S r)) in * by lia.
  remember (n - S r)%nat as m eqn:Hm.
  change (fact (S m)) with (S m * fact m)%nat in *.
  change (fact (S r)) with (S r * fact r)%nat in *.
  change (fact (S n)) with (S n * fact n)%nat.
  assert (S n = S r + S m)%nat as Hn by lia.
  rewrite Hn at 1. nia.
Qed.

Lemma mod_mul_one a x md :
  md ≠ 0 → x mod md = 1 mod md → (a * x) mod md = a mod md.
Proof.
  intros Hmd Hx. rewrite <-Z.mul_mod_idemp_r, Hx, Z.mul_mod_idemp_r by lia.
  by rewrite Z.mul_1_r.
Qed.

Lemma norm_index_nat (l : list Z) (j : nat) :
  (j < length l)%nat → Comb.norm_index l (Z.of_nat j) = Some j.
Proof.
  intros Hlt. unfold Comb.norm_index.
  rewrite decide_True by lia. by rewrite Nat2Z.id.
Qed.

Lemma getitem_nat (l : list Z) (j : nat) v :
  l !! j = Some v → Comb.getitem l (Z.of_nat j) = Comb.Val v.
Proof.
  intros Hj. unfold Comb.getitem.
  rewrite norm_index_nat by (by eapply lookup_lt_Some). by rewrite Hj.
Qed.

Lemma setitem_nat (l : list Z) (j : nat) v :
  (j < length l)%nat → Comb.setitem l (Z.of_nat j) v = Comb.Val (<[j := v]> l).
Proof. intros Hlt. unfold Comb.setitem. by rewrite norm_index_nat. Qed.

Lemma getitem_Z (l : list Z) (i : Z) v :
  0 ≤ i → l !! Z.to_nat i = Some v → Comb.getitem l i = Comb.Val v.
Proof.
  intros Hi Hv. rewrite <-(Z2Nat.id i) by done. by apply getitem_nat.
Qed.

Lemma setitem_Z (l : list Z) (i : Z) v :
  0 ≤ i < Z.of_nat (length l) →
  Comb.setitem l i v = Comb.Val (<[Z.to_nat i := v]> l).
Proof.
  intros Hi. rewrite <-(Z2Nat.id i) at 1 by lia. apply setitem_nat. lia.
Qed.

Lemma getitem_past (l : list Z) (i : Z) :
  Z.of_nat (length l) ≤ i → Comb.getitem l i = Comb.Err Comb.IndexError.
Proof.
  intros Hi. unfold Comb.getitem, Comb.norm_index.
  rewrite decide_False by lia. by rewrite decide_False by lia.
Qed.

Lemma getitem_from_end (l : list Z) (i : Z) v :
  - Z.of_nat (length l) ≤ i < 0 →
  l !! Z.to_nat (Z.of_nat (length l) + i) = Some v →
  Comb.getitem l i = Comb.Val v.
Proof.
  intros Hi Hv. unfold Comb.getitem, Comb.norm_index.
  rewrite decide_False by lia. rewrite decide_True by lia. by rewrite Hv.
Qed.

Lemma pymod_nonzero a md : md ≠ 0 → Comb.pymod a md = Comb.Val (a mod md).
Proof. intros ?. unfold Comb.pymod. by rewrite decide_False. Qed.

Lemma pyfloordiv_nonzero a md :
  md ≠ 0 → Comb.pyfloordiv a md = Comb.Val (a / md).
Proof. intros ?. unfold Comb.pyfloordiv. by rewrite decide_False. Qed.

Lemma fac_value_mod md j :
  md ≠ 0 → fac_value md j mod md = Z.of_nat (fact j) mod md.
Proof.
  intros Hmd. unfold fac_value. destruct (decide (j < 2)%nat) as [Hj|Hj].
  - by destruct j as [|[|j]]; [| |lia].
  - by rewrite Z.mod_mod by lia.
Qed.

Lemma fac_value_S md k :
  md ≠ 0 → (1 ≤ k)%nat →
  (fac_value md k * Z.of_nat (S k)) mod md = fac_value md (S k).
Proof.
  intros Hmd Hk. unfold fac_value at 2. rewrite decide_False by lia.
  rewrite <-Z.mul_mod_idemp_l, fac_value_mod, Z.mul_mod_idemp_l by lia.
  f_equal. change (fact (S k)) with (S k * fact k)%nat. lia.
Qed.

Lemma tables_ok_init limit md :
  tables_ok limit md 1
    {| Comb._limit := limit; Comb._mod := md;
       Comb._fac := Comb.ones (limit + 1); Comb._inv := Comb.ones (limit + 1);
       Comb._facinv := Comb.ones (limit + 1) |}.
Proof.
  split; simpl; try done; unfold Comb.ones; try apply length_replicate.
  - intros j Hj Hlim. rewrite lookup_replicate_2 by lia.
    unfold fac_value. by rewrite decide_True by lia.
  - intros _ j Hj Hlim. exists 1. rewrite lookup_replicate_2 by lia.
    split; [done|]. f_equal. lia.
  - intros _ j Hj Hlim. exists 1. rewrite lookup_replicate_2 by lia.
    split; [done|]. by destruct j as [|[|j]]; [| |lia].
Qed.

Local Ltac comb_step :=
  cbn [Comb.bind Comb._fac Comb._inv Comb._facinv Comb._limit Comb._mod].

Lemma init_body_ok limit md k self :
  md ≠ 0 → (1 ≤ k)%nat → Z.of_nat (S k) ≤ limit →
  tables_ok limit md k self →
  ∃ self', Comb.init_body md self (Z.of_nat (S k)) = Comb.Val self'
           ∧ tables_ok limit md (S k) self'.
Proof.
  intros Hmd Hk Hlim [Hl Hm Hfl Hil Hfil Hfac Hinv Hfacinv].
  set (i := Z.of_nat (S k)).
  assert (0 ≤ md mod i < i) as Hr by (apply Z.mod_pos_bound; lia).
  destruct (lookup_lt_is_Some_2 (Comb._inv self) (Z.to_nat (md mod i)))
    as [b Hb]; [lia|].
  destruct (lookup_lt_is_Some_2 (Comb._facinv self) k) as [c Hc]; [lia|].
  set (v := (fac_value md k * i) mod md).
  set (w := (md - b * (md / i)) mod md).
  set (x := (c * w) mod md).
  exists {| Comb._limit := Comb._limit self; Comb._mod := Comb._mod self;
            Comb._fac := <[S k := v]> (Comb._fac self);
            Comb._inv := <[S k := w]> (Comb._inv self);
            Comb._facinv := <[S k := x]> (Comb._facinv self) |}.
  assert (Z.to_nat i = S k) as Hi by lia.
  assert (Z.to_nat (i - 1) = k) as Hi1 by lia.
  split.
  - unfold Comb.init_body.
    rewrite (getitem_Z _ (i - 1) (fac_value md k))
      by (lia || (rewrite Hi1; apply Hfac; lia)). comb_step.
    rewrite pymod_nonzero by done. comb_step.
    rewrite setitem_Z by lia. comb_step.
    rewrite pymod_nonzero by lia. comb_step.
    rewrite (getitem_Z _ (md mod i) b) by (lia || done). comb_step.
    rewrite pyfloordiv_nonzero by lia. comb_step.
    rewrite pymod_nonzero by done. comb_step.
    rewrite setitem_Z by lia. comb_step.
    rewrite (getitem_Z _ (i - 1) c) by (lia || by rewrite Hi1). comb_step.
    rewrite (getitem_Z _ i w)
      by (lia || (rewrite Hi; apply list_lookup_insert_eq; lia)). comb_step.
    rewrite pymod_nonzero by done. comb_step.
    rewrite setitem_Z by lia. by rewrite Hi.
  - assert (coprime_upto limit md → (i * w) mod md = 1 mod md) as Hw.
    { intros Hco.
      assert (md mod i ≠ 0) as Hnz by (apply Hco; lia).
      destruct (Hinv Hco (Z.to_nat (md mod i)) ltac:(lia) ltac:(lia))
        as (b' & Hb' & Hone).
      rewrite Hb in Hb'. injection Hb' as <-.
      rewrite Z2Nat.id in Hone by lia.
      unfold w. rewrite Z.mul_mod_idemp_r by done.
      replace (i * (md - b * (md / i)))
        with (b * (md mod i) + (i - b) * md)
        by (rewrite Z.mod_eq by lia; ring).
      rewrite Z.mod_add by done. by rewrite (Z.mul_comm b). }
    split; simpl; rewrite ?length_insert; try done.
    + intros j Hj Hjl. destruct (decide (j = S k)) as [->|Hne].
      * rewrite list_lookup_insert_eq by lia. f_equal. by apply fac_value_S.
      * rewrite list_lookup_insert_ne by done. apply Hfac; lia.
    + intros Hco j Hj Hjl. destruct (decide (j = S k)) as [->|Hne].
      * exists w. rewrite list_lookup_insert_eq by lia. split; [done|].
        by apply Hw.
      * rewrite list_lookup_insert_ne by done. apply Hinv; [done|lia|lia].
    + intros Hco j Hj Hjl. destruct (decide (j = S k)) as [->|Hne].
      * exists x. rewrite list_lookup_insert_eq by lia. split; [done|].
        destruct (Hfacinv Hco k ltac:(lia) ltac:(lia)) as (c' & Hc' & Hone).
        rewrite Hc in Hc'. injection Hc' as <-.
        unfold x. rewrite Z.mul_mod_idemp_l by done.
        change (fact (S k)) with (S k * fact k)%nat.
        replace (c * w * Z.of_nat (S k * fact k))
          with ((c * Z.of_nat (fact k)) * (i * w)) by (unfold i; lia).
        rewrite (mod_mul_one _ _ _ Hmd (Hw Hco)). done.
      * rewrite list_lookup_insert_ne by done. apply Hfacinv; [done|lia|lia].
Qed.

Lemma init_loop_ok limit md n k self :
  md ≠ 0 → (1 ≤ k)%nat → Z.of_nat (k + n) ≤ limit →
  tables_ok limit md k self →
  ∃ self',
    Comb.for_each (Comb.init_body md) self
      (seqZ (Z.of_nat k + 1) (Z.of_nat n)) = Comb.Val self'
    ∧ tables_ok limit md (k + n) self'.
Proof.
  revert k self. induction n as [|n IH]; intros k self Hmd Hk Hlim Hok.
  { exists self. split; [done|]. by rewrite Nat.add_0_r. }
  rewrite seqZ_cons by lia. cbn [Comb.for_each].
  destruct (init_body_ok limit md k self) as (self1 & Hbody & Hok1);
    [done|done|lia|done|].
  replace (Z.of_nat k + 1) with (Z.of_nat (S k)) by lia. rewrite Hbody.
  destruct (IH (S k) self1) as (self' & Hloop & Hok'); [done|lia|lia|done|].
  exists self'. split.
  - rewrite <-Hloop. f_equal. f_equal; lia.
  - by replace (k + S n)%nat with (S k + n)%nat by lia.
Qed.

Lemma init_tables limit md :
  md ≠ 0 ∨ limit < 2 →
  ∃ self, Comb.__init__ limit md = Comb.Val self
          ∧ tables_ok limit md (Z.to_nat (Z.max 1 limit)) self.
Proof.
  intros Hcase. unfold Comb.__init__, Comb.range.
  destruct (decide (limit < 2)) as [Hlt|Hge].
  - rewrite seqZ_nil by lia. eexists. split; [done|].
    pose proof (tables_ok_init limit md) as [? ? ? ? ? Hfac Hinv Hfacinv].
    split; try done.
    + intros j _ Hj. apply Hfac; lia.
    + intros Hco j Hj1 Hj. apply Hinv; [done|lia|lia].
    + intros Hco j _ Hj. apply Hfacinv; [done|lia|lia].
  - destruct Hcase as [Hmd|?]; [|lia].
    destruct (init_loop_ok limit md (Z.to_nat (limit - 1)) 1 _ Hmd
                ltac:(lia) ltac:(lia) (tables_ok_init limit md))
      as (self & Hloop & Hok).
    exists self. split.
    + rewrite <-Hloop. f_equal. f_equal; lia.
    + by replace (Z.to_nat (Z.max 1 limit))
        with (1 + Z.to_nat (limit - 1))%nat by lia.
Qed.

Lemma init_zero_modulus limit :
  2 ≤ limit → Comb.__init__ limit 0 = Comb.Err Comb.ZeroDivisionError.
Proof.
  intros Hlim. unfold Comb.__init__, Comb.range.
  rewrite seqZ_cons by lia. cbn [Comb.for_each].
  unfold Comb.init_body. comb_step.
  change (2 - 1) with (Z.of_nat 1).
  rewrite (getitem_nat _ 1 1)
    by (unfold Comb.ones; apply lookup_replicate_2; lia).
  done.
Qed.

Lemma init_Val limit md self :
  Comb.__init__ limit md = Comb.Val self →
  (md ≠ 0 ∨ limit < 2)
  ∧ tables_ok limit md (Z.to_nat (Z.max 1 limit)) self.
Proof.
  intros Hinit.
  assert (md ≠ 0 ∨ limit < 2) as Hcase.
  { destruct (decide (md = 0)) as [->|?]; [|by left].
    destruct (decide (limit < 2)); [by right|].
    by rewrite init_zero_modulus in Hinit by lia. }
  split; [done|].
  destruct (init_tables limit md Hcase) as (self' & Hinit' & Hok).
  rewrite Hinit in Hinit'. by injection Hinit' as <-.
Qed.

(** X14.  [Comb(limit, mod)]: the constructor raises only for a zero modulus with
    [limit] at least 2, and then the division error; otherwise the three
    tables have [limit + 1] entries (none for a negative [limit]) and the
    table of factorials holds [1] at 0 and 1 and the factorial of [j]
    modulo the modulus at every other [j] up to [limit]. *)
Lemma comb_init_fac limit md :
  (md = 0 ∧ 2 ≤ limit →
   Comb.__init__ limit md = Comb.Err Comb.ZeroDivisionError)
  ∧ (md ≠ 0 ∨ limit < 2 →
     ∃ self,
       Comb.__init__ limit md = Comb.Val self
       ∧ Comb._limit self = limit ∧ Comb._mod self = md
       ∧ length (Comb._fac self) = Z.to_nat (limit + 1)
       ∧ length (Comb._inv self) = Z.to_nat (limit + 1)
       ∧ length (Comb._facinv self) = Z.to_nat (limit + 1)
       ∧ ∀ j, (Z.of_nat j ≤ limit) →
              Comb._fac self !! j
              = Some (if decide (j < 2)%nat then 1
                      else Z.of_nat (fact j) mod md)).
Proof.
  split; [intros [-> ?]; by apply init_zero_modulus|].
  intros Hcase.
  destruct (init_tables limit md Hcase)
    as (self & Hinit & [? ? ? ? ? Hfac _ _]).
  exists self. repeat (split; [done|]).
  intros j Hj. apply Hfac; lia.
Qed.

(** X15.  The table of inverses: for a modulus that no number from 2 to
    [limit] divides (a prime above [limit], say), the entry at every [j]
    from 1 to [limit] is an inverse of [j] modulo the modulus, and the entry
    of the table of inverse factorials at every [j] up to [limit] is an
    inverse of the factorial of [j]. *)
Lemma comb_init_inverses limit md self :
  coprime_upto limit md →
  Comb.__init__ limit md = Comb.Val self →
  (∀ j, 1 ≤ Z.of_nat j ≤ limit →
     ∃ v, Comb._inv self !! j = Some v
          ∧ (Z.of_nat j * v) mod md = 1 mod md)
  ∧ (∀ j, Z.of_nat j ≤ limit →
       ∃ v, Comb._facinv self !! j = Some v
            ∧ (v * Z.of_nat (fact j)) mod md = 1 mod md).
Proof.
  intros Hco Hinit.
  destruct (init_Val _ _ _ Hinit) as [_ [_ _ _ _ _ _ Hinv Hfacinv]].
  split.
  - intros j Hj. apply Hinv; [done|lia|lia].
  - intros j Hj. apply Hfacinv; [done|lia|lia].
Qed.

(** X16.  [Comb(limit, mod)(n, r)] for [0 <= r <= n <= limit]: for a modulus other
    than zero that no number from 2 to [limit] divides, the call returns the
    binomial coefficient modulo the modulus. *)
Lemma comb_call_binom limit md self n r :
  md ≠ 0 →
  coprime_upto limit md →
  Comb.__init__ limit md = Comb.Val self →
  (r ≤ n)%nat → Z.of_nat n ≤ limit →
  Comb.__call__ self (Z.of_nat n) (Z.of_nat r)
  = Comb.Val (Z.of_nat (binom n r) mod md).
Proof.
  intros Hmd Hco Hinit Hrn Hn.
  destruct (init_Val _ _ _ Hinit) as [_ [Hl Hm _ _ _ Hfac _ Hfacinv]].
  destruct (Hfacinv Hco (n - r)%nat ltac:(lia) ltac:(lia)) as (b & Hb & Hbone).
  destruct (Hfacinv Hco r ltac:(lia) ltac:(lia)) as (d & Hd & Hdone).
  unfold Comb.__call__. rewrite Hl, Hm.
  rewrite decide_True by lia. rewrite decide_False by lia.
  rewrite (getitem_nat _ _ _ (Hfac n ltac:(lia) ltac:(lia))). comb_step.
  replace (Z.of_nat n - Z.of_nat r) with (Z.of_nat (n - r)) by lia.
  rewrite (getitem_nat _ _ _ Hb). comb_step.
  rewrite pymod_nonzero by done. comb_step.
  rewrite (getitem_nat _ _ _ Hd). comb_step.
  rewrite pymod_nonzero by done. f_equal.
  rewrite Z.mul_mod_idemp_l by done.
  rewrite <-(Z.mul_assoc (fac_value md n)), <-Z.mul_mod_idemp_l by done.
  rewrite fac_value_mod, Z.mul_mod_idemp_l by done.
  rewrite <-(binom_fact n r Hrn), !Nat2Z.inj_mul.
  replace (Z.of_nat (binom n r) * Z.of_nat (fact r) * Z.of_nat (fact (n - r))
           * (b * d))
    with (Z.of_nat (binom n r) * (d * Z.of_nat (fact r))
          * (b * Z.of_nat (fact (n - r)))) by ring.
  rewrite (mod_mul_one _ _ _ Hmd Hbone). by apply mod_mul_one.
Qed.

(** X17.  [Comb(limit, mod)(n, r)] at the edges: [n] outside [0..limit] fails the
    assertion; [r] above [n] gives 0; and a negative [r] is not rejected: the
    table of inverse factorials is read at [n - r], which raises the index
    error when that is above [limit], and else at [r] counted from the end
    of the table, and a number is returned. *)
Lemma comb_call_edges limit md self n r :
  Comb.__init__ limit md = Comb.Val self →
  (¬ 0 ≤ n ≤ limit → Comb.__call__ self n r = Comb.Err Comb.AssertionError)
  ∧ (0 ≤ n ≤ limit → n < r → Comb.__call__ self n r = Comb.Val 0)
  ∧ (0 ≤ n ≤ limit → r < 0 → limit < n - r →
     Comb.__call__ self n r = Comb.Err Comb.IndexError)
  ∧ (0 ≤ n ≤ limit → r < 0 → n - r ≤ limit → md ≠ 0 →
     ∃ a b d,
       Comb._fac self !! Z.to_nat n = Some a
       ∧ Comb._facinv self !! Z.to_nat (n - r) = Some b
       ∧ Comb._facinv self !! Z.to_nat (limit + 1 + r) = Some d
       ∧ Comb.__call__ self n r = Comb.Val (((a * b) mod md * d) mod md)).
Proof.
  intros Hinit.
  destruct (init_Val _ _ _ Hinit) as [_ [Hl Hm Hfl _ Hfil Hfac _ _]].
  unfold Comb.__call__. rewrite Hl, Hm.
  split; [intros ?; by rewrite decide_False|].
  split; [intros ??; rewrite decide_True by done; by rewrite decide_True|].
  split.
  - intros Hn Hr Hpast. rewrite decide_True by done.
    rewrite decide_False by lia.
    rewrite <-(Z2Nat.id n) at 1 by lia.
    rewrite (getitem_nat _ _ _ (Hfac (Z.to_nat n) ltac:(lia) ltac:(lia))).
    comb_step. by rewrite getitem_past by lia.
  - intros Hn Hr Hin Hmd. rewrite decide_True by done.
    rewrite decide_False by lia.
    destruct (lookup_lt_is_Some_2 (Comb._facinv self) (Z.to_nat (n - r)))
      as [b Hb]; [lia|].
    destruct (lookup_lt_is_Some_2 (Comb._facinv self)
                (Z.to_nat (limit + 1 + r))) as [d Hd]; [lia|].
    exists (fac_value md (Z.to_nat n)), b, d.
    split; [apply Hfac; lia|]. split; [done|]. split; [done|].
    rewrite <-(Z2Nat.id n) at 1 by lia.
    rewrite (getitem_nat _ _ _ (Hfac (Z.to_nat n) ltac:(lia) ltac:(lia))).
    comb_step. rewrite <-(Z2Nat.id (n - r)) at 1 by lia.
    rewrite (getitem_nat _ _ _ Hb). comb_step.
    rewrite pymod_nonzero by done. comb_step.
    rewrite (getitem_from_end _ r d); [|lia|].
    + comb_step. by rewrite pymod_nonzero.
    + rewrite <-Hd. f_equal. lia.
Qed.

Lemma prime_coprime_upto limit md :
  prime md → limit < md → coprime_upto limit md.
Proof.
  intros [Hgt Hrel] Hlim j Hj Hmod.
  apply Z.mod_divide in Hmod; [|lia].
  destruct (Hrel j ltac:(lia)) as [_ _ Hgcd].
  pose proof (Hgcd j (Z.divide_refl j) Hmod) as Hone.
  apply Z.divide_1_r_nonneg in Hone; lia.
Qed.

Lemma coprime_upto_5_7 : coprime_upto 5 7.
Proof.
  intros j Hj.
  assert (j = 2 ∨ j = 3 ∨ j = 4 ∨ j = 5) as [->|[->|[->| ->]]] by lia; done.
Defined.

Lemma comb_init_inverses_witness :
  (∀ j, 1 ≤ Z.of_nat j ≤ 5 →
     ∃ v, Comb._inv comb_5_7 !! j = Some v
          ∧ (Z.of_nat j * v) mod 7 = 1 mod 7)
  ∧ (∀ j, Z.of_nat j ≤ 5 →
       ∃ v, Comb._facinv comb_5_7 !! j = Some v
            ∧ (v * Z.of_nat (fact j)) mod 7 = 1 mod 7).
Proof.
  apply (comb_init_inverses 5 7 comb_5_7 coprime_upto_5_7).
  vm_compute. reflexivity.
Defined.

Lemma comb_call_binom_witness :
  Comb.__call__ comb_5_7 (Z.of_nat 4) (Z.of_nat 2)
  = Comb.Val (Z.of_nat (binom 4 2) mod 7).
Proof.
  apply (comb_call_binom 5 7 comb_5_7 4 2).
  - done.
  - exact coprime_upto_5_7.
  - vm_compute. reflexivity.
  - lia.
  - lia.
Defined.

Lemma comb_call_edges_witness :
  (¬ 0 ≤ 2 ≤ 5 → Comb.__call__ comb_5_7 2 (-1) = Comb.Err Comb.AssertionError)
  ∧ (0 ≤ 2 ≤ 5 → 2 < -1 → Comb.__call__ comb_5_7 2 (-1) = Comb.Val 0)
  ∧ (0 ≤ 2 ≤ 5 → -1 < 0 → 5 < 2 - -1 →
     Comb.__call__ comb_5_7 2 (-1) = Comb.Err Comb.IndexError)
  ∧ (0 ≤ 2 ≤ 5 → -1 < 0 → 2 - -1 ≤ 5 → 7 ≠ 0 →
     ∃ a b d,
       Comb._fac comb_5_7 !! Z.to_nat 2 = Some a
       ∧ Comb._facinv comb_5_7 !! Z.to_nat (2 - -1) = Some b
       ∧ Comb._facinv comb_5_7 !! Z.to_nat (5 + 1 + -1) = Some d
       ∧ Comb.__call__ comb_5_7 2 (-1)
         = Comb.Val (((a * b) mod 7 * d) mod 7)).
Proof.
  apply (comb_call_edges 5 7 comb_5_7 2 (-1)).
  vm_compute. reflexivity.
Defined.

(** ** The import lines of a module *)

Lemma import_stmt_cases {X} (s : stmt) (A B C : X) :
  match s with
  | ImportFrom (Some "__future__") _ _ => A
  | Import _ | ImportFrom _ _ _ => B
  | _ => C
  end
  = if is_future_stmt s then A else if is_import_stmt s then B else C.
Proof.
  destruct s as [| | | | | |module names level|]; try reflexivity.
  destruct module as [m|]; [|reflexivity].
  do 11 (destruct m as [|[[] [] [] [] [] [] [] []] m]; try reflexivity).
Qed.

Lemma lib_import_not_future s :
  is_lib_import_from s = true → is_future_stmt s = false ∧ is_import_stmt s = true.
Proof.
  destruct s as [| | | | | |module names level|]; try done.
  destruct module as [m|]; [|done].
  intros Hlib. split; [|done].
  destruct (is_future_stmt (ImportFrom (Some m) names level)) eqn:Hf; [|done].
  assert (m = "__future__") as ->; [|done].
  clear Hlib. revert Hf.
  do 11 (destruct m as [|[[] [] [] [] [] [] [] []] m]; try done).
Qed.

Lemma extract_top_level_import_lines_go source body future_imports other_imports :
  _extract_top_level_import_lines_go source body future_imports other_imports
  = (future_imports ++ segments_of is_future_stmt source body,
     other_imports
       ++ segments_of (λ s, negb (is_future_stmt s) && is_import_stmt s)
            source body).
Proof.
  revert future_imports other_imports.
  induction body as [|n body IH]; intros future_imports other_imports.
  { simpl. by rewrite !app_nil_r. }
  cbn [_extract_top_level_import_lines_go]. rewrite import_stmt_cases.
  unfold segments_of. cbn [omap list_omap].
  destruct (is_future_stmt (stmt_of n)); simpl.
  - destruct (truthy (get_source_segment source n)); rewrite IH; [|done].
    by rewrite <-(assoc_L (++)).
  - destruct (is_import_stmt (stmt_of n)); simpl; [|by rewrite IH].
    destruct (truthy (get_source_segment source n)); rewrite IH; [|done].
    by rewrite <-(assoc_L (++)).
Qed.

(** X13.  The import lines collected from a module: the first list holds the
    source text of its top-level [__future__] imports and the second the
    source text of every other top-level import statement, each in source
    order; the from-imports of the library itself are not left out. *)
Lemma extract_top_level_import_lines_spec md :
  _extract_top_level_import_lines md
  = (segments_of is_future_stmt (ms_source md) (ms_tree md),
     segments_of (λ s, negb (is_future_stmt s) && is_import_stmt s)
       (ms_source md) (ms_tree md))
  ∧ ∀ n seg,
      n ∈ ms_tree md → is_lib_import_from (stmt_of n) = true →
      truthy (get_source_segment (ms_source md) n) = Some seg →
      seg ∈ (_extract_top_level_import_lines md).2.
Proof.
  assert (_extract_top_level_import_lines md
          = (segments_of is_future_stmt (ms_source md) (ms_tree md),
             segments_of (λ s, negb (is_future_stmt s) && is_import_stmt s)
               (ms_source md) (ms_tree md))) as Heq.
  { unfold _extract_top_level_import_lines.
    by rewrite extract_top_level_import_lines_go. }
  split; [done|]. intros n seg Hn Hlib Hseg. rewrite Heq. simpl.
  apply list_elem_of_omap. exists n. split; [done|].
  destruct (lib_import_not_future _ Hlib) as [-> ->]. done.
Qed.

(** ** Import lines of the library in the output *)

Lemma closure_loop_invariant (P : closure_state → Prop) iter W root fuel st st' :
  (∀ st item q st1,
     P st → queue st = item :: q →
     closure_body iter W root item (pop_queue st q) = Ok st1 → P st1) →
  P st → closure_loop iter W root fuel st = Some (Ok st') →
  P st' ∧ queue st' = [].
Proof.
  intros Hstep. revert st. induction fuel as [|fuel IH]; intros st HP; simpl.
  - destruct (queue st) eqn:Hq; [|done]. by intros [= <-].
  - destruct (queue st) as [|item q] eqn:Hq; [by intros [= <-]|].
    destruct (closure_body iter W root item (pop_queue st q)) as [st1|e] eqn:Hb;
      [|done].
    apply IH. by eapply Hstep.
Qed.

Lemma get_module_lines W root m ld md ld' :
  (∀ m0 md0, module_cache ld !! m0 = Some md0 →
     ∀ l, l ∈ (_extract_top_level_import_lines md0).2 →
          l ∈ module_imports_other ld) →
  get_module W root m ld = Ok (md, ld') →
  ∀ m0 md0, module_cache ld' !! m0 = Some md0 →
    ∀ l, l ∈ (_extract_top_level_import_lines md0).2 →
         l ∈ module_imports_other ld'.
Proof.
  intros Hld. unfold get_module.
  destruct (module_cache ld !! m) as [md1|] eqn:Hm; [by intros [= <- <-]|].
  destruct (_parse_module_source W m root) as [md1|]; simpl; [|done].
  intros [= <- <-] m0 md0. simpl. rewrite lookup_insert.
  case_decide as Hm0.
  - intros [= <-] l Hl. apply elem_of_app. by right.
  - intros Hmd0 l Hl. apply elem_of_app. left. by eapply Hld.
Qed.

(** When the closure ends without an error, the text of every top-level
    from-import of the library that a module named by the entry file holds
    is among the import lines the emitter writes into the [Imports] region. *)
Lemma closure_keeps_lib_imports iter W root imported st item md n seg :
  closure iter W root imported = Some (Ok st) →
  item ∈ imported →
  _parse_module_source W (imp_module item) root = Ok md →
  n ∈ ms_tree md →
  is_lib_import_from (stmt_of n) = true →
  truthy (get_source_segment (ms_source md) n) = Some seg →
  Str.strip seg ≠ "" →
  Str.strip seg
  ∈ Str.strip <$> _dedup_keep_order (module_imports_other (cs_loader st)).
Proof.
  intros Hclosure Hitem Hparse Hn Hlib Hseg Hstrip.
  destruct (closure_loop_invariant
              (λ st,
                 cache_ok W root (cs_loader st)
                 ∧ (∀ m0 md0, module_cache (cs_loader st) !! m0 = Some md0 →
                      ∀ l, l ∈ (_extract_top_level_import_lines md0).2 →
                           l ∈ module_imports_other (cs_loader st))
                 ∧ ∀ it, it ∈ imported →
                     it ∈ queue st
                     ∨ is_Some (module_cache (cs_loader st) !! imp_module it))
              iter W root (closure_fuel W root imported)
              (closure_init imported) st)
    as [(Hcache & Hlines & Himp) Hq]; [| |exact Hclosure|].
  - clear. intros st item q st1 (Hcache & Hlines & Himp) Hq Hbody.
    apply closure_body_Ok in Hbody
      as (md & ld' & n & sym & cache' & Hget & _ & _ & Hst1).
    simpl in Hget.
    assert (cs_loader st1 = ld') as -> by (by destruct Hst1 as [[_ ->]|[_ ->]]).
    destruct (get_module_Ok _ _ _ _ _ _ Hcache Hget) as [_ Hcache'].
    destruct (get_module_cache _ _ _ _ _ _ Hget) as [Hloaded Hgrow].
    split; [done|]. split; [by eapply get_module_lines|].
    intros it Hit. destruct (Himp it Hit) as [Hin|Hc]; [|right; by apply Hgrow].
    rewrite Hq in Hin. apply elem_of_cons in Hin as [->|Hin]; [by right|].
    left. destruct Hst1 as [[_ ->]|[_ ->]]; simpl; [done|].
    rewrite enqueue_deps_eq. apply elem_of_app. by left.
  - split; [|split].
    + intros m0 md0. simpl. by rewrite lookup_empty.
    + intros m0 md0. simpl. by rewrite lookup_empty.
    + intros it ?. by left.
  - destruct (Himp item Hitem) as [Hin|[md' Hmd']];
      [rewrite Hq in Hin; by apply elem_of_nil in Hin|].
    pose proof (Hcache _ _ Hmd') as Hparse'. rewrite Hparse in Hparse'.
    injection Hparse' as <-.
    assert (seg ∈ module_imports_other (cs_loader st)) as Hin.
    { apply (Hlines _ _ Hmd'). unfold _extract_top_level_import_lines.
      rewrite extract_top_level_import_lines_go. simpl.
      apply list_elem_of_omap. exists n. split; [done|].
      by destruct (lib_import_not_future _ Hlib) as [-> ->]. }
    unfold _dedup_keep_order.
    destruct (dedup_keep_order_go (module_imports_other (cs_loader st)) ∅ [])
      as (new & -> & _ & _ & _ & Hall).
    destruct (Hall seg Hin Hstrip) as [?|?]; [set_solver|done].
Qed.
